(** * StACSOS: buddy page allocator, round-robin scheduler and [ls]

    A shallow embedding of four pieces of the StACSOS teaching kernel:

    - [kernel/src/sched/alg/rr.cpp]             (module [RoundRobin]),
    - [user/ls/src/main.cpp]                    (module [Ls]),
    - [kernel/inc/stacsos/kernel/fs/file.h]     (module [File]),
    - [kernel/src/mem/page-allocator-buddy.cpp] (module [Buddy]),

    together with the properties that the design document states about
    them, and with further properties read off the code. *)

From Stdlib Require Import ZArith List Bool Lia String Ascii.
From Stdlib Require Import DecimalString Sorted.
Import ListNotations.

Local Open Scope Z_scope.

(* ===================================================================== *)
(** * The round-robin scheduler ([rr.cpp]) *)
(* ===================================================================== *)

Module RoundRobin.

(** A [tcb*] is the address of a task control block; [nullptr] is [None]. *)
Definition tcb := Z.

(** The [current_task] slot of [rr.h]: [{task, to_remove}]. *)
Record current_slot := {
  task : option tcb;
  to_remove : bool
}.

Record round_robin := {
  runqueue : list tcb;
  current_task : current_slot
}.

(** The run queue is a [list<tcb*>] of the kernel library, which is not
    part of the sources at hand.  [enqueue] appends at the tail, [pop]
    takes the head, [empty] tests for emptiness. *)
Definition enqueue (q : list tcb) (t : tcb) : list tcb := q ++ [t].

Definition pop (q : list tcb) : option tcb * list tcb :=
  match q with
  | [] => (None, [])
  | t :: q' => (Some t, q')
  end.

Definition empty (q : list tcb) : bool :=
  match q with [] => true | _ => false end.

Definition ptr_eqb (a : tcb) (b : option tcb) : bool :=
  match b with
  | Some t => a =? t
  | None => false
  end.

Section Scheduler.

(** [list<T>::remove] is likewise outside the sources; the scheduler only
    hands the queue and the element to it. *)
Variable list_remove : list tcb -> tcb -> list tcb.

Definition add_to_runqueue (s : round_robin) (t : tcb) : round_robin :=
  {| runqueue := enqueue (runqueue s) t; current_task := current_task s |}.

Definition remove_from_runqueue (s : round_robin) (t : tcb) : round_robin :=
  if ptr_eqb t (task (current_task s)) then
    {| runqueue := runqueue s;
       current_task := {| task := task (current_task s); to_remove := true |} |}
  else
    {| runqueue := list_remove (runqueue s) t; current_task := current_task s |}.

(** [select_next_task(current)]: the argument is not read by the body,
    which works on the [current_task] slot. *)
Definition select_next_task (s : round_robin) (current : option tcb)
  : option tcb * round_robin :=
  if empty (runqueue s) then
    let c :=
      if to_remove (current_task s)
      then {| task := None; to_remove := false |}
      else current_task s in
    (task c, {| runqueue := runqueue s; current_task := c |})
  else
    let q1 :=
      match task (current_task s) with
      | Some t => if negb (to_remove (current_task s))
                  then enqueue (runqueue s) t else runqueue s
      | None => runqueue s
      end in
    let '(next, q2) := pop q1 in
    (next, {| runqueue := q2;
              current_task := {| task := next; to_remove := false |} |}).

(** The tasks returned by [n] successive scheduling points, each one
    called with the task returned by the previous one. *)
Fixpoint selects (n : nat) (s : round_robin) (current : option tcb)
  : list (option tcb) :=
  match n with
  | O => []
  | S n' =>
      let '(next, s') := select_next_task s current in
      next :: selects n' s' next
  end.

End Scheduler.

(** [alternate n x y] is [x; y; x; y; ...], [n] elements long. *)
Fixpoint alternate (n : nat) (x y : tcb) : list (option tcb) :=
  match n with
  | O => []
  | S n' => Some x :: alternate n' y x
  end.

Lemma selects_two_tasks (n : nat) (x y : tcb) (cur : option tcb) :
  selects n {| runqueue := [x];
               current_task := {| task := Some y; to_remove := false |} |} cur
  = alternate n x y.
Proof.
  revert x y cur.
  induction n as [|n IH]; intros x y cur; [reflexivity|].
  cbn. f_equal. apply IH.
Qed.

Lemma alternate_members (n : nat) (x y : tcb) (r : option tcb) :
  In r (alternate n x y) -> r = Some x \/ r = Some y.
Proof.
  revert x y.
  induction n as [|n IH]; intros x y; cbn; [tauto|].
  intros [<-|H]; [now left|].
  destruct (IH _ _ H); auto.
Qed.

(** C8. With current task A and run queue [B; C], [remove_from_runqueue(A)]
    only raises the deferred-removal flag and leaves the queue alone; the
    next [select_next_task] returns B and leaves the queue [C] (A is not
    put back); every later call returns C, B, C, ... in turn, and never A. *)
Theorem self_removal_rotation
    (list_remove : list tcb -> tcb -> list tcb) (A B C : tcb)
    (HAB : A <> B) (HAC : A <> C) :
  let s0 := {| runqueue := [B; C];
               current_task := {| task := Some A; to_remove := false |} |} in
  let s1 := remove_from_runqueue list_remove s0 A in
  let r := select_next_task s1 (Some A) in
  to_remove (current_task s1) = true /\
  runqueue s1 = [B; C] /\
  fst r = Some B /\
  runqueue (snd r) = [C] /\
  forall n : nat,
    selects n (snd r) (fst r) = alternate n C B /\
    ~ In (Some A) (selects n (snd r) (fst r)).
Proof.
  cbn. unfold remove_from_runqueue. cbn. rewrite Z.eqb_refl. cbn.
  repeat split; try reflexivity.
  - apply selects_two_tasks.
  - rewrite selects_two_tasks. intros H.
    apply alternate_members in H. destruct H as [H|H]; congruence.
Qed.

Lemma self_removal_rotation_witness :
  1 <> 2 /\ 1 <> 3 /\
  selects 4 (snd (select_next_task
                    (remove_from_runqueue (fun q _ => q)
                       {| runqueue := [2; 3];
                          current_task := {| task := Some 1; to_remove := false |} |} 1)
                    (Some 1)))
            (Some 2)
  = [Some 3; Some 2; Some 3; Some 2].
Proof.
  assert (H12 : 1 <> 2) by lia.
  assert (H13 : 1 <> 3) by lia.
  split; [exact H12|]. split; [exact H13|].
  exact (proj1 (proj2 (proj2 (proj2 (proj2
           (self_removal_rotation (fun q _ => q) 1 2 3 H12 H13)))) 4%nat)).
Defined.

(** C9. Whatever the run queue and the current-task slot hold, the
    [to_remove] flag of the slot is false right after [select_next_task]
    returns. *)
Theorem select_next_task_clears_to_remove
    (s : round_robin) (current : option tcb) :
  to_remove (current_task (snd (select_next_task s current))) = false.
Proof.
  unfold select_next_task.
  destruct (empty (runqueue s)).
  - cbn. destruct (to_remove (current_task s)) eqn:E; cbn; [reflexivity|exact E].
  - destruct (pop _) as [next q2]. reflexivity.
Qed.

(** ** More on the scheduler *)

(** [select_next_task] does not read its argument. *)
Lemma select_next_task_argument (s : round_robin) (c c' : option tcb) :
  select_next_task s c = select_next_task s c'.
Proof. reflexivity. Qed.

(** The scheduler after [n] successive scheduling points. *)
Fixpoint after_selects (n : nat) (s : round_robin) (current : option tcb)
  : round_robin :=
  match n with
  | O => s
  | S n' =>
      let '(next, s') := select_next_task s current in
      after_selects n' s' next
  end.

Lemma selects_argument (n : nat) (s : round_robin) (c c' : option tcb) :
  selects n s c = selects n s c'.
Proof. destruct n; reflexivity. Qed.

Lemma after_selects_argument (n : nat) (s : round_robin) (c c' : option tcb) :
  after_selects n s c = after_selects n s c'.
Proof. destruct n; reflexivity. Qed.

Lemma selects_add (n m : nat) (s : round_robin) (c : option tcb) :
  selects (n + m) s c
  = selects n s c ++ selects m (after_selects n s c) c.
Proof.
  revert s c. induction n as [|n IH]; intros s c; [reflexivity|].
  cbn [Nat.add selects after_selects].
  destruct (select_next_task s c) as [next s'].
  cbn [app]. f_equal. rewrite IH. f_equal. apply selects_argument.
Qed.

Lemma after_selects_add (n m : nat) (s : round_robin) (c : option tcb) :
  after_selects (n + m) s c = after_selects m (after_selects n s c) c.
Proof.
  revert s c. induction n as [|n IH]; intros s c; [reflexivity|].
  cbn [Nat.add after_selects].
  destruct (select_next_task s c) as [next s'].
  rewrite IH. apply after_selects_argument.
Qed.

(** The scheduler running [c] with [q] waiting and no removal pending. *)
Definition running (q : list tcb) (c : tcb) : round_robin :=
  {| runqueue := q; current_task := {| task := Some c; to_remove := false |} |}.

Lemma select_running (x c : tcb) (q : list tcb) (cur : option tcb) :
  select_next_task (running (x :: q) c) cur = (Some x, running (q ++ [c]) x).
Proof. reflexivity. Qed.

Lemma removelast_cons2 (c x : tcb) (l : list tcb) :
  removelast (c :: x :: l) = c :: removelast (x :: l).
Proof. reflexivity. Qed.

Lemma last_cons_default (x a b : tcb) (l : list tcb) :
  last (x :: l) a = last (x :: l) b.
Proof.
  revert x. induction l as [|y l IH]; intros x; [reflexivity|].
  exact (IH y).
Qed.

(** Going through the waiting tasks [q2]: they are returned in order, the
    task that ran moves to the tail, behind the tasks [q1] that wait
    further back. *)
Lemma selects_through (q2 : list tcb) :
  forall (q1 : list tcb) (c : tcb) (cur : option tcb),
    selects (List.length q2) (running (q2 ++ q1) c) cur = map Some q2 /\
    after_selects (List.length q2) (running (q2 ++ q1) c) cur
    = running (q1 ++ removelast (c :: q2)) (last q2 c).
Proof.
  induction q2 as [|x q2 IH]; intros q1 c cur.
  - cbn. rewrite app_nil_r. split; reflexivity.
  - cbn [List.length selects after_selects app].
    rewrite select_running.
    destruct (IH (q1 ++ [c]) x (Some x)) as (Hs & Ha).
    rewrite <- app_assoc. rewrite Hs, Ha. split; [reflexivity|].
    rewrite removelast_cons2, <- app_assoc. cbn [app].
    destruct q2 as [|y q2]; [reflexivity|].
    f_equal. exact (last_cons_default y x c q2).
Qed.

(** The tasks that the scheduler can still hand out: the waiting ones, and
    the current one unless its removal is pending. *)
Definition known (s : round_robin) (t : tcb) : Prop :=
  In t (runqueue s) \/
  (task (current_task s) = Some t /\ to_remove (current_task s) = false).

Lemma select_known (s : round_robin) (cur : option tcb) (t : tcb) :
  (fst (select_next_task s cur) = Some t -> known s t) /\
  (known (snd (select_next_task s cur)) t -> known s t).
Proof.
  unfold select_next_task, known.
  destruct s as [q [tk rm]]. cbn [runqueue current_task task to_remove].
  destruct q as [|x q]; cbn [empty].
  - destruct rm; cbn.
    + split; [discriminate|]. intros [[]|[H _]]. discriminate.
    + split; [intros ->; right; auto|tauto].
  - destruct tk as [c|]; [destruct rm|]; cbn.
    + split; [intros [= <-]; auto|].
      intros [H|[[= <-] _]]; auto.
    + split; [intros [= <-]; auto|].
      rewrite in_app_iff. cbn.
      intros [[H|[<-|[]]]|[[= <-] _]]; auto.
    + split; [intros [= <-]; auto|].
      intros [H|[[= <-] _]]; auto.
Qed.

Lemma selects_known (n : nat) :
  forall (s : round_robin) (cur : option tcb) (t : tcb),
    In (Some t) (selects n s cur) -> known s t.
Proof.
  induction n as [|n IH]; intros s cur t; [intros []|].
  cbn [selects].
  pose proof (select_known s cur t) as (Hfst & Hsnd).
  destruct (select_next_task s cur) as [next s']. cbn [fst snd] in *.
  intros [->|H]; [auto|].
  apply Hsnd. exact (IH s' next t H).
Qed.

(** X1.  With tasks [q] waiting behind the running task [c] and no removal
    pending, the next [length q + 1] scheduling points return the tasks of
    [q] in order and then [c], each task once, and the scheduler is then
    exactly as it was: the schedule is periodic. *)
Theorem round_robin_cycle (q : list tcb) (c : tcb) (cur : option tcb) :
  selects (S (List.length q)) (running q c) cur = map Some (q ++ [c]) /\
  after_selects (S (List.length q)) (running q c) cur = running q c.
Proof.
  replace (S (List.length q)) with (List.length q + 1)%nat by apply Nat.add_1_r.
  rewrite selects_add, after_selects_add.
  destruct (selects_through q [] c cur) as (Hs & Ha).
  rewrite app_nil_r in Hs, Ha. rewrite Hs, Ha. cbn [app].
  rewrite map_app.
  destruct q as [|x q].
  - split; reflexivity.
  - rewrite removelast_cons2. cbn [selects after_selects app].
    rewrite select_running. cbn [map].
    rewrite <- app_removelast_last by discriminate.
    split; reflexivity.
Qed.

(** X2.  With an empty run queue, every scheduling point returns the current
    task; when its removal is pending, every scheduling point returns
    [nullptr] instead: the processor idles. *)
Theorem empty_runqueue_keeps_current_task
    (c : current_slot) (cur : option tcb) (n : nat) :
  selects n {| runqueue := []; current_task := c |} cur
  = repeat (if to_remove c then None else task c) n.
Proof.
  revert c cur. induction n as [|n IH]; intros c cur; [reflexivity|].
  cbn [selects repeat]. unfold select_next_task. cbn [runqueue empty current_task].
  destruct c as [tk rm]. destruct rm; cbn [to_remove task].
  - f_equal. apply (IH {| task := None; to_remove := false |}).
  - f_equal. apply (IH {| task := tk; to_remove := false |}).
Qed.

(** X3.  When the running task is removed and is not waiting in the run queue as
    well, no later scheduling point returns it, however many there are. *)
Theorem removed_current_task_never_selected
    (list_remove : list tcb -> tcb -> list tcb)
    (s : round_robin) (t : tcb) (cur : option tcb) (n : nat)
    (Hcurrent : task (current_task s) = Some t)
    (Hqueue : ~ In t (runqueue s)) :
  ~ In (Some t) (selects n (remove_from_runqueue list_remove s t) cur).
Proof.
  intros H. apply selects_known in H.
  unfold remove_from_runqueue in H. rewrite Hcurrent in H.
  cbn [ptr_eqb] in H. rewrite Z.eqb_refl in H.
  destruct H as [H|[_ H]]; [exact (Hqueue H)|discriminate H].
Qed.

Lemma removed_current_task_never_selected_witness :
  ~ In (Some 7)
      (selects 5
         (remove_from_runqueue (fun q _ => q)
            {| runqueue := [2; 3; 4];
               current_task := {| task := Some 7; to_remove := false |} |} 7)
         None).
Proof.
  assert (Hq : ~ In 7 [2; 3; 4]) by (cbn; lia).
  exact (removed_current_task_never_selected (fun q _ => q)
           {| runqueue := [2; 3; 4];
              current_task := {| task := Some 7; to_remove := false |} |}
           7 None 5 eq_refl Hq).
Defined.

End RoundRobin.

(* ===================================================================== *)
(** * The [ls] utility ([user/ls/src/main.cpp]) *)
(* ===================================================================== *)

Module Ls.

Local Open Scope string_scope.
Local Open Scope list_scope.
Local Open Scope Z_scope.

Local Infix "+++" := String.append (right associativity, at level 60).

(** [stacsos/dirent.h] *)
Inductive file_type := file | directory.

Record dirent := {
  name : string;
  name_length : Z;
  type : file_type;
  size : N
}.

Definition dirents_in_buffer : Z := 10.

Definition nl : string := String (ascii_of_nat 10) EmptyString.

(** What [main] leaves behind: the text written to the console and the
    exit code, or a fault when the null [directory] pointer is used. *)
Inductive outcome :=
| Exited (code : Z) (console : string)
| Faulted (console : string).

Definition longest_name (files : list dirent) : nat :=
  fold_left (fun max f =>
               let length := String.length (name f) in
               if (max <? length)%nat then length else max)
            files 0%nat.

(** [entry.name[0] == '.'] *)
Definition hidden (entry : dirent) : bool :=
  match name entry with
  | String c _ => Ascii.eqb c "."
  | EmptyString => false
  end.

(** The body of the [for] loop over the buffer: hidden entries are
    skipped, the others are appended to [files] or to [directories]. *)
Definition sort_entry (acc : list dirent * list dirent) (entry : dirent)
  : list dirent * list dirent :=
  let '(directories, files) := acc in
  if negb (hidden entry) then
    match type entry with
    | file => (directories, files ++ [entry])
    | _ => (directories ++ [entry], files)
    end
  else acc.

(** The [while] loop around [readdir].  The kernel side of [readdir] is not
    among the sources, so an open directory is represented by what its
    successive [readdir] calls put in the buffer; once these are used up
    [readdir] returns 0.  The loop goes on as long as a call filled the
    whole buffer. *)
Fixpoint read_entries (dir : list (list dirent))
    (acc : list dirent * list dirent) : list dirent * list dirent :=
  match dir with
  | [] => acc
  | buffer :: rest =>
      let acc' := fold_left sort_entry buffer acc in
      if Z.of_nat (List.length buffer) =? dirents_in_buffer
      then read_entries rest acc'
      else acc'
  end.

(** The entries that the loop above gets to see. *)
Fixpoint entries_read (dir : list (list dirent)) : list dirent :=
  match dir with
  | [] => []
  | buffer :: rest =>
      if Z.of_nat (List.length buffer) =? dirents_in_buffer
      then buffer ++ entries_read rest
      else buffer
  end.

Fixpoint spaces (n : nat) : string :=
  match n with
  | O => ""
  | S n' => " " +++ spaces n'
  end.

(** [%llu] *)
Definition print_u64 (n : N) : string := NilZero.string_of_uint (N.to_uint n).

(** One line of the listing, as the [writef] calls build it. *)
Definition print_entry (formatting_mode : bool) (longest : nat) (e : dirent)
  : string :=
  if formatting_mode then
    match type e with
    | file =>
        "(F) " +++ name e +++ "  "
        +++ spaces (longest - String.length (name e))
        +++ print_u64 (size e) +++ nl
    | directory => "(D) " +++ name e +++ nl
    end
  else name e +++ nl.

Definition print_all (formatting_mode : bool) (longest : nat)
    (l : list dirent) : string :=
  String.concat "" (map (print_entry formatting_mode longest) l).

(** The two printing loops: first [directories], then [files]. *)
Definition print_listing (formatting_mode : bool)
    (directories files : list dirent) : string :=
  print_all formatting_mode 0 directories
  +++ print_all formatting_mode (longest_name files) files.

(** The flag loop at the start of [main]; [None] is the usage error. *)
Fixpoint parse_flags (cmdline : string) (formatting_mode : bool)
  : option (bool * string) :=
  match cmdline with
  | String c rest =>
      if Ascii.eqb c "-" then
        match rest with
        | String c' rest' =>
            if Ascii.eqb c' "f" then parse_flags rest' true else None
        | EmptyString => None
        end
      else Some (formatting_mode, cmdline)
  | EmptyString => Some (formatting_mode, cmdline)
  end.

Fixpoint skip_spaces (cmdline : string) : string :=
  match cmdline with
  | String c rest => if Ascii.eqb c " " then skip_spaces rest else cmdline
  | EmptyString => cmdline
  end.

Definition main (opendir : string -> option (list (list dirent)))
    (cmdline : option string) : outcome :=
  match cmdline with
  | None => Exited 1 ("error: usage: ls [-f] <filename>" +++ nl)
  | Some c =>
      if (String.length c =? 0)%nat
      then Exited 1 ("error: usage: ls [-f] <filename>" +++ nl)
      else
        match parse_flags c false with
        | None => Exited 1 ("error: usage: cat [-f] <filename>" +++ nl)
        | Some (formatting_mode, rest) =>
            let path := skip_spaces rest in
            match opendir path with
            | None =>
                Faulted ("error: unable to open file " +++ path
                         +++ " for listing" +++ nl)
            | Some dir =>
                let '(directories, files) := read_entries dir ([], []) in
                Exited 0 (print_listing formatting_mode directories files)
            end
        end
  end.

Definition visible_of (t : file_type) (e : dirent) : bool :=
  negb (hidden e) &&
  match t, type e with
  | file, file => true
  | directory, directory => true
  | _, _ => false
  end.

Lemma sort_entry_step (e : dirent) (ds fs : list dirent) :
  sort_entry (ds, fs) e
  = (ds ++ (if visible_of directory e then [e] else []),
     fs ++ (if visible_of file e then [e] else [])).
Proof.
  unfold sort_entry, visible_of.
  destruct (hidden e), (type e); cbn; now rewrite ?app_nil_r.
Qed.

Lemma sort_entry_fold (buffer : list dirent) (ds fs : list dirent) :
  fold_left sort_entry buffer (ds, fs)
  = (ds ++ filter (visible_of directory) buffer,
     fs ++ filter (visible_of file) buffer).
Proof.
  revert ds fs.
  induction buffer as [|e buffer IH]; intros ds fs; cbn [fold_left filter].
  - now rewrite !app_nil_r.
  - rewrite sort_entry_step, IH.
    destruct (visible_of directory e), (visible_of file e);
      now rewrite <- ?app_assoc, ?app_nil_r.
Qed.

Lemma read_entries_filter (dir : list (list dirent)) (ds fs : list dirent) :
  read_entries dir (ds, fs)
  = (ds ++ filter (visible_of directory) (entries_read dir),
     fs ++ filter (visible_of file) (entries_read dir)).
Proof.
  revert ds fs.
  induction dir as [|buffer rest IH]; intros ds fs; cbn.
  - now rewrite !app_nil_r.
  - rewrite sort_entry_fold.
    destruct (Z.of_nat (List.length buffer) =? dirents_in_buffer).
    + rewrite IH, !filter_app, <- !app_assoc. reflexivity.
    + reflexivity.
Qed.

Lemma visible_of_hidden (t : file_type) (e : dirent) :
  visible_of t e = true -> hidden e = false /\ type e = t.
Proof.
  unfold visible_of. destruct (hidden e), t, (type e); cbn; intuition congruence.
Qed.

(** The loop reads the buffers of the directory up to the first one that
    is not full, and no further. *)
Lemma read_entries_buffers (dir : list (list dirent))
    (acc : list dirent * list dirent) :
  exists read unread : list (list dirent),
    dir = read ++ unread /\
    Forall (fun buffer => Z.of_nat (List.length buffer) = dirents_in_buffer)
           (removelast read) /\
    (unread = [] \/
     read <> [] /\
     Z.of_nat (List.length (last read [])) <> dirents_in_buffer) /\
    read_entries dir acc = fold_left sort_entry (List.concat read) acc.
Proof.
  revert acc.
  induction dir as [|buffer rest IH]; intros acc.
  - exists [], []. cbn. auto.
  - cbn [read_entries].
    destruct (Z.eqb_spec (Z.of_nat (List.length buffer)) dirents_in_buffer)
      as [Hfull|Hshort].
    + destruct (IH (fold_left sort_entry buffer acc))
        as (read & unread & Hd & Hall & Hlast & Hre).
      exists (buffer :: read), unread.
      split; [cbn; now rewrite Hd|]. split; [|split].
      * destruct read as [|b read]; [constructor|].
        change (removelast (buffer :: b :: read))
          with (buffer :: removelast (b :: read)).
        constructor; assumption.
      * destruct Hlast as [->|(Hne & Hlast)]; [now left|right].
        split; [discriminate|].
        destruct read as [|b read]; [contradiction|exact Hlast].
      * rewrite Hre. cbn [List.concat]. now rewrite fold_left_app.
    + exists [buffer], rest.
      split; [reflexivity|]. split; [constructor|]. split.
      * right. split; [discriminate|exact Hshort].
      * cbn [List.concat]. now rewrite app_nil_r.
Qed.

Lemma visible_of_directory :
  visible_of directory
  = fun e => negb (hidden e)
             && match type e with directory => true | file => false end.
Proof. reflexivity. Qed.

Lemma visible_of_file :
  visible_of file
  = fun e => negb (hidden e)
             && match type e with file => true | directory => false end.
Proof. reflexivity. Qed.

(** C10. When [ls] produces a listing, it is the listing of the directory
    that [opendir] returned for the path of the command line, in the mode
    that the flags of the command line select.  [readdir] fills one buffer
    after the other; the buffers [read] are those up to the first one that
    is not full.  The console text is one line for every entry of these
    buffers that has type directory and a name that does not start with
    ['.'], in the order in which they were read, and after these lines one
    line for every entry that has type file and a name that does not start
    with ['.'].  So no entry with a name that starts with ['.'] is listed,
    in the plain as in the [-f] mode, and the listed directories all come
    before the listed files. *)
Theorem ls_hides_dot_entries_and_puts_directories_first
    (opendir : string -> option (list (list dirent)))
    (cmdline : option string) (console : string)
    (Hrun : main opendir cmdline = Exited 0 console) :
  exists (c : string) (formatting_mode : bool) (rest : string)
         (dir read unread : list (list dirent)),
    cmdline = Some c /\
    parse_flags c false = Some (formatting_mode, rest) /\
    opendir (skip_spaces rest) = Some dir /\
    dir = read ++ unread /\
    Forall (fun buffer => Z.of_nat (List.length buffer) = dirents_in_buffer)
           (removelast read) /\
    (unread = [] \/
     read <> [] /\
     Z.of_nat (List.length (last read [])) <> dirents_in_buffer) /\
    let directories :=
      filter (fun e => negb (hidden e)
                       && match type e with directory => true | file => false end)
             (List.concat read) in
    let files :=
      filter (fun e => negb (hidden e)
                       && match type e with file => true | directory => false end)
             (List.concat read) in
    read_entries dir ([], []) = (directories, files) /\
    console = print_all formatting_mode 0 directories
              +++ print_all formatting_mode (longest_name files) files /\
    (forall e, In e (directories ++ files) <->
               In e (List.concat read) /\ hidden e = false) /\
    (forall e, In e directories -> type e = directory) /\
    (forall e, In e files -> type e = file).
Proof.
  unfold main in Hrun.
  destruct cmdline as [c|]; [|discriminate].
  destruct (String.length c =? 0)%nat; [discriminate|].
  destruct (parse_flags c false) as [[fm rest]|] eqn:Hflags; [|discriminate].
  destruct (opendir (skip_spaces rest)) as [dir|] eqn:Hopen; [|discriminate].
  destruct (read_entries_buffers dir ([], []))
    as (read & unread & Hd & Hfull & Hlast & Hre).
  rewrite sort_entry_fold in Hre. cbn [app] in Hre.
  rewrite Hre in Hrun. injection Hrun as <-.
  exists c, fm, rest, dir, read, unread.
  split; [reflexivity|]. split; [exact Hflags|]. split; [exact Hopen|].
  split; [exact Hd|]. split; [exact Hfull|]. split; [exact Hlast|].
  cbv zeta. rewrite <- visible_of_directory, <- visible_of_file.
  split; [exact Hre|]. split; [reflexivity|]. split; [|split].
  - intros e. rewrite in_app_iff, !filter_In. split.
    + intros [[Hin Hv]|[Hin Hv]]; apply visible_of_hidden in Hv; tauto.
    + intros [Hin Hh]. unfold visible_of. rewrite Hh. cbn.
      destruct (type e); tauto.
  - intros e He. apply filter_In in He. destruct He as [_ He].
    now apply visible_of_hidden in He.
  - intros e He. apply filter_In in He. destruct He as [_ He].
    now apply visible_of_hidden in He.
Qed.

Definition sample_dir : list (list dirent) :=
  [[ {| name := ".git"; name_length := 100; type := directory; size := 0 |};
     {| name := "a.txt"; name_length := 100; type := file; size := 12 |};
     {| name := "bin"; name_length := 100; type := directory; size := 0 |};
     {| name := ".profile"; name_length := 100; type := file; size := 3 |} ]].

Lemma ls_hides_dot_entries_and_puts_directories_first_witness :
  main (fun _ => Some sample_dir) (Some "-f /")
  = Exited 0 ("(D) bin" +++ nl +++ "(F) a.txt  12" +++ nl) /\
  exists (c : string) (formatting_mode : bool) (rest : string)
         (dir read unread : list (list dirent)),
    Some "-f /" = Some c /\
    parse_flags c false = Some (formatting_mode, rest) /\
    Some sample_dir = Some dir /\
    dir = read ++ unread /\
    "(D) bin" +++ nl +++ "(F) a.txt  12" +++ nl
    = print_all formatting_mode 0
        (filter (fun e => negb (hidden e)
                          && match type e with
                             | directory => true
                             | file => false
                             end)
                (List.concat read))
      +++ print_all formatting_mode
            (longest_name
               (filter (fun e => negb (hidden e)
                                 && match type e with
                                    | file => true
                                    | directory => false
                                    end)
                       (List.concat read)))
            (filter (fun e => negb (hidden e)
                              && match type e with
                                 | file => true
                                 | directory => false
                                 end)
                    (List.concat read)).
Proof.
  split; [reflexivity|].
  destruct (ls_hides_dot_entries_and_puts_directories_first
              (fun _ => Some sample_dir) (Some "-f /") _ eq_refl)
    as (c & fm & rest & dir & read & unread & H1 & H2 & H3 & H4 & _ & _ & H7).
  cbv zeta in H7. destruct H7 as (_ & H8 & _).
  exists c, fm, rest, dir, read, unread. auto.
Defined.
(** ** More on [ls] *)

Lemma length_append (a b : string) :
  String.length (a +++ b) = (String.length a + String.length b)%nat.
Proof. induction a as [|c a IH]; cbn; [reflexivity|now rewrite IH]. Qed.

Lemma append_assoc (a b c : string) : (a +++ b) +++ c = a +++ b +++ c.
Proof. induction a as [|x a IH]; cbn; [reflexivity|now rewrite IH]. Qed.

Lemma length_spaces (n : nat) : String.length (spaces n) = n.
Proof. induction n as [|n IH]; cbn; [reflexivity|now rewrite IH]. Qed.

Lemma longest_name_fold (files : list dirent) :
  forall acc : nat,
    let r := fold_left (fun max f =>
                          let length := String.length (name f) in
                          if (max <? length)%nat then length else max)
                       files acc in
    (acc <= r)%nat /\
    (forall f, In f files -> (String.length (name f) <= r)%nat) /\
    (r = acc \/ exists f, In f files /\ String.length (name f) = r).
Proof.
  induction files as [|f files IH]; intros acc; cbn [fold_left].
  - cbn. split; [lia|]. split; [intros f []|now left].
  - cbv zeta.
    specialize (IH (if (acc <? String.length (name f))%nat
                    then String.length (name f) else acc)).
    cbv zeta in IH. destruct IH as (Hge & Hall & Hhit).
    destruct (Nat.ltb_spec acc (String.length (name f))) as [Hlt|Hle].
    + split; [lia|]. split.
      * intros g [<-|Hg]; [exact Hge|exact (Hall g Hg)].
      * right. destruct Hhit as [->|(g & Hg & Hr)].
        -- exists f. split; [now left|reflexivity].
        -- exists g. split; [now right|exact Hr].
    + split; [exact Hge|]. split.
      * intros g [<-|Hg]; [lia|exact (Hall g Hg)].
      * destruct Hhit as [->|(g & Hg & Hr)]; [now left|].
        right. exists g. split; [now right|exact Hr].
Qed.

Lemma name_fits_longest (files : list dirent) (f : dirent) :
  In f files -> (String.length (name f) <= longest_name files)%nat.
Proof.
  intros Hf. exact (proj1 (proj2 (longest_name_fold files 0%nat)) f Hf).
Qed.

(** X4.  [longest_name] is the length of a longest name of the list: no name is
    longer, and unless the list is empty some name has this length. *)
Theorem longest_name_is_maximum (files : list dirent) :
  (forall f, In f files ->
             (String.length (name f) <= longest_name files)%nat) /\
  (files <> [] ->
   exists f, In f files /\ String.length (name f) = longest_name files) /\
  longest_name [] = 0%nat.
Proof.
  split; [intros f; apply name_fits_longest|]. split; [|reflexivity].
  intros Hne.
  destruct (longest_name_fold files 0%nat) as (_ & Hall & [H0|Hhit]);
    [|exact Hhit].
  destruct files as [|f files]; [contradiction|].
  exists f. split; [now left|].
  specialize (Hall f (or_introl eq_refl)).
  rewrite H0 in Hall.
  transitivity 0%nat; [lia|symmetry; exact H0].
Qed.

(** X5.  In the [-f] listing the size of every file starts in the same column:
    it comes after the [(F) ] tag, the name, two spaces and the padding,
    which together are [longest_name files + 6] characters long.  The
    [longest - length] of the padding loop does not wrap around. *)
Theorem file_sizes_start_in_one_column (files : list dirent) (f : dirent)
    (Hf : In f files) (Htype : type f = file) :
  (String.length (name f) <= longest_name files)%nat /\
  exists pre,
    print_entry true (longest_name files) f
    = pre +++ print_u64 (size f) +++ nl /\
    String.length pre = (longest_name files + 6)%nat.
Proof.
  pose proof (name_fits_longest files f Hf) as Hle.
  split; [exact Hle|].
  exists ("(F) " +++ name f +++ "  "
          +++ spaces (longest_name files - String.length (name f))).
  split.
  - unfold print_entry. rewrite Htype.
    rewrite !append_assoc. reflexivity.
  - rewrite !length_append, length_spaces. cbn [String.length]. lia.
Qed.

Lemma file_sizes_start_in_one_column_witness :
  exists pre,
    print_entry true
      (longest_name
         [ {| name := "a.txt"; name_length := 100; type := file; size := 12 |};
           {| name := "kernel"; name_length := 100; type := file; size := 7 |} ])
      {| name := "a.txt"; name_length := 100; type := file; size := 12 |}
    = pre +++ print_u64 12 +++ nl /\
    String.length pre = (longest_name
         [ {| name := "a.txt"; name_length := 100; type := file; size := 12 |};
           {| name := "kernel"; name_length := 100; type := file; size := 7 |} ]
                         + 6)%nat.
Proof.
  exact (proj2 (file_sizes_start_in_one_column
           [ {| name := "a.txt"; name_length := 100; type := file; size := 12 |};
             {| name := "kernel"; name_length := 100; type := file; size := 7 |} ]
           {| name := "a.txt"; name_length := 100; type := file; size := 12 |}
           (or_introl eq_refl) eq_refl)).
Defined.

(** [k] times the flag [-f]. *)
Fixpoint flags (k : nat) : string :=
  match k with
  | O => ""
  | S k' => "-f" +++ flags k'
  end.

(** The first character is not [c] (or there is none). *)
Definition not_first (c : ascii) (s : string) : Prop :=
  match s with
  | String x _ => x <> c
  | EmptyString => True
  end.

Lemma parse_flags_flags (k : nat) (rest : string) :
  forall fm : bool,
    parse_flags (flags k +++ rest) fm
    = parse_flags rest (match k with O => fm | S _ => true end).
Proof.
  induction k as [|k IH]; intros fm; [reflexivity|].
  cbn [flags]. rewrite append_assoc. cbn. rewrite IH.
  destruct k; reflexivity.
Qed.

Lemma parse_flags_path (rest : string) (fm : bool) :
  not_first "-" rest -> parse_flags rest fm = Some (fm, rest).
Proof.
  destruct rest as [|c rest]; [reflexivity|]. cbn. intros Hc.
  destruct (Ascii.eqb_spec c "-"); [contradiction|reflexivity].
Qed.

Lemma skip_spaces_spaces (n : nat) (path : string) :
  not_first " " path -> skip_spaces (spaces n +++ path) = path.
Proof.
  intros Hp. induction n as [|n IH]; cbn.
  - destruct path as [|c path]; [reflexivity|]. cbn in *.
    destruct (Ascii.eqb_spec c " "); [contradiction|reflexivity].
  - exact IH.
Qed.

Lemma not_first_spaces (n : nat) (path : string) :
  (n = 0%nat -> not_first "-" path) -> not_first "-" (spaces n +++ path).
Proof.
  destruct n as [|n]; cbn; [auto|]. intros _. discriminate.
Qed.

(** X6.  What [main] does with a well-formed command line: [k] flags [-f], then
    [n] spaces, then a path that does not start with a space (nor, when no
    space comes before it, with a dash).  The path is handed to [opendir]
    as it is; the listing has sizes exactly when there was a flag.  When
    [opendir] fails, [main] writes its message but does not return: it
    goes on to call [readdir] through the null pointer. *)
Theorem main_opens_the_path
    (opendir : string -> option (list (list dirent)))
    (k n : nat) (path : string)
    (Hspace : not_first " " path)
    (Hdash : n = 0%nat -> not_first "-" path)
    (Hlen : flags k +++ spaces n +++ path <> "") :
  main opendir (Some (flags k +++ spaces n +++ path))
  = match opendir path with
    | None =>
        Faulted ("error: unable to open file " +++ path
                 +++ " for listing" +++ nl)
    | Some dir =>
        Exited 0
          (print_listing (match k with O => false | S _ => true end)
             (filter (visible_of directory) (entries_read dir))
             (filter (visible_of file) (entries_read dir)))
    end.
Proof.
  unfold main.
  destruct (flags k +++ spaces n +++ path) as [|c0 s0] eqn:E;
    [contradiction|].
  cbn [String.length Nat.eqb]. rewrite <- E.
  rewrite parse_flags_flags.
  rewrite (parse_flags_path _ _ (not_first_spaces n path Hdash)).
  rewrite (skip_spaces_spaces n path Hspace).
  destruct (opendir path) as [dir|]; [|reflexivity].
  rewrite read_entries_filter. reflexivity.
Qed.

Lemma main_opens_the_path_witness :
  main (fun _ => None) (Some (flags 1 +++ spaces 2 +++ "/usr"))
  = Faulted ("error: unable to open file /usr for listing" +++ nl).
Proof.
  assert (Hspace : not_first " " "/usr") by discriminate.
  assert (Hdash : 2%nat = 0%nat -> not_first "-" "/usr") by discriminate.
  assert (Hlen : flags 1 +++ spaces 2 +++ "/usr" <> "") by discriminate.
  exact (main_opens_the_path (fun _ => None) 1 2 "/usr" Hspace Hdash Hlen).
Defined.

(** X7.  Usage errors.  Without a command line, or with an empty one, [main]
    writes the usage line of [ls] and exits with 1.  A dash that is not
    followed by [f], after any number of [-f] flags, makes it exit with 1
    as well, with the usage line of [cat]; [opendir] is not consulted. *)
Theorem main_usage_errors
    (opendir : string -> option (list (list dirent)))
    (k : nat) (tail : string) (Htail : not_first "f" tail) :
  main opendir None = Exited 1 ("error: usage: ls [-f] <filename>" +++ nl) /\
  main opendir (Some "")
  = Exited 1 ("error: usage: ls [-f] <filename>" +++ nl) /\
  main opendir (Some (flags k +++ "-" +++ tail))
  = Exited 1 ("error: usage: cat [-f] <filename>" +++ nl).
Proof.
  split; [reflexivity|]. split; [reflexivity|].
  unfold main.
  destruct (flags k +++ "-" +++ tail) as [|c0 s0] eqn:E.
  - destruct k; discriminate E.
  - cbn [String.length Nat.eqb]. rewrite <- E.
    rewrite parse_flags_flags. cbn.
    destruct tail as [|c tail]; [reflexivity|]. cbn in Htail.
    destruct (Ascii.eqb_spec c "f"); [contradiction|reflexivity].
Qed.

Lemma main_usage_errors_witness :
  main (fun _ => Some []) (Some (flags 1 +++ "-" +++ "x /"))
  = Exited 1 ("error: usage: cat [-f] <filename>" +++ nl).
Proof.
  assert (Htail : not_first "f" "x /") by discriminate.
  exact (proj2 (proj2 (main_usage_errors (fun _ => Some []) 1 "x /" Htail))).
Defined.

(** X8.  The [while] loop of [main] around [readdir], from any contents
    of [directories] and [files]: it handles the entries of the buffers up
    to the first one that is not full, one after the other, and none of the
    later buffers.  So it handles every entry of the directory when
    [readdir] fills every buffer but the last, and only the entries of the
    first buffer when that one is not full. *)
Theorem read_loop_stops_at_short_buffer
    (dir : list (list dirent)) (acc : list dirent * list dirent) :
  (exists read unread : list (list dirent),
     dir = read ++ unread /\
     Forall (fun buffer => Z.of_nat (List.length buffer) = dirents_in_buffer)
            (removelast read) /\
     (unread = [] \/
      read <> [] /\
      Z.of_nat (List.length (last read [])) <> dirents_in_buffer) /\
     read_entries dir acc = fold_left sort_entry (List.concat read) acc) /\
  (Forall (fun buffer => Z.of_nat (List.length buffer) = dirents_in_buffer)
          (removelast dir) ->
   read_entries dir acc = fold_left sort_entry (List.concat dir) acc) /\
  (forall buffer dir',
     Z.of_nat (List.length buffer) <> dirents_in_buffer ->
     read_entries (buffer :: dir') acc = fold_left sort_entry buffer acc).
Proof.
  split; [exact (read_entries_buffers dir acc)|]. split.
  - revert acc.
    induction dir as [|buffer rest IH]; intros acc Hfull; [reflexivity|].
    cbn [read_entries List.concat]. rewrite fold_left_app.
    destruct rest as [|b2 rest].
    + cbn. destruct (_ =? _); reflexivity.
    + change (removelast (buffer :: b2 :: rest))
        with (buffer :: removelast (b2 :: rest)) in Hfull.
      inversion Hfull as [|? ? Hb Hrest]; subst.
      rewrite Hb, Z.eqb_refl. exact (IH _ Hrest).
  - intros buffer dir' Hne. cbn [read_entries].
    destruct (Z.eqb_spec (Z.of_nat (List.length buffer)) dirents_in_buffer);
      [contradiction|reflexivity].
Qed.

End Ls.

(* ===================================================================== *)
(** * Files of the virtual file system ([kernel/fs/file.h]) *)
(* ===================================================================== *)

Module File.

(** [u64] and [size_t] are 64 bits wide; their arithmetic wraps around. *)
Definition u64 (x : Z) : Z := x mod 2 ^ 64.

(** [class file]: the size given to the constructor and the offset that
    [read] and [write] advance. *)
Record file := {
  size_ : Z;
  cur_offset_ : Z
}.

Definition new_file (size : Z) : file := {| size_ := size; cur_offset_ := 0 |}.

(** [fs-node.h] is not among the sources; [fs_node_kind] is the
    enumeration that [fs_node_kind_to_file_type] switches over. *)
Inductive fs_node_kind := kind_file | kind_directory.

Definition fs_node_kind_to_file_type (kind : fs_node_kind) : Ls.file_type :=
  match kind with
  | kind_file => Ls.file
  | kind_directory => Ls.directory
  end.

Section Driver.

(** [pread] and [pwrite] are pure virtual: the file system driver supplies
    them.  A driver is a state [D] and two functions that, given an offset
    and a length, return the number of bytes moved and the next state.
    The buffer is handed through untouched and is left out. *)
Variable D : Type.
Variable pread : D -> Z -> Z -> Z * D.
Variable pwrite : D -> Z -> Z -> Z * D.

Definition read (f : file) (d : D) (length : Z) : Z * file * D :=
  let read_length := length in
  let read_length :=
    if u64 (cur_offset_ f + read_length) >? size_ f
    then u64 (size_ f - cur_offset_ f)
    else read_length in
  let '(result, d') := pread d (cur_offset_ f) read_length in
  (result,
   {| size_ := size_ f; cur_offset_ := u64 (cur_offset_ f + result) |},
   d').

Definition write (f : file) (d : D) (length : Z) : Z * file * D :=
  let write_length := length in
  let write_length :=
    if u64 (cur_offset_ f + write_length) >? size_ f
    then u64 (size_ f - cur_offset_ f)
    else write_length in
  let '(result, d') := pwrite d (cur_offset_ f) write_length in
  (result,
   {| size_ := size_ f; cur_offset_ := u64 (cur_offset_ f + result) |},
   d').

(** Successive calls of [read], one for each requested length; the
    results are the byte counts returned. *)
Fixpoint reads (f : file) (d : D) (lengths : list Z) : list Z * file * D :=
  match lengths with
  | [] => ([], f, d)
  | length :: rest =>
      let '(result, f', d') := read f d length in
      let '(results, f'', d'') := reads f' d' rest in
      (result :: results, f'', d'')
  end.

(** The offset lies within the file. *)
Definition within (f : file) : Prop :=
  0 <= cur_offset_ f <= size_ f /\ size_ f < 2 ^ 64.

(** A driver that moves no more bytes than it is asked to. *)
Definition honest (op : D -> Z -> Z -> Z * D) : Prop :=
  forall d offset length,
    0 <= length -> 0 <= fst (op d offset length) <= length.

Definition sum (l : list Z) : Z := fold_right Z.add 0 l.

Lemma read_request (f : file) (d : D) (length : Z) :
  within f -> 0 <= length -> cur_offset_ f + length < 2 ^ 64 ->
  read f d length
  = (let '(result, d') :=
       pread d (cur_offset_ f) (Z.min length (size_ f - cur_offset_ f)) in
     (result,
      {| size_ := size_ f; cur_offset_ := u64 (cur_offset_ f + result) |},
      d')).
Proof.
  intros ((H0 & H1) & H2) Hl Hsum. unfold read, u64.
  rewrite (Z.mod_small (cur_offset_ f + length)) by lia.
  rewrite (Z.mod_small (size_ f - cur_offset_ f)) by lia.
  destruct (Z.gtb_spec (cur_offset_ f + length) (size_ f)).
  - now rewrite Z.min_r by lia.
  - now rewrite Z.min_l by lia.
Qed.

Lemma read_step (f f' : file) (d d' : D) (length result : Z) :
  honest pread -> within f -> 0 <= length ->
  cur_offset_ f + length < 2 ^ 64 ->
  read f d length = (result, f', d') ->
  within f' /\ size_ f' = size_ f /\
  cur_offset_ f' = cur_offset_ f + result /\
  0 <= result <= length /\ result <= size_ f - cur_offset_ f.
Proof.
  intros Hh Hw Hl Hsum Hr.
  rewrite (read_request f d length Hw Hl Hsum) in Hr.
  destruct Hw as ((H0 & H1) & H2).
  assert (Hreq : 0 <= Z.min length (size_ f - cur_offset_ f)) by lia.
  pose proof (Hh d (cur_offset_ f) _ Hreq) as Hres.
  destruct (pread d (cur_offset_ f) _) as [r d1]. cbn [fst] in Hres.
  injection Hr as <- <- <-. cbn [size_ cur_offset_].
  unfold within, u64. cbn [size_ cur_offset_].
  rewrite Z.mod_small by lia. lia.
Qed.

(** X9.  The request that [read] and [write] pass on.  When the offset lies
    within the file and [offset + length] fits 64 bits, the driver is asked
    for [min (length, size - offset)] bytes at the current offset: never
    for a byte behind the end of the file. *)
Theorem read_write_stay_within_file
    (f : file) (d : D) (length : Z)
    (Hwithin : within f) (Hlength : 0 <= length)
    (Hfits : cur_offset_ f + length < 2 ^ 64) :
  let request := Z.min length (size_ f - cur_offset_ f) in
  cur_offset_ f + request <= size_ f /\
  read f d length
  = (let '(result, d') := pread d (cur_offset_ f) request in
     (result,
      {| size_ := size_ f; cur_offset_ := u64 (cur_offset_ f + result) |},
      d')) /\
  write f d length
  = (let '(result, d') := pwrite d (cur_offset_ f) request in
     (result,
      {| size_ := size_ f; cur_offset_ := u64 (cur_offset_ f + result) |},
      d')).
Proof.
  intros request. split; [unfold request; lia|].
  split; [exact (read_request f d length Hwithin Hlength Hfits)|].
  destruct Hwithin as ((H0 & H1) & H2). unfold write, u64. fold request.
  rewrite (Z.mod_small (cur_offset_ f + length)) by lia.
  rewrite (Z.mod_small (size_ f - cur_offset_ f)) by lia.
  unfold request.
  destruct (Z.gtb_spec (cur_offset_ f + length) (size_ f)).
  - now rewrite Z.min_r by lia.
  - now rewrite Z.min_l by lia.
Qed.

(** X10.  When [offset + length] does not fit 64 bits the sum wraps around, the
    comparison with the size can come out false, and the length is then
    passed on as it is, although fewer bytes than that are left. *)
Theorem read_unclamped_on_wrap_around
    (f : file) (d : D) (length : Z)
    (Hwithin : within f) (Hlength : 0 <= length < 2 ^ 64)
    (Hwrap : 2 ^ 64 <= cur_offset_ f + length)
    (Hsmall : cur_offset_ f + length - 2 ^ 64 <= size_ f) :
  size_ f - cur_offset_ f < length /\
  read f d length
  = (let '(result, d') := pread d (cur_offset_ f) length in
     (result,
      {| size_ := size_ f; cur_offset_ := u64 (cur_offset_ f + result) |},
      d')).
Proof.
  destruct Hwithin as ((H0 & H1) & H2). split; [lia|].
  unfold read, u64.
  replace ((cur_offset_ f + length) mod 2 ^ 64)
    with (cur_offset_ f + length - 2 ^ 64).
  - destruct (Z.gtb_spec (cur_offset_ f + length - 2 ^ 64) (size_ f));
      [lia|reflexivity].
  - apply Z.mod_unique with (q := 1); lia.
Qed.

(** X11.  With a driver that reads no more than it is asked to, any sequence of
    [read] calls keeps the offset within the file, moves it forward by
    exactly the bytes returned, and so returns in total no more bytes than
    there were between the starting offset and the end of the file. *)
Theorem reads_never_pass_the_end (lengths : list Z) :
  forall (f f' : file) (d d' : D) (results : list Z)
         (Hhonest : honest pread) (Hwithin : within f)
         (Hlengths : Forall (fun length => 0 <= length /\
                                           size_ f + length < 2 ^ 64) lengths)
         (Hreads : reads f d lengths = (results, f', d')),
    within f' /\ size_ f' = size_ f /\
    cur_offset_ f' = cur_offset_ f + sum results /\
    sum results <= size_ f - cur_offset_ f /\
    Forall2 (fun result length => 0 <= result <= length) results lengths.
Proof.
  induction lengths as [|length rest IH];
    intros f f' d d' results Hhonest Hwithin Hlengths Hreads.
  - injection Hreads as <- <- <-. cbn [sum fold_right].
    split; [exact Hwithin|]. split; [reflexivity|].
    destruct Hwithin as ((H0 & H1) & H2).
    split; [lia|]. split; [lia|constructor].
  - cbn [reads] in Hreads.
    destruct (read f d length) as [[r f1] d1] eqn:Hread.
    destruct (reads f1 d1 rest) as [[rs f2] d2] eqn:Hrest.
    injection Hreads as <- <- <-.
    inversion Hlengths as [|? ? (Hl & Hfit) Hrest_ok]; subst.
    assert (Hsum : cur_offset_ f + length < 2 ^ 64)
      by (destruct Hwithin as ((? & ?) & ?); lia).
    destruct (read_step f f1 d d1 length r Hhonest Hwithin Hl Hsum Hread)
      as (Hw1 & Hsize1 & Hcur1 & Hr & Hleft).
    rewrite <- Hsize1 in Hrest_ok.
    destruct (IH f1 f2 d1 d2 rs Hhonest Hw1 Hrest_ok Hrest)
      as (Hw2 & Hsize2 & Hcur2 & Htotal & Heach).
    cbn [sum fold_right]. fold (sum rs).
    split; [exact Hw2|]. split; [congruence|].
    split; [lia|]. split; [lia|].
    constructor; assumption.
Qed.

End Driver.

(** A file of 100 bytes with the offset at 90, and a driver that always
    moves the bytes it is asked for. *)
Definition sample_file : file := {| size_ := 100; cur_offset_ := 90 |}.
Definition eager (d : unit) (offset length : Z) : Z * unit := (length, d).

Lemma sample_file_within : within sample_file.
Proof. unfold within. cbn. lia. Qed.

Lemma eager_honest : honest unit eager.
Proof. intros d offset length Hl. cbn. lia. Qed.

Lemma read_write_stay_within_file_witness :
  90 + Z.min 64 (100 - 90) <= 100 /\
  read unit eager sample_file tt 64
  = (10, {| size_ := 100; cur_offset_ := 100 |}, tt) /\
  write unit eager sample_file tt 64
  = (10, {| size_ := 100; cur_offset_ := 100 |}, tt).
Proof.
  assert (Hl : 0 <= 64) by lia.
  assert (Hfits : cur_offset_ sample_file + 64 < 2 ^ 64) by (cbn; lia).
  exact (read_write_stay_within_file unit eager eager sample_file tt 64
           sample_file_within Hl Hfits).
Defined.

Lemma read_unclamped_on_wrap_around_witness :
  100 - 90 < 2 ^ 64 - 1 /\
  read unit eager sample_file tt (2 ^ 64 - 1)
  = (2 ^ 64 - 1, {| size_ := 100; cur_offset_ := 89 |}, tt).
Proof.
  assert (Hl : 0 <= 2 ^ 64 - 1 < 2 ^ 64) by lia.
  assert (Hwrap : 2 ^ 64 <= cur_offset_ sample_file + (2 ^ 64 - 1))
    by (cbn; lia).
  assert (Hsmall : cur_offset_ sample_file + (2 ^ 64 - 1) - 2 ^ 64
                   <= size_ sample_file) by (cbn; lia).
  exact (read_unclamped_on_wrap_around unit eager sample_file tt (2 ^ 64 - 1)
           sample_file_within Hl Hwrap Hsmall).
Defined.

Lemma reads_never_pass_the_end_witness :
  within {| size_ := 100; cur_offset_ := 100 |} /\
  size_ {| size_ := 100; cur_offset_ := 100 |} = size_ sample_file /\
  cur_offset_ {| size_ := 100; cur_offset_ := 100 |}
  = cur_offset_ sample_file + sum [4; 6; 0] /\
  sum [4; 6; 0] <= size_ sample_file - cur_offset_ sample_file /\
  Forall2 (fun result length => 0 <= result <= length) [4; 6; 0] [4; 64; 8].
Proof.
  assert (Hlengths : Forall (fun length => 0 <= length /\
                               size_ sample_file + length < 2 ^ 64)
                            [4; 64; 8])
    by (repeat constructor; cbn; lia).
  exact (reads_never_pass_the_end unit eager [4; 64; 8] sample_file
           {| size_ := 100; cur_offset_ := 100 |} tt tt [4; 6; 0]
           eager_honest sample_file_within Hlengths eq_refl).
Defined.

End File.


(* ===================================================================== *)
(** * The buddy page allocator ([page-allocator-buddy.cpp]) *)
(* ===================================================================== *)

Module Buddy.

(** ** Outcomes

    An operation either returns, or the kernel stops: an [assert] fails, a
    null [page*] is dereferenced, or a loop does not come to an end. *)

Inductive failure := Assertion | NullPointer | Fuel.

Inductive result (A : Type) :=
| Ret (a : A)
| Stop (f : failure).

Arguments Ret {A} a.
Arguments Stop {A} f.

Definition bind {A B : Type} (m : result A) (k : A -> result B) : result B :=
  match m with
  | Ret a => k a
  | Stop f => Stop f
  end.

Notation "x <- m ;; k" := (bind m (fun x => k))
  (at level 61, m at next level, right associativity).
Notation "' p <- m ;; k" := (bind m (fun x => let 'p := x in k))
  (at level 61, p pattern, m at next level, right associativity).

Definition assert (b : bool) : result unit :=
  if b then Ret tt else Stop Assertion.

(** ** Loops over linked lists

    [while cond body fuel x] is [while (cond) body;] started in [x] and cut
    off after [fuel] rounds.  The fuel is a binary number, so that it can be
    as large as the number of page frames there are. *)

Section While.

Context {X : Type} (cond : X -> bool) (body : X -> result X).

(** [inl x]: the condition is false in [x], the loop is over;
    [inr x]: the rounds asked for were run and led to [x]. *)
Definition and_then (r : result (X + X)) (k : X -> result (X + X))
  : result (X + X) :=
  r' <- r;;
  match r' with
  | inl x => Ret (inl x)
  | inr x => k x
  end.

Definition round (x : X) : result (X + X) :=
  if cond x then x' <- body x;; Ret (inr x') else Ret (inl x).

Fixpoint rounds (fuel : positive) (x : X) : result (X + X) :=
  match fuel with
  | xH => round x
  | xO f => and_then (rounds f x) (rounds f)
  | xI f => and_then (round x) (fun x1 => and_then (rounds f x1) (rounds f))
  end.

Definition while (fuel : positive) (x : X) : result X :=
  r <- rounds fuel x;;
  match r with
  | inl x' => Ret x'
  | inr _ => Stop Fuel
  end.

(** The same, counted in unary: this is the form the proofs work with. *)
Fixpoint rounds_nat (n : nat) (x : X) : result (X + X) :=
  match n with
  | O => Ret (inr x)
  | S n' => and_then (round x) (rounds_nat n')
  end.

End While.

(** ** Data

    A page descriptor is named by its page frame number: [page::get_from_pfn]
    is an array lookup, so [page*] values are ordered like the PFNs they
    stand for, and [nullptr] is [None]. *)

Definition LastOrder : Z := 16.
Definition UNIT64_MAX : Z := 18446744073709551615.

(** Arithmetic on [u64] wraps around. *)
Definition u64 (x : Z) : Z := x mod 2 ^ 64.

(** There are [2^64] PFNs; a walk along [next_free] links that takes more
    steps than that is going round in circles. *)
Definition FUEL : positive := 18446744073709551617.

(** The allocator object together with the memory it works on:
    - [free_list_] is the array [page *free_list_[LastOrder + 1]];
    - [next_free p] is the [page_metadata::next_free] word that sits at the
      start of the body of page [p] ([get_next_free]);
    - [body p i] is byte [i] of the rest of the body of page [p]. *)
Record state := {
  free_list_ : Z -> option Z;
  next_free : Z -> option Z;
  body : Z -> Z -> Z
}.

(** The constructor clears every list head; memory is what it is. *)
Definition fresh (nf : Z -> option Z) (bd : Z -> Z -> Z) : state :=
  {| free_list_ := fun _ => None; next_free := nf; body := bd |}.

Definition pages_per_block (order : Z) : Z := Z.shiftl 1 order.

Definition block_aligned (order pfn : Z) : bool :=
  Z.land pfn (pages_per_block order - 1) =? 0.

Definition get_buddy (order pfn : Z) : Z := Z.lxor pfn (pages_per_block order).

Definition set_next_free (s : state) (p : Z) (v : option Z) : state :=
  {| free_list_ := free_list_ s;
     next_free := fun q => if q =? p then v else next_free s q;
     body := body s |}.

Definition set_free_list (s : state) (order : Z) (v : option Z) : state :=
  {| free_list_ := fun o => if o =? order then v else free_list_ s o;
     next_free := next_free s;
     body := body s |}.

(** A [page**]: the address of a list head or of the [next_free] word of a
    page. *)
Inductive slot :=
| Head (order : Z)
| Link (p : Z).

Definition load (s : state) (sl : slot) : option Z :=
  match sl with
  | Head order => free_list_ s order
  | Link p => next_free s p
  end.

Definition store (s : state) (sl : slot) (v : option Z) : state :=
  match sl with
  | Head order => set_free_list s order v
  | Link p => set_next_free s p v
  end.

Definition ptr_eqb (a b : option Z) : bool :=
  match a, b with
  | Some x, Some y => x =? y
  | None, None => true
  | _, _ => false
  end.

Definition in_range (order : Z) : bool := (0 <=? order) && (order <=? LastOrder).

(** ** List helpers *)

(** The step both walks take: from a slot to the [next_free] word of the
    page the slot points to. *)
Definition next_slot (s : state) (sl : slot) : result slot :=
  match load s sl with
  | Some q => Ret (Link q)
  | None => Stop NullPointer
  end.

Definition get_slot (s : state) (order block_start : Z) : result slot :=
  _ <- assert (in_range order);;
  _ <- assert (block_aligned order block_start);;
  let target := block_start in
  sl <- while (fun sl => match load s sl with
                         | Some q => q <? target
                         | None => false
                         end)
              (next_slot s) FUEL (Head order);;
  _ <- assert (negb (ptr_eqb (load s sl) (Some target)));;
  Ret sl.

Definition get_candidate_slot (s : state) (order block_start : Z)
  : result slot :=
  _ <- assert (in_range order);;
  _ <- assert (block_aligned order block_start);;
  let target := block_start in
  sl <- while (fun sl => match load s sl with
                         | Some q => negb (q =? target)
                         | None => false
                         end)
              (next_slot s) FUEL (Head order);;
  _ <- assert (ptr_eqb (load s sl) (Some target));;
  Ret sl.

Definition insert_free_block (s : state) (order block_start : Z)
  : result state :=
  sl <- get_slot s order block_start;;
  let s1 := set_next_free s block_start (load s sl) in
  Ret (store s1 sl (Some block_start)).

Definition remove_free_block (s : state) (order block_start : Z)
  : result state :=
  sl <- get_candidate_slot s order block_start;;
  let s1 := store s sl (next_free s block_start) in
  Ret (set_next_free s1 block_start None).

Definition insert_buddies (s : state) (order first_block second_block : Z)
  : result state :=
  sl <- get_slot s order first_block;;
  _ <- assert (block_aligned order second_block);;
  let s1 := set_next_free s first_block (Some second_block) in
  let s2 := set_next_free s1 second_block (load s1 sl) in
  Ret (store s2 sl (Some first_block)).

Definition remove_buddies (s : state) (order block_start : Z) : result state :=
  sl <- get_candidate_slot s order block_start;;
  match next_free s block_start with
  | None => Stop NullPointer
  | Some second_block =>
      _ <- assert (block_aligned order second_block);;
      let s1 := store s sl (next_free s second_block) in
      let s2 := set_next_free s1 second_block None in
      Ret (set_next_free s2 block_start None)
  end.

(** ** Merging and splitting *)

Definition merge_buddies (s : state) (order buddy : Z)
  : result (option Z * state) :=
  _ <- assert ((0 <=? order) && (order <? LastOrder));;
  let buddy2 := get_buddy order buddy in
  let first := if buddy <? buddy2 then buddy else buddy2 in
  let second := if buddy <? buddy2 then buddy2 else buddy in
  if negb (ptr_eqb (next_free s first) (Some second)) then Ret (None, s)
  else
    s1 <- remove_buddies s order first;;
    s2 <- insert_free_block s1 (order + 1) first;;
    Ret (Some first, s2).

(** The loop of [iterative_merge] takes at most [LastOrder - order] rounds,
    counted by [n]. *)
Fixpoint iterative_merge_loop (n : nat) (s : state) (order : Z)
    (buddy_ptr : option Z) : result state :=
  match buddy_ptr with
  | Some buddy =>
      if order <? LastOrder then
        match n with
        | O => Stop Fuel
        | S n' =>
            '(buddy_ptr', s') <- merge_buddies s order buddy;;
            iterative_merge_loop n' s' (order + 1) buddy_ptr'
        end
      else Ret s
  | None => Ret s
  end.

Definition iterative_merge (s : state) (order : Z) (buddy_ptr : option Z)
  : result state :=
  iterative_merge_loop (Z.to_nat (LastOrder - order)) s order buddy_ptr.

Definition split_block (s : state) (order block_start : Z) : result state :=
  _ <- assert ((0 <? order) && (order <=? LastOrder));;
  let next_block := u64 (block_start + pages_per_block (order - 1)) in
  s1 <- remove_free_block s order block_start;;
  insert_buddies s1 (order - 1) block_start next_block.

(** The first loop of [iterative_split]: the first order at or above [order]
    whose list is not empty, or [LastOrder + 1]. *)
Fixpoint scan_up (n : nat) (s : state) (order : Z) : Z :=
  match n with
  | O => order
  | S n' =>
      if (order <=? LastOrder)
         && match free_list_ s order with None => true | Some _ => false end
      then scan_up n' s (order + 1)
      else order
  end.

(** The second loop of [iterative_split]: split the head of [free_list_[order]]
    and step one order down, until [target_order] is reached. *)
Fixpoint split_down (n : nat) (s : state) (order target_order : Z)
  : result state :=
  if order >? target_order then
    match n with
    | O => Stop Fuel
    | S n' =>
        match free_list_ s order with
        | None => Stop NullPointer
        | Some block_start =>
            s' <- split_block s order block_start;;
            split_down n' s' (order - 1) target_order
        end
    end
  else Ret s.

Definition iterative_split (s : state) (target_order : Z)
  : result (option Z * state) :=
  _ <- assert (in_range target_order);;
  match free_list_ s target_order with
  | Some p => Ret (Some p, s)
  | None =>
      let order := scan_up (Z.to_nat (LastOrder - target_order)) s
                     (target_order + 1) in
      if order >? LastOrder then Ret (None, s)
      else
        s' <- split_down (Z.to_nat (order - target_order)) s order
                target_order;;
        Ret (free_list_ s' target_order, s')
  end.

(** ** Public functions *)

(** The allocation flags come from [page-allocator.h], which is not among
    the sources: a bit mask in which [zero] is one bit. *)
Definition page_allocation_flags := Z.
Definition none : page_allocation_flags := 0.
Definition zero : page_allocation_flags := 1.

(** Modelled from the spec: [memops::pzero] is not among the sources.  The
    design document has "the entire block is zeroed before return", so
    [pzero(ptr, n)] clears [n] whole pages from the page at [ptr] on; the
    link word at the start of each of them reads as null afterwards. *)
Definition pzero (s : state) (p count : Z) : state :=
  {| free_list_ := free_list_ s;
     next_free := fun q =>
       if (p <=? q) && (q <? p + count) then None else next_free s q;
     body := fun q i =>
       if (p <=? q) && (q <? p + count) then 0 else body s q i |}.

Definition free_pages (s : state) (block_start order : Z) : result state :=
  _ <- assert (in_range order);;
  s1 <- insert_free_block s order block_start;;
  iterative_merge s1 order (Some block_start).

Definition allocate_pages (s : state) (order : Z)
    (flags : page_allocation_flags) : result (option Z * state) :=
  if (order <? 0) || (order >? LastOrder) then Ret (None, s)
  else
    '(chosen, s1) <- iterative_split s order;;
    match chosen with
    | None => Ret (None, s1)
    | Some p =>
        s2 <- remove_free_block s1 order p;;
        let s3 :=
          if Z.land flags zero =? zero
          then pzero s2 p (Z.shiftl 1 order)
          else s2 in
        Ret (Some p, s3)
    end.

(** The three loops of [insert_free_pages], each with the number of rounds
    it can take at most. *)
Fixpoint low_order_sweep (n : nat) (s : state) (order lsb pfn page_count : Z)
  : result (state * Z * Z * Z * Z) :=
  if (lsb <=? page_count) && (order <? LastOrder) then
    match n with
    | O => Stop Fuel
    | S n' =>
        '(s', page_count', pfn') <-
          (if negb (Z.land lsb pfn =? 0) then
             s' <- free_pages s pfn order;;
             Ret (s', u64 (page_count - lsb), u64 (pfn + lsb))
           else Ret (s, page_count, pfn));;
        low_order_sweep n' s' (order + 1) (u64 (Z.shiftl lsb 1))
          pfn' page_count'
    end
  else Ret (s, order, lsb, pfn, page_count).

Fixpoint cap_loop (n : nat) (s : state) (max_block_size pfn page_count : Z)
  : result (state * Z * Z) :=
  if page_count >? max_block_size then
    match n with
    | O => Stop Fuel
    | S n' =>
        s' <- insert_free_block s LastOrder pfn;;
        cap_loop n' s' max_block_size
          (u64 (pfn + max_block_size)) (u64 (page_count - max_block_size))
    end
  else Ret (s, pfn, page_count).

Fixpoint high_order_sweep (n : nat) (s : state) (order lsb pfn page_count : Z)
  : result state :=
  if lsb >? 0 then
    match n with
    | O => Stop Fuel
    | S n' =>
        let lsb' := Z.shiftr lsb 1 in
        let order' := order - 1 in
        '(s', pfn') <-
          (if negb (Z.land lsb' page_count =? 0) then
             s' <- free_pages s pfn order';;
             Ret (s', u64 (pfn + lsb'))
           else Ret (s, pfn));;
        high_order_sweep n' s' order' lsb' pfn' page_count
    end
  else Ret s.

(** The [assert] at the top of [insert_free_pages]. *)
Definition overflow_check (pfn page_count : Z) : bool :=
  pfn <? u64 (UNIT64_MAX - page_count).

Definition insert_free_pages (s : state) (range_start page_count : Z)
  : result state :=
  let order := 0 in
  let lsb := 1 in
  let pfn := range_start in
  let max_block_size := Z.shiftl 1 LastOrder in
  _ <- assert (overflow_check pfn page_count);;
  '(s1, order, lsb, pfn, page_count) <-
    low_order_sweep (Z.to_nat (LastOrder - order)) s order lsb pfn page_count;;
  '(s2, pfn, page_count) <-
    cap_loop (Z.to_nat (page_count / max_block_size)) s1 max_block_size
      pfn page_count;;
  high_order_sweep (S (Z.to_nat (Z.log2 lsb))) s2 order lsb pfn page_count.

(** ** Reading the free lists back *)

(** The PFNs met when following at most [n] links from [h]. *)
Fixpoint walk (n : nat) (nf : Z -> option Z) (h : option Z) : list Z :=
  match n, h with
  | S n', Some p => p :: walk n' nf (nf p)
  | _, _ => []
  end.

Definition blocks (n : nat) (s : state) (order : Z) : list Z :=
  walk n (next_free s) (free_list_ s order).

Definition orders : list Z := map Z.of_nat (seq 0 17).

Definition dump_lists (n : nat) (s : state) : list (list Z) :=
  map (blocks n s) orders.

(** ** Basic facts *)

Ltac olia := unfold LastOrder in *; lia.

Lemma bind_ret_inv {A B : Type} (m : result A) (k : A -> result B) (b : B) :
  bind m k = Ret b -> exists a, m = Ret a /\ k a = Ret b.
Proof. destruct m as [a|f]; cbn; [eauto|discriminate]. Qed.

Lemma assert_ret_inv (b : bool) (u : unit) : assert b = Ret u -> b = true.
Proof. destruct b; cbn; [reflexivity|discriminate]. Qed.

Lemma in_range_iff (order : Z) :
  in_range order = true <-> 0 <= order <= LastOrder.
Proof. unfold in_range, LastOrder. lia. Qed.

Lemma pages_per_block_pow (order : Z) :
  0 <= order -> pages_per_block order = 2 ^ order.
Proof.
  intros H. unfold pages_per_block. now rewrite Z.shiftl_1_l.
Qed.

(** *** The binary loop counter against the unary one *)

Section WhileFacts.

Context {X : Type} (cond : X -> bool) (body : X -> result X).

Lemma and_then_assoc (r : result (X + X)) (k1 k2 : X -> result (X + X)) :
  and_then (and_then r k1) k2 = and_then r (fun x => and_then (k1 x) k2).
Proof. destruct r as [[x|x]|f]; reflexivity. Qed.

Lemma and_then_ret (r : result (X + X)) :
  and_then r (fun x => Ret (inr x)) = r.
Proof. destruct r as [[x|x]|f]; reflexivity. Qed.

Lemma and_then_ext (r : result (X + X)) (k1 k2 : X -> result (X + X)) :
  (forall x, k1 x = k2 x) -> and_then r k1 = and_then r k2.
Proof. intros H. destruct r as [[x|x]|f]; cbn; auto. Qed.

Lemma rounds_nat_add (n m : nat) (x : X) :
  rounds_nat cond body (n + m) x
  = and_then (rounds_nat cond body n x) (rounds_nat cond body m).
Proof.
  revert x. induction n as [|n IH]; intros x; cbn [rounds_nat Nat.add].
  - reflexivity.
  - rewrite and_then_assoc. apply and_then_ext. exact IH.
Qed.

Lemma rounds_unary (fuel : positive) (x : X) :
  rounds cond body fuel x = rounds_nat cond body (Pos.to_nat fuel) x.
Proof.
  revert x. induction fuel as [f IH|f IH|]; intros x; cbn [rounds].
  - rewrite Pos2Nat.inj_xI. cbn [rounds_nat Nat.mul].
    apply and_then_ext. intros x1.
    rewrite Nat.add_0_r, rounds_nat_add, IH.
    apply and_then_ext. exact IH.
  - rewrite Pos2Nat.inj_xO. cbn [Nat.mul].
    rewrite Nat.add_0_r, rounds_nat_add, IH.
    apply and_then_ext. exact IH.
  - symmetry. exact (and_then_ret (round cond body x)).
Qed.

End WhileFacts.

(** ** Free lists as lists *)

(** [lseg nf h l t]: starting from the pointer [h] and following the
    [next_free] words [nf], one meets the pages [l], in this order, and
    then the pointer [t]. *)
Fixpoint lseg (nf : Z -> option Z) (h : option Z) (l : list Z) (t : option Z)
  : Prop :=
  match l with
  | [] => h = t
  | x :: l' => h = Some x /\ lseg nf (nf x) l' t
  end.

(** The free list of an order, read as the list of the first PFNs of its
    blocks: the walk from the head ends on [nullptr]. *)
Definition free_list_is (s : state) (order : Z) (l : list Z) : Prop :=
  lseg (next_free s) (free_list_ s order) l None.

(** The slot reached after walking past the pages [l] from the slot [sl]. *)
Definition last_slot (sl : slot) (l : list Z) : slot :=
  fold_left (fun _ q => Link q) l sl.

Definition walk_cond (go : Z -> bool) (s : state) (sl : slot) : bool :=
  match load s sl with
  | Some q => go q
  | None => false
  end.

Lemma lseg_app (nf : Z -> option Z) (l1 l2 : list Z) (h t : option Z) :
  lseg nf h (l1 ++ l2) t <-> exists m, lseg nf h l1 m /\ lseg nf m l2 t.
Proof.
  revert h. induction l1 as [|x l1 IH]; intros h; cbn.
  - split.
    + intros H. exists h. split; [reflexivity|exact H].
    + intros (m & -> & H). exact H.
  - rewrite IH. split.
    + intros (-> & m & H1 & H2). exists m. repeat split; assumption.
    + intros (m & (-> & H1) & H2). split; [reflexivity|]. eauto.
Qed.

Lemma lseg_frame (nf nf' : Z -> option Z) (l : list Z) (h t : option Z) :
  (forall x, In x l -> nf' x = nf x) -> lseg nf h l t -> lseg nf' h l t.
Proof.
  revert h. induction l as [|x l IH]; intros h Hagree; cbn; [auto|].
  intros (-> & H). split; [reflexivity|].
  rewrite (Hagree x (or_introl eq_refl)).
  apply IH; [|exact H]. intros y Hy. apply Hagree. now right.
Qed.

Lemma lseg_inj (nf : Z -> option Z) (l1 l2 : list Z) (h : option Z) :
  lseg nf h l1 None -> lseg nf h l2 None -> l1 = l2.
Proof.
  revert h l2. induction l1 as [|x l1 IH]; intros h [|y l2]; cbn.
  - reflexivity.
  - intros -> (H & _). discriminate.
  - intros (-> & _) H. discriminate.
  - intros (-> & H1) (H & H2). injection H as <-. f_equal. eauto.
Qed.

Lemma lseg_nil_head (nf : Z -> option Z) (l : list Z) :
  lseg nf None l None -> l = [].
Proof. destruct l; cbn; [reflexivity|]. intros (H & _). discriminate. Qed.

Lemma last_slot_snoc (sl : slot) (l : list Z) (y : Z) :
  last_slot sl (l ++ [y]) = Link y.
Proof. unfold last_slot. now rewrite fold_left_app. Qed.

Lemma last_slot_cases (sl : slot) (l : list Z) :
  (l = [] /\ last_slot sl l = sl) \/
  (exists l' y, l = l' ++ [y] /\ last_slot sl l = Link y).
Proof.
  destruct l as [|x l'] using rev_ind.
  - now left.
  - right. exists l', x. split; [reflexivity|apply last_slot_snoc].
Qed.

(** The shared shape of the two walks: past the pages for which [go] holds,
    up to the first page for which it does not, or to the end. *)
Lemma walk_rounds_nat (go : Z -> bool) (s : state) (l : list Z) :
  forall (n : nat) (sl : slot),
    lseg (next_free s) (load s sl) l None ->
    (List.length l < n)%nat ->
    exists l1 l2,
      l = l1 ++ l2 /\
      forallb go l1 = true /\
      match l2 with [] => True | y :: _ => go y = false end /\
      rounds_nat (walk_cond go s) (next_slot s) n sl
      = Ret (inl (last_slot sl l1)) /\
      lseg (next_free s) (load s (last_slot sl l1)) l2 None.
Proof.
  induction l as [|x l IH]; intros n sl Hseg Hlen.
  - destruct n as [|n]; [cbn in Hlen; lia|].
    exists [], []. cbn in Hseg |- *.
    unfold round, walk_cond. rewrite Hseg. cbn. auto.
  - destruct n as [|n]; [cbn in Hlen; lia|].
    cbn in Hseg. destruct Hseg as (Hload & Hseg).
    destruct (go x) eqn:Hgo.
    + destruct (IH n (Link x) Hseg ltac:(cbn in Hlen; lia))
        as (l1 & l2 & -> & Hall & Hhd & Hrun & Hrest).
      exists (x :: l1), l2. cbn [forallb app]. rewrite Hgo, Hall.
      repeat split; try assumption.
      cbn [rounds_nat]. unfold round, walk_cond, next_slot.
      rewrite Hload, Hgo. cbn. exact Hrun.
    + exists [], (x :: l). cbn [app forallb last_slot fold_left].
      repeat split; try assumption.
      cbn [rounds_nat]. unfold round, walk_cond. rewrite Hload, Hgo.
      reflexivity.
Qed.

Lemma sorted_length_bound (l : list Z) (lo hi : Z) :
  StronglySorted Z.lt l -> (forall x, In x l -> lo <= x < hi) -> lo <= hi ->
  Z.of_nat (List.length l) <= hi - lo.
Proof.
  revert lo. induction l as [|x l IH]; intros lo Hs Hb Hle; cbn [List.length].
  - lia.
  - inversion Hs as [|? ? Hs' Hall]; subst.
    pose proof (Hb x (or_introl eq_refl)) as Hx.
    specialize (IH (x + 1) Hs').
    rewrite Forall_forall in Hall.
    assert (forall y, In y l -> x + 1 <= y < hi) as Hb'.
    { intros y Hy. specialize (Hall y Hy). specialize (Hb y (or_intror Hy)). lia. }
    specialize (IH Hb' ltac:(lia)). lia.
Qed.

Lemma walk_while_fuel (go : Z -> bool) (s : state) (l : list Z)
    (fuel : positive) (sl : slot) :
  lseg (next_free s) (load s sl) l None ->
  (List.length l < Pos.to_nat fuel)%nat ->
  exists l1 l2,
    l = l1 ++ l2 /\
    forallb go l1 = true /\
    match l2 with [] => True | y :: _ => go y = false end /\
    while (walk_cond go s) (next_slot s) fuel sl = Ret (last_slot sl l1) /\
    lseg (next_free s) (load s (last_slot sl l1)) l2 None.
Proof.
  intros Hseg Hlen.
  destruct (walk_rounds_nat go s l _ sl Hseg Hlen)
    as (l1 & l2 & Hl & Hall & Hhd & Hrun & Hrest).
  exists l1, l2. repeat split; try assumption.
  unfold while. rewrite rounds_unary, Hrun. reflexivity.
Qed.

Lemma fuel_enough (l : list Z) :
  StronglySorted Z.lt l -> (forall x, In x l -> 0 <= x < 2 ^ 64) ->
  (List.length l < Pos.to_nat FUEL)%nat.
Proof.
  intros Hs Hb.
  pose proof (sorted_length_bound l 0 (2 ^ 64) Hs Hb ltac:(lia)) as H.
  apply Nat2Z.inj_lt. rewrite positive_nat_Z.
  change (2 ^ 64) with 18446744073709551616 in H.
  change (Z.pos FUEL) with 18446744073709551617. lia.
Qed.

(** A walk along a sorted list of PFNs comes to an end. *)
Lemma walk_while (go : Z -> bool) (s : state) (l : list Z) (sl : slot) :
  lseg (next_free s) (load s sl) l None ->
  StronglySorted Z.lt l -> (forall x, In x l -> 0 <= x < 2 ^ 64) ->
  exists l1 l2,
    l = l1 ++ l2 /\
    forallb go l1 = true /\
    match l2 with [] => True | y :: _ => go y = false end /\
    while (walk_cond go s) (next_slot s) FUEL sl = Ret (last_slot sl l1) /\
    lseg (next_free s) (load s (last_slot sl l1)) l2 None.
Proof.
  intros Hseg Hs Hb.
  exact (walk_while_fuel go s l FUEL sl Hseg (fuel_enough l Hs Hb)).
Qed.

(** ** Alignment and buddies *)

Definition in_order (n : Z) : Prop := 0 <= n <= LastOrder.

Lemma pow2_pos (n : Z) : 0 <= n -> 0 < 2 ^ n.
Proof. intros H. apply Z.pow_pos_nonneg; lia. Qed.

Lemma pow2_succ (n : Z) : 0 <= n -> 2 ^ (n + 1) = 2 * 2 ^ n.
Proof. intros H. now rewrite Z.pow_add_r, Z.pow_1_r, Z.mul_comm by lia. Qed.

Lemma block_aligned_iff (n p : Z) :
  0 <= n -> block_aligned n p = true <-> (2 ^ n | p).
Proof.
  intros Hn. unfold block_aligned, pages_per_block.
  rewrite Z.shiftl_1_l, Z.sub_1_r, <- Z.ones_equiv, Z.land_ones by assumption.
  rewrite Z.eqb_eq. apply Z.mod_divide.
  pose proof (pow2_pos n Hn). lia.
Qed.

Lemma divide_pow2_succ (n p : Z) : 0 <= n -> (2 ^ (n + 1) | p) -> (2 ^ n | p).
Proof.
  intros Hn [k ->]. exists (k * 2). rewrite pow2_succ by assumption. ring.
Qed.

(** Two blocks of one order that start at different places do not overlap. *)
Lemma aligned_gap (n p q : Z) :
  0 <= n -> (2 ^ n | p) -> (2 ^ n | q) -> p < q -> p + 2 ^ n <= q.
Proof.
  intros Hn [k ->] [j ->] Hlt.
  pose proof (pow2_pos n Hn) as Hpos.
  assert (k < j) by nia. nia.
Qed.

Lemma land_pow2_aligned (n p : Z) :
  0 <= n -> (2 ^ (n + 1) | p) -> Z.land p (2 ^ n) = 0.
Proof.
  intros Hn [k ->]. apply Z.bits_inj'. intros i Hi.
  rewrite Z.land_spec, Z.bits_0, Z.pow2_bits_eqb by assumption.
  destruct (Z.eqb_spec n i) as [<-|]; [|apply andb_false_r].
  rewrite Z.mul_pow2_bits_low by lia. reflexivity.
Qed.

(** The buddy of an aligned block lies one block above it or one block
    below it, according to bit [n] of its PFN. *)
Lemma get_buddy_cases (n p : Z) :
  0 <= n -> (2 ^ n | p) ->
  ((2 ^ (n + 1) | p) /\ get_buddy n p = p + 2 ^ n) \/
  ((2 ^ (n + 1) | p - 2 ^ n) /\ get_buddy n p = p - 2 ^ n).
Proof.
  intros Hn [k ->]. unfold get_buddy. rewrite pages_per_block_pow by assumption.
  destruct (Z.even k) eqn:Hk.
  - left. apply Z.even_spec in Hk. destruct Hk as [j ->].
    assert (Hd : (2 ^ (n + 1) | 2 * j * 2 ^ n)).
    { exists j. rewrite pow2_succ by assumption. ring. }
    split; [exact Hd|].
    symmetry. apply Z.add_nocarry_lxor. now apply land_pow2_aligned.
  - right. rewrite <- Z.negb_odd in Hk. apply negb_false_iff in Hk.
    apply Z.odd_spec in Hk. destruct Hk as [j ->].
    assert (Hd : (2 ^ (n + 1) | (2 * j + 1) * 2 ^ n - 2 ^ n)).
    { exists j. rewrite pow2_succ by assumption. ring. }
    split; [exact Hd|].
    pose proof (land_pow2_aligned n _ Hn Hd) as Hl.
    apply Z.add_nocarry_lxor in Hl.
    replace ((2 * j + 1) * 2 ^ n) with ((2 * j + 1) * 2 ^ n - 2 ^ n + 2 ^ n) at 1
      by ring.
    rewrite Hl, Z.lxor_assoc, Z.lxor_nilpotent, Z.lxor_0_r. reflexivity.
Qed.

(** What [merge_buddies] calls [first] and [second]. *)
Lemma buddy_pair (n p : Z) :
  0 <= n -> (2 ^ n | p) ->
  let b := get_buddy n p in
  let first := if p <? b then p else b in
  let second := if p <? b then b else p in
  (2 ^ (n + 1) | first) /\ second = first + 2 ^ n /\
  ((p = first /\ b = second) \/ (p = second /\ b = first)).
Proof.
  intros Hn Hp. pose proof (pow2_pos n Hn) as Hpos.
  destruct (get_buddy_cases n p Hn Hp) as [(Hd & Hb)|(Hd & Hb)];
    cbn zeta; rewrite Hb.
  - replace (p <? p + 2 ^ n) with true by lia. auto.
  - replace (p <? p - 2 ^ n) with false by lia.
    repeat split; [exact Hd|lia|]. right. split; [lia|reflexivity].
Qed.

Lemma get_buddy_aligned (n p : Z) :
  0 <= n -> (2 ^ n | p) -> (2 ^ n | get_buddy n p).
Proof.
  intros Hn Hp.
  destruct (get_buddy_cases n p Hn Hp) as [(Hd & ->)|(Hd & ->)].
  - apply Z.divide_add_r; [exact Hp|apply Z.divide_refl].
  - apply Z.divide_sub_r; [exact Hp|apply Z.divide_refl].
Qed.

(** ** Sorted lists of PFNs *)

Fixpoint ins (p : Z) (l : list Z) : list Z :=
  match l with
  | [] => [p]
  | x :: l' => if x <? p then x :: ins p l' else p :: l
  end.

Fixpoint del (p : Z) (l : list Z) : list Z :=
  match l with
  | [] => []
  | x :: l' => if x =? p then l' else x :: del p l'
  end.

Lemma ins_split (p : Z) (l1 l2 : list Z) :
  forallb (fun q => q <? p) l1 = true ->
  match l2 with [] => True | y :: _ => (y <? p) = false end ->
  ins p (l1 ++ l2) = l1 ++ p :: l2.
Proof.
  induction l1 as [|x l1 IH]; cbn [app forallb ins].
  - intros _. destruct l2 as [|y l2]; cbn; [reflexivity|]. now intros ->.
  - intros H Hhd. apply andb_true_iff in H. destruct H as (-> & H).
    f_equal. now apply IH.
Qed.

Lemma del_split (p : Z) (l1 l2 : list Z) :
  forallb (fun q => negb (q =? p)) l1 = true ->
  del p (l1 ++ p :: l2) = l1 ++ l2.
Proof.
  induction l1 as [|x l1 IH]; cbn [app forallb del].
  - intros _. now rewrite Z.eqb_refl.
  - intros H. apply andb_true_iff in H. destruct H as (Hx & H).
    apply negb_true_iff in Hx. rewrite Hx. f_equal. now apply IH.
Qed.

Lemma In_ins (p x : Z) (l : list Z) : In x (ins p l) <-> x = p \/ In x l.
Proof.
  induction l as [|y l IH]; cbn.
  - intuition.
  - destruct (y <? p); cbn; rewrite ?IH; intuition.
Qed.

Lemma sorted_ins (p : Z) (l : list Z) :
  StronglySorted Z.lt l -> ~ In p l -> StronglySorted Z.lt (ins p l).
Proof.
  induction l as [|y l IH]; cbn; intros Hs Hn.
  - repeat constructor.
  - inversion Hs as [|? ? Hs' Hall]; subst.
    destruct (Z.ltb_spec y p).
    + constructor; [apply IH; tauto|].
      rewrite Forall_forall in *. intros x Hx.
      apply In_ins in Hx. destruct Hx as [->|Hx]; auto.
    + constructor; [exact Hs|].
      rewrite Forall_forall in *. intros x [->|Hx].
      * assert (x <> p) by tauto. lia.
      * specialize (Hall x Hx). lia.
Qed.

Lemma In_del (p x : Z) (l : list Z) :
  StronglySorted Z.lt l -> In x (del p l) <-> x <> p /\ In x l.
Proof.
  induction l as [|y l IH]; cbn; intros Hs.
  - intuition.
  - inversion Hs as [|? ? Hs' Hall]; subst. rewrite Forall_forall in Hall.
    destruct (Z.eqb_spec y p) as [->|Hne].
    + split.
      * intros Hx. specialize (Hall x Hx). split; [lia|now right].
      * intros (Hx & [H|H]); [congruence|exact H].
    + cbn. rewrite (IH Hs'). intuition congruence.
Qed.

Lemma sorted_del (p : Z) (l : list Z) :
  StronglySorted Z.lt l -> StronglySorted Z.lt (del p l).
Proof.
  induction l as [|y l IH]; cbn; intros Hs; [exact Hs|].
  inversion Hs as [|? ? Hs' Hall]; subst.
  destruct (y =? p); [exact Hs'|].
  constructor; [auto|]. rewrite Forall_forall in *.
  intros x Hx. apply (In_del p x l Hs') in Hx. apply Hall. tauto.
Qed.

Lemma del_ins (p : Z) (l : list Z) : ~ In p l -> del p (ins p l) = l.
Proof.
  induction l as [|y l IH]; cbn; intros Hn.
  - now rewrite Z.eqb_refl.
  - destruct (y <? p) eqn:E; cbn.
    + destruct (Z.eqb_spec y p); [lia|]. f_equal. apply IH. tauto.
    + now rewrite Z.eqb_refl.
Qed.

Lemma ins_del (p : Z) (l : list Z) :
  StronglySorted Z.lt l -> In p l -> ins p (del p l) = l.
Proof.
  induction l as [|y l IH]; cbn; intros Hs Hin; [contradiction|].
  inversion Hs as [|? ? Hs' Hall]; subst. rewrite Forall_forall in Hall.
  destruct (Z.eqb_spec y p) as [->|Hne].
  - destruct l as [|z l]; cbn; [reflexivity|].
    specialize (Hall z (or_introl eq_refl)).
    now replace (z <? p) with false by lia.
  - destruct Hin as [?|Hin]; [contradiction|].
    cbn. specialize (Hall p Hin).
    replace (y <? p) with true by lia. f_equal. now apply IH.
Qed.

Lemma sorted_NoDup (l : list Z) : StronglySorted Z.lt l -> NoDup l.
Proof.
  induction 1 as [|x l Hs IH Hall]; constructor; [|exact IH].
  rewrite Forall_forall in Hall. intros Hx. specialize (Hall x Hx). lia.
Qed.

Lemma sorted_app_inv (l1 l2 : list Z) :
  StronglySorted Z.lt (l1 ++ l2) ->
  StronglySorted Z.lt l1 /\ StronglySorted Z.lt l2 /\
  forall x y, In x l1 -> In y l2 -> x < y.
Proof.
  induction l1 as [|a l1 IH]; cbn; intros Hs.
  - repeat split; [constructor|exact Hs|contradiction].
  - inversion Hs as [|? ? Hs' Hall]; subst. rewrite Forall_forall in Hall.
    destruct (IH Hs') as (H1 & H2 & H3).
    repeat split; [|exact H2|].
    + constructor; [exact H1|]. rewrite Forall_forall. intros x Hx.
      apply Hall. apply in_or_app. now left.
    + intros x y [<-|Hx] Hy; [|now apply H3].
      apply Hall. apply in_or_app. now right.
Qed.

(** Two sorted lists with the same members are the same list. *)
Lemma sorted_ext (l1 l2 : list Z) :
  StronglySorted Z.lt l1 -> StronglySorted Z.lt l2 ->
  (forall x, In x l1 <-> In x l2) -> l1 = l2.
Proof.
  revert l2. induction l1 as [|a l1 IH]; intros [|b l2] H1 H2 Hext.
  - reflexivity.
  - exfalso. apply (proj2 (Hext b)). now left.
  - exfalso. apply (proj1 (Hext a)). now left.
  - inversion H1 as [|? ? H1' Hall1]; subst.
    inversion H2 as [|? ? H2' Hall2]; subst.
    rewrite Forall_forall in Hall1, Hall2.
    assert (a = b) as <-.
    { destruct (proj1 (Hext a) (or_introl eq_refl)) as [->|Ha]; [reflexivity|].
      destruct (proj2 (Hext b) (or_introl eq_refl)) as [->|Hb]; [reflexivity|].
      specialize (Hall1 b Hb). specialize (Hall2 a Ha). lia. }
    f_equal. apply IH; [assumption..|].
    intros x. split; intros Hx.
    + destruct (proj1 (Hext x) (or_intror Hx)) as [<-|]; [|assumption].
      specialize (Hall1 a Hx). lia.
    + destruct (proj2 (Hext x) (or_intror Hx)) as [<-|]; [|assumption].
      specialize (Hall2 a Hx). lia.
Qed.

(** ** The allocator seen through its lists *)

(** The contents of the free lists, by order. *)
Definition lists := Z -> list Z.

Definition upd (A : lists) (n : Z) (l : list Z) : lists :=
  fun m => if m =? n then l else A m.

(** [rep s A]: in state [s], the free list of each order [n] is [A n]. *)
Definition rep (s : state) (A : lists) : Prop :=
  forall n, in_order n -> free_list_is s n (A n).

(** Each list is strictly ascending, holds blocks aligned to their order
    whose PFNs fit 64 bits, and no two listed blocks overlap. *)
Record good (A : lists) : Prop := {
  good_sorted : forall n, in_order n -> StronglySorted Z.lt (A n);
  good_aligned : forall n p, in_order n -> In p (A n) ->
    0 <= p < 2 ^ 64 /\ (2 ^ n | p);
  good_disjoint : forall n m p q, in_order n -> in_order m ->
    In p (A n) -> In q (A m) -> n <> m \/ p <> q ->
    p + 2 ^ n <= q \/ q + 2 ^ m <= p
}.

(** The page [p] is not the first page of any listed block. *)
Definition unlisted (A : lists) (p : Z) : Prop :=
  forall m, in_order m -> ~ In p (A m).

(** The link word of every page that is not at the head of a listed block
    is null. *)
Definition clean (s : state) (A : lists) : Prop :=
  forall q, unlisted A q -> next_free s q = None.

(** No block is on a list together with its buddy. *)
Definition no_free_buddies (A : lists) : Prop :=
  forall n p, 0 <= n < LastOrder -> In p (A n) -> ~ In (get_buddy n p) (A n).

Lemma upd_same (A : lists) (n : Z) (l : list Z) : upd A n l n = l.
Proof. unfold upd. now rewrite Z.eqb_refl. Qed.

Lemma upd_other (A : lists) (n m : Z) (l : list Z) :
  m <> n -> upd A n l m = A m.
Proof. unfold upd. intros H. now destruct (Z.eqb_spec m n). Qed.

Lemma good_separate (A : lists) (n m p : Z) :
  good A -> in_order n -> in_order m -> n <> m -> In p (A n) -> ~ In p (A m).
Proof.
  intros HA Hn Hm Hne Hp Hq.
  pose proof (pow2_pos n (proj1 Hn)). pose proof (pow2_pos m (proj1 Hm)).
  destruct (good_disjoint A HA n m p p Hn Hm Hp Hq (or_introl Hne)); lia.
Qed.

Lemma load_store_same (s : state) (sl : slot) (v : option Z) :
  load (store s sl v) sl = v.
Proof. destruct sl; cbn; now rewrite Z.eqb_refl. Qed.

Lemma load_store_other (s : state) (sl sl' : slot) (v : option Z) :
  sl' <> sl -> load (store s sl v) sl' = load s sl'.
Proof.
  destruct sl as [n|p], sl' as [m|q]; cbn; intros H; try reflexivity.
  - destruct (Z.eqb_spec m n); [congruence|reflexivity].
  - destruct (Z.eqb_spec q p); [congruence|reflexivity].
Qed.

Lemma last_slot_link (sl : slot) (l : list Z) :
  last_slot sl l = sl \/ exists y, In y l /\ last_slot sl l = Link y.
Proof.
  destruct (last_slot_cases sl l) as [(_ & H)|(l' & y & -> & H)]; [now left|].
  right. exists y. split; [|exact H]. apply in_or_app. right. now left.
Qed.

(** A write to the slot at the end of a prefix leaves the prefix in place,
    now leading to what was written. *)
Lemma prefix_store (s s' : state) (l1 : list Z) (v : option Z) :
  forall (sl0 : slot) (t : option Z),
    lseg (next_free s) (load s sl0) l1 t ->
    NoDup l1 -> (forall y, In y l1 -> sl0 <> Link y) ->
    (forall sl, sl <> last_slot sl0 l1 ->
                sl = sl0 \/ (exists y, In y l1 /\ sl = Link y) ->
                load s' sl = load s sl) ->
    load s' (last_slot sl0 l1) = v ->
    lseg (next_free s') (load s' sl0) l1 v.
Proof.
  induction l1 as [|x l1 IH]; intros sl0 t Hseg Hnd Hsl0 Hagree Hlast.
  - exact Hlast.
  - cbn in Hseg. destruct Hseg as (Hload & Hseg).
    apply NoDup_cons_iff in Hnd. destruct Hnd as (Hx & Hnd').
    change (last_slot sl0 (x :: l1)) with (last_slot (Link x) l1) in *.
    cbn [lseg]. split.
    + rewrite Hagree; [exact Hload| |now left].
      destruct (last_slot_link (Link x) l1) as [->|(y & Hy & ->)].
      * apply Hsl0. now left.
      * apply Hsl0. now right.
    + apply (IH (Link x) t Hseg Hnd').
      * intros y Hy [= ->]. contradiction.
      * intros sl Hne [->|(y & Hy & ->)]; apply Hagree; try assumption.
        -- right. exists x. split; [now left|reflexivity].
        -- right. exists y. split; [now right|reflexivity].
      * exact Hlast.
Qed.

Lemma lseg_agree (s s' : state) (l : list Z) (h t : option Z) :
  (forall x, In x l -> load s' (Link x) = load s (Link x)) ->
  lseg (next_free s) h l t -> lseg (next_free s') h l t.
Proof. intros H. apply lseg_frame. exact H. Qed.

Lemma lseg_head (nf : Z -> option Z) (h : option Z) (l : list Z) (t : option Z) :
  lseg nf h l t -> h = match l with [] => t | y :: _ => Some y end.
Proof. destruct l; cbn; [auto|]. now intros (-> & _). Qed.

(** A list other than the one being worked on stays as it is. *)
Lemma rep_other (s s' : state) (A : lists) (m : Z) :
  rep s A -> in_order m ->
  load s' (Head m) = load s (Head m) ->
  (forall x, In x (A m) -> load s' (Link x) = load s (Link x)) ->
  free_list_is s' m (A m).
Proof.
  intros Hrep Hm Hhead Hagree. unfold free_list_is.
  change (free_list_ s' m) with (load s' (Head m)). rewrite Hhead.
  apply (lseg_agree s s' _ _ _ Hagree). exact (Hrep m Hm).
Qed.

Lemma get_slot_unfold (s : state) (order target : Z) :
  get_slot s order target =
  (_ <- assert (in_range order);;
   _ <- assert (block_aligned order target);;
   sl <- while (walk_cond (fun q => q <? target) s) (next_slot s) FUEL
           (Head order);;
   _ <- assert (negb (ptr_eqb (load s sl) (Some target)));;
   Ret sl).
Proof. reflexivity. Qed.

Lemma get_candidate_slot_unfold (s : state) (order target : Z) :
  get_candidate_slot s order target =
  (_ <- assert (in_range order);;
   _ <- assert (block_aligned order target);;
   sl <- while (walk_cond (fun q => negb (q =? target)) s) (next_slot s) FUEL
           (Head order);;
   _ <- assert (ptr_eqb (load s sl) (Some target));;
   Ret sl).
Proof. reflexivity. Qed.

(** Where [get_slot] stops: between the listed blocks below the target and
    those above it. *)
Lemma get_slot_spec (s : state) (A : lists) (n p : Z) :
  rep s A -> good A -> in_order n -> (2 ^ n | p) -> ~ In p (A n) ->
  exists l1 l2,
    A n = l1 ++ l2 /\ ins p (A n) = l1 ++ p :: l2 /\
    get_slot s n p = Ret (last_slot (Head n) l1) /\
    lseg (next_free s) (load s (last_slot (Head n) l1)) l2 None.
Proof.
  intros Hrep HA Hn Hal Hnin.
  destruct (walk_while (fun q => q <? p) s (A n) (Head n) (Hrep n Hn)
              (good_sorted A HA n Hn)
              (fun x Hx => proj1 (good_aligned A HA n x Hn Hx)))
    as (l1 & l2 & Hl & Hall & Hhd & Hrun & Hrest).
  exists l1, l2. split; [exact Hl|]. split.
  { rewrite Hl. now apply ins_split. }
  split; [|exact Hrest].
  rewrite get_slot_unfold.
  replace (in_range n) with true by (symmetry; now apply in_range_iff).
  replace (block_aligned n p) with true
    by (symmetry; apply block_aligned_iff; [apply Hn|exact Hal]).
  cbn [assert bind]. rewrite Hrun. cbn [bind].
  rewrite (lseg_head _ _ _ _ Hrest).
  destruct l2 as [|y l2]; cbn; [reflexivity|].
  destruct (Z.eqb_spec y p) as [->|]; [|reflexivity].
  exfalso. apply Hnin. rewrite Hl. apply in_or_app. right. now left.
Qed.

(** Where [get_candidate_slot] stops when the target is on the list. *)
Lemma get_candidate_slot_spec (s : state) (A : lists) (n p : Z) :
  rep s A -> good A -> in_order n -> In p (A n) ->
  exists l1 l2,
    A n = l1 ++ p :: l2 /\ del p (A n) = l1 ++ l2 /\
    get_candidate_slot s n p = Ret (last_slot (Head n) l1) /\
    lseg (next_free s) (load s (last_slot (Head n) l1)) (p :: l2) None.
Proof.
  intros Hrep HA Hn Hin.
  destruct (walk_while (fun q => negb (q =? p)) s (A n) (Head n) (Hrep n Hn)
              (good_sorted A HA n Hn)
              (fun x Hx => proj1 (good_aligned A HA n x Hn Hx)))
    as (l1 & l2 & Hl & Hall & Hhd & Hrun & Hrest).
  assert (Hnin1 : ~ In p l1).
  { intros H. rewrite forallb_forall in Hall. specialize (Hall p H).
    rewrite Z.eqb_refl in Hall. discriminate. }
  destruct l2 as [|y l2].
  { exfalso. rewrite Hl, app_nil_r in Hin. contradiction. }
  apply negb_false_iff, Z.eqb_eq in Hhd. subst y.
  exists l1, l2. split; [exact Hl|]. split.
  { rewrite Hl. now apply del_split. }
  split; [|exact Hrest].
  rewrite get_candidate_slot_unfold.
  replace (in_range n) with true by (symmetry; now apply in_range_iff).
  replace (block_aligned n p) with true
    by (symmetry; apply block_aligned_iff;
        [apply Hn|exact (proj2 (good_aligned A HA n p Hn Hin))]).
  cbn [assert bind]. rewrite Hrun. cbn [bind].
  rewrite (lseg_head _ _ _ _ Hrest). cbn. now rewrite Z.eqb_refl.
Qed.

(** When the target is not on the list, [get_candidate_slot] stops the
    kernel (the assertion at its end, if not an earlier one). *)
Lemma get_candidate_slot_missing (s : state) (A : lists) (n p : Z) :
  rep s A -> good A -> in_order n -> ~ In p (A n) ->
  get_candidate_slot s n p = Stop Assertion.
Proof.
  intros Hrep HA Hn Hnin.
  destruct (walk_while (fun q => negb (q =? p)) s (A n) (Head n) (Hrep n Hn)
              (good_sorted A HA n Hn)
              (fun x Hx => proj1 (good_aligned A HA n x Hn Hx)))
    as (l1 & l2 & Hl & Hall & Hhd & Hrun & Hrest).
  rewrite get_candidate_slot_unfold.
  replace (in_range n) with true by (symmetry; now apply in_range_iff).
  cbn [assert bind].
  destruct (block_aligned n p); cbn [assert bind]; [|reflexivity].
  rewrite Hrun. cbn [bind]. rewrite (lseg_head _ _ _ _ Hrest).
  destruct l2 as [|y l2]; [reflexivity|].
  apply negb_false_iff, Z.eqb_eq in Hhd. subst y.
  exfalso. apply Hnin. rewrite Hl. apply in_or_app. right. now left.
Qed.

Lemma lseg_prefix_last (s : state) (l1 l2 : list Z) (t : option Z) :
  forall sl0,
    lseg (next_free s) (load s sl0) (l1 ++ l2) t ->
    lseg (next_free s) (load s sl0) l1 (load s (last_slot sl0 l1)).
Proof.
  induction l1 as [|x l1 IH]; intros sl0; cbn [app lseg].
  - reflexivity.
  - intros (Hload & Hseg). split; [exact Hload|].
    exact (IH (Link x) Hseg).
Qed.

Lemma NoDup_app_disjoint (l1 l2 : list Z) :
  NoDup (l1 ++ l2) -> forall x, In x l1 -> In x l2 -> False.
Proof.
  induction l1 as [|a l1 IH]; cbn; intros Hnd x H1 H2; [contradiction|].
  apply NoDup_cons_iff in Hnd. destruct Hnd as (Ha & Hnd).
  destruct H1 as [->|H1]; [|exact (IH Hnd x H1 H2)].
  apply Ha. apply in_or_app. now right.
Qed.

Lemma del_split_notin (p : Z) (l1 l2 : list Z) :
  ~ In p l1 -> del p (l1 ++ p :: l2) = l1 ++ l2.
Proof.
  intros H. apply del_split. apply forallb_forall. intros x Hx.
  apply negb_true_iff, Z.eqb_neq. intros ->. contradiction.
Qed.

(** [insert_free_block] puts the block at its place in the list of its
    order and leaves the other lists alone. *)
Lemma insert_free_block_spec (s : state) (A : lists) (n p : Z) :
  rep s A -> good A -> in_order n -> (2 ^ n | p) -> unlisted A p ->
  exists s',
    insert_free_block s n p = Ret s' /\
    rep s' (upd A n (ins p (A n))) /\
    (clean s A -> clean s' (upd A n (ins p (A n)))).
Proof.
  intros Hrep HA Hn Hal Hun.
  destruct (get_slot_spec s A n p Hrep HA Hn Hal (Hun n Hn))
    as (l1 & l2 & Hl & Hins & Hget & Hrest).
  pose proof (sorted_NoDup _ (good_sorted A HA n Hn)) as Hnd.
  rewrite Hl in Hnd.
  assert (Hp1 : ~ In p l1).
  { intros H. apply (Hun n Hn). rewrite Hl. apply in_or_app. now left. }
  assert (Hp2 : ~ In p l2).
  { intros H. apply (Hun n Hn). rewrite Hl. apply in_or_app. now right. }
  unfold insert_free_block. rewrite Hget. cbn [bind].
  set (sl := last_slot (Head n) l1) in *.
  set (s' := store (set_next_free s p (load s sl)) sl (Some p)).
  exists s'. split; [reflexivity|].
  assert (Hsl : sl = Head n \/ exists y, In y l1 /\ sl = Link y)
    by apply last_slot_link.
  assert (Hslp : sl <> Link p).
  { destruct Hsl as [->|(y & Hy & ->)]; [discriminate|]. intros [= ->]. auto. }
  assert (F1 : forall sl', sl' <> sl -> sl' <> Link p ->
                           load s' sl' = load s sl').
  { intros sl' H1 H2. unfold s'. rewrite load_store_other by exact H1.
    change (set_next_free s p (load s sl)) with (store s (Link p) (load s sl)).
    now rewrite load_store_other. }
  assert (F2 : load s' sl = Some p) by apply load_store_same.
  assert (F3 : load s' (Link p) = load s sl).
  { unfold s'. rewrite load_store_other by congruence.
    change (set_next_free s p (load s sl)) with (store s (Link p) (load s sl)).
    apply load_store_same. }
  split.
  - intros m Hm. destruct (Z.eq_dec m n) as [->|Hmn].
    + rewrite upd_same, Hins. unfold free_list_is.
      change (free_list_ s' n) with (load s' (Head n)).
      apply lseg_app. exists (Some p). split.
      * apply (prefix_store s s' l1 (Some p) (Head n) (load s sl)).
        -- apply (lseg_prefix_last s l1 l2 None). rewrite <- Hl. exact (Hrep n Hn).
        -- now apply NoDup_app_remove_r in Hnd.
        -- discriminate.
        -- intros sl' Hne [->|(y & Hy & ->)]; apply F1; try assumption;
             try discriminate. intros [= ->]. auto.
        -- exact F2.
      * cbn [lseg]. split; [reflexivity|].
        change (next_free s' p) with (load s' (Link p)). rewrite F3.
        apply (lseg_agree s s'); [|exact Hrest].
        intros x Hx. apply F1; [|intros [= ->]; auto].
        destruct Hsl as [->|(y & Hy & ->)]; [discriminate|]. intros [= ->].
        exact (NoDup_app_disjoint _ _ Hnd y Hy Hx).
    + rewrite upd_other by exact Hmn. apply (rep_other s s' A m Hrep Hm).
      * apply F1; [|discriminate].
        destruct Hsl as [->|(y & Hy & ->)]; [congruence|discriminate].
      * intros x Hx. apply F1.
        -- destruct Hsl as [->|(y & Hy & ->)]; [discriminate|]. intros [= ->].
           apply (good_separate A n m y HA Hn Hm (not_eq_sym Hmn));
             [|exact Hx].
           rewrite Hl. apply in_or_app. now left.
        -- intros [= ->]. exact (Hun m Hm Hx).
  - intros Hc q Hq. change (next_free s' q) with (load s' (Link q)).
    assert (Hqn : ~ In q (ins p (A n))).
    { specialize (Hq n Hn). now rewrite upd_same in Hq. }
    rewrite F1.
    + apply Hc. intros m Hm Hin. destruct (Z.eq_dec m n) as [->|Hmn].
      * apply Hqn. apply In_ins. now right.
      * apply (Hq m Hm). now rewrite upd_other.
    + destruct Hsl as [->|(y & Hy & ->)]; [discriminate|]. intros [= ->].
      apply Hqn. apply In_ins. right. rewrite Hl. apply in_or_app. now left.
    + intros [= ->]. apply Hqn. apply In_ins. now left.
Qed.

(** [remove_free_block] takes a listed block off the list of its order,
    clears its link and leaves the other lists alone. *)
Lemma remove_free_block_spec (s : state) (A : lists) (n p : Z) :
  rep s A -> good A -> in_order n -> In p (A n) ->
  exists s',
    remove_free_block s n p = Ret s' /\
    rep s' (upd A n (del p (A n))) /\
    (clean s A -> clean s' (upd A n (del p (A n)))).
Proof.
  intros Hrep HA Hn Hin.
  destruct (get_candidate_slot_spec s A n p Hrep HA Hn Hin)
    as (l1 & l2 & Hl & Hdel & Hget & Hrest).
  pose proof (sorted_NoDup _ (good_sorted A HA n Hn)) as Hnd.
  rewrite Hl in Hnd.
  pose proof (NoDup_remove_2 _ _ _ Hnd) as Hp12.
  pose proof (NoDup_remove_1 _ _ _ Hnd) as Hnd12.
  assert (Hp1 : ~ In p l1) by (intros H; apply Hp12, in_or_app; now left).
  assert (Hp2 : ~ In p l2) by (intros H; apply Hp12, in_or_app; now right).
  unfold remove_free_block. rewrite Hget. cbn [bind].
  set (sl := last_slot (Head n) l1) in *.
  set (s' := set_next_free (store s sl (next_free s p)) p None).
  exists s'. split; [reflexivity|].
  assert (Hsl : sl = Head n \/ exists y, In y l1 /\ sl = Link y)
    by apply last_slot_link.
  assert (Hslp : sl <> Link p).
  { destruct Hsl as [->|(y & Hy & ->)]; [discriminate|]. intros [= ->]. auto. }
  assert (F1 : forall sl', sl' <> sl -> sl' <> Link p ->
                           load s' sl' = load s sl').
  { intros sl' H1 H2. unfold s'.
    change (set_next_free ?t p None) with (store t (Link p) None).
    now rewrite !load_store_other. }
  assert (F2 : load s' sl = next_free s p).
  { unfold s'. change (set_next_free ?t p None) with (store t (Link p) None).
    rewrite load_store_other by exact Hslp. apply load_store_same. }
  assert (F3 : load s' (Link p) = None).
  { unfold s'. change (set_next_free ?t p None) with (store t (Link p) None).
    apply load_store_same. }
  cbn [lseg] in Hrest. destruct Hrest as (Hloadsl & Hrest).
  split.
  - intros m Hm. destruct (Z.eq_dec m n) as [->|Hmn].
    + rewrite upd_same, Hdel. unfold free_list_is.
      change (free_list_ s' n) with (load s' (Head n)).
      apply lseg_app. exists (next_free s p). split.
      * apply (prefix_store s s' l1 (next_free s p) (Head n) (load s sl)).
        -- apply (lseg_prefix_last s l1 (p :: l2) None). rewrite <- Hl.
           exact (Hrep n Hn).
        -- now apply NoDup_app_remove_r in Hnd12.
        -- discriminate.
        -- intros sl' Hne [->|(y & Hy & ->)]; apply F1; try assumption;
             try discriminate. intros [= ->]. auto.
        -- exact F2.
      * apply (lseg_agree s s'); [|exact Hrest].
        intros x Hx. apply F1; [|intros [= ->]; auto].
        destruct Hsl as [->|(y & Hy & ->)]; [discriminate|]. intros [= ->].
        exact (NoDup_app_disjoint _ _ Hnd12 y Hy Hx).
    + rewrite upd_other by exact Hmn. apply (rep_other s s' A m Hrep Hm).
      * apply F1; [|discriminate].
        destruct Hsl as [->|(y & Hy & ->)]; [congruence|discriminate].
      * intros x Hx. apply F1.
        -- destruct Hsl as [->|(y & Hy & ->)]; [discriminate|]. intros [= ->].
           apply (good_separate A n m y HA Hn Hm (not_eq_sym Hmn));
             [|exact Hx].
           rewrite Hl. apply in_or_app. now left.
        -- intros [= ->].
           exact (good_separate A n m p HA Hn Hm (not_eq_sym Hmn) Hin Hx).
  - intros Hc q Hq. change (next_free s' q) with (load s' (Link q)).
    destruct (Z.eq_dec q p) as [->|Hqp]; [exact F3|].
    assert (Hqn : ~ In q (A n)).
    { intros H. apply (Hq n Hn). rewrite upd_same.
      apply In_del; [exact (good_sorted A HA n Hn)|]. now split. }
    rewrite F1.
    + apply Hc. intros m Hm H. destruct (Z.eq_dec m n) as [->|Hmn]; [auto|].
      apply (Hq m Hm). now rewrite upd_other.
    + destruct Hsl as [->|(y & Hy & ->)]; [discriminate|]. intros [= ->].
      apply Hqn. rewrite Hl. apply in_or_app. now left.
    + congruence.
Qed.

(** [remove_buddies] on a listed block whose link points to [b]: [b] is the
    next block of the list, and both come off the list. *)
Lemma remove_buddies_spec (s : state) (A : lists) (n a b : Z) :
  rep s A -> good A -> in_order n -> In a (A n) -> next_free s a = Some b ->
  In b (A n) /\
  exists s',
    remove_buddies s n a = Ret s' /\
    rep s' (upd A n (del b (del a (A n)))) /\
    (clean s A -> clean s' (upd A n (del b (del a (A n))))).
Proof.
  intros Hrep HA Hn Hin Hnf.
  destruct (get_candidate_slot_spec s A n a Hrep HA Hn Hin)
    as (l1 & l2 & Hl & Hdel & Hget & Hrest).
  cbn [lseg] in Hrest. destruct Hrest as (Hloadsl & Hrest).
  pose proof (lseg_head _ _ _ _ Hrest) as Hhd. rewrite Hnf in Hhd.
  destruct l2 as [|b' l2]; [discriminate|]. injection Hhd as <-.
  cbn [lseg] in Hrest. destruct Hrest as (_ & Hrest).
  assert (Hinb : In b (A n)).
  { rewrite Hl. apply in_or_app. right. right. now left. }
  split; [exact Hinb|].
  pose proof (sorted_NoDup _ (good_sorted A HA n Hn)) as Hnd.
  rewrite Hl in Hnd.
  pose proof (NoDup_remove_2 _ _ _ Hnd) as Ha12.
  pose proof (NoDup_remove_1 _ _ _ Hnd) as Hnd1.
  pose proof (NoDup_remove_2 _ _ _ Hnd1) as Hb12.
  pose proof (NoDup_remove_1 _ _ _ Hnd1) as Hnd2.
  assert (Hab : a <> b).
  { intros ->. apply Ha12. apply in_or_app. right. now left. }
  assert (Ha1 : ~ In a l1) by (intros H; apply Ha12, in_or_app; now left).
  assert (Ha2 : ~ In a l2) by (intros H; apply Ha12, in_or_app; right; now right).
  assert (Hb1 : ~ In b l1) by (intros H; apply Hb12, in_or_app; now left).
  assert (Hb2 : ~ In b l2) by (intros H; apply Hb12, in_or_app; now right).
  assert (Hdel2 : del b (del a (A n)) = l1 ++ l2).
  { rewrite Hdel. now apply del_split_notin. }
  unfold remove_buddies. rewrite Hget. cbn [bind]. rewrite Hnf.
  replace (block_aligned n b) with true
    by (symmetry; apply block_aligned_iff;
        [apply Hn|exact (proj2 (good_aligned A HA n b Hn Hinb))]).
  cbn [assert bind].
  set (sl := last_slot (Head n) l1) in *.
  set (s' := set_next_free
               (set_next_free (store s sl (next_free s b)) b None) a None).
  exists s'. split; [reflexivity|].
  assert (Hsl : sl = Head n \/ exists y, In y l1 /\ sl = Link y)
    by apply last_slot_link.
  assert (Hsla : sl <> Link a).
  { destruct Hsl as [->|(y & Hy & ->)]; [discriminate|]. intros [= ->]. auto. }
  assert (Hslb : sl <> Link b).
  { destruct Hsl as [->|(y & Hy & ->)]; [discriminate|]. intros [= ->]. auto. }
  assert (F1 : forall sl', sl' <> sl -> sl' <> Link a -> sl' <> Link b ->
                           load s' sl' = load s sl').
  { intros sl' H1 H2 H3. unfold s'.
    change (set_next_free ?t a None) with (store t (Link a) None).
    change (set_next_free ?t b None) with (store t (Link b) None).
    now rewrite !load_store_other. }
  assert (F2 : load s' sl = next_free s b).
  { unfold s'.
    change (set_next_free ?t a None) with (store t (Link a) None).
    change (set_next_free ?t b None) with (store t (Link b) None).
    rewrite !load_store_other by assumption. apply load_store_same. }
  assert (F3a : load s' (Link a) = None).
  { unfold s'. change (set_next_free ?t a None) with (store t (Link a) None).
    apply load_store_same. }
  assert (F3b : load s' (Link b) = None).
  { unfold s'.
    change (set_next_free ?t a None) with (store t (Link a) None).
    change (set_next_free ?t b None) with (store t (Link b) None).
    rewrite load_store_other by congruence. apply load_store_same. }
  split.
  - intros m Hm. destruct (Z.eq_dec m n) as [->|Hmn].
    + rewrite upd_same, Hdel2. unfold free_list_is.
      change (free_list_ s' n) with (load s' (Head n)).
      apply lseg_app. exists (next_free s b). split.
      * apply (prefix_store s s' l1 (next_free s b) (Head n) (load s sl)).
        -- apply (lseg_prefix_last s l1 (a :: b :: l2) None). rewrite <- Hl.
           exact (Hrep n Hn).
        -- now apply NoDup_app_remove_r in Hnd2.
        -- discriminate.
        -- intros sl' Hne [->|(y & Hy & ->)]; apply F1; try assumption;
             try discriminate; intros [= ->]; auto.
        -- exact F2.
      * apply (lseg_agree s s'); [|exact Hrest].
        intros x Hx. apply F1; try (intros [= ->]; now auto).
        destruct Hsl as [->|(y & Hy & ->)]; [discriminate|]. intros [= ->].
        exact (NoDup_app_disjoint _ _ Hnd2 y Hy Hx).
    + rewrite upd_other by exact Hmn. apply (rep_other s s' A m Hrep Hm).
      * apply F1; try discriminate.
        destruct Hsl as [->|(y & Hy & ->)]; [congruence|discriminate].
      * intros x Hx. apply F1.
        -- destruct Hsl as [->|(y & Hy & ->)]; [discriminate|]. intros [= ->].
           apply (good_separate A n m y HA Hn Hm (not_eq_sym Hmn));
             [|exact Hx].
           rewrite Hl. apply in_or_app. now left.
        -- intros [= ->].
           exact (good_separate A n m a HA Hn Hm (not_eq_sym Hmn) Hin Hx).
        -- intros [= ->].
           exact (good_separate A n m b HA Hn Hm (not_eq_sym Hmn) Hinb Hx).
  - intros Hc q Hq. change (next_free s' q) with (load s' (Link q)).
    destruct (Z.eq_dec q a) as [->|Hqa]; [exact F3a|].
    destruct (Z.eq_dec q b) as [->|Hqb]; [exact F3b|].
    assert (Hqn : ~ In q (A n)).
    { intros H. apply (Hq n Hn). rewrite upd_same, Hdel2.
      rewrite Hl in H. apply in_app_or in H.
      destruct H as [H|[H|[H|H]]]; try congruence; apply in_or_app; auto. }
    rewrite F1.
    + apply Hc. intros m Hm H. destruct (Z.eq_dec m n) as [->|Hmn]; [auto|].
      apply (Hq m Hm). now rewrite upd_other.
    + destruct Hsl as [->|(y & Hy & ->)]; [discriminate|]. intros [= ->].
      apply Hqn. rewrite Hl. apply in_or_app. now left.
    + congruence.
    + congruence.
Qed.

(** [insert_buddies] into an empty list. *)
Lemma insert_buddies_spec (s : state) (A : lists) (n a b : Z) :
  rep s A -> good A -> in_order n -> A n = [] ->
  (2 ^ n | a) -> (2 ^ n | b) -> a <> b -> unlisted A a -> unlisted A b ->
  exists s',
    insert_buddies s n a b = Ret s' /\
    rep s' (upd A n [a; b]) /\
    (clean s A -> clean s' (upd A n [a; b])).
Proof.
  intros Hrep HA Hn Hnil Hala Halb Hab Hua Hub.
  destruct (get_slot_spec s A n a Hrep HA Hn Hala (Hua n Hn))
    as (l1 & l2 & Hl & Hins & Hget & Hrest).
  rewrite Hnil in Hl. symmetry in Hl. apply app_eq_nil in Hl.
  destruct Hl as (-> & ->). cbn in Hget, Hrest.
  unfold insert_buddies. rewrite Hget. cbn [bind].
  replace (block_aligned n b) with true
    by (symmetry; apply block_aligned_iff; [apply Hn|exact Halb]).
  cbn [assert bind].
  set (s1 := set_next_free s a (Some b)).
  set (s' := store (set_next_free s1 b (load s1 (Head n))) (Head n) (Some a)).
  exists s'. split; [reflexivity|].
  assert (F1 : forall sl', sl' <> Head n -> sl' <> Link a -> sl' <> Link b ->
                           load s' sl' = load s sl').
  { intros sl' H1 H2 H3. unfold s', s1.
    change (set_next_free ?t b ?v) with (store t (Link b) v).
    change (set_next_free ?t a ?v) with (store t (Link a) v).
    now rewrite !load_store_other. }
  split.
  - intros m Hm. destruct (Z.eq_dec m n) as [->|Hmn].
    + rewrite upd_same. unfold free_list_is, s', s1. cbn.
      rewrite !Z.eqb_refl.
      destruct (Z.eqb_spec a b) as [|_]; [contradiction|].
      auto.
    + rewrite upd_other by exact Hmn. apply (rep_other s s' A m Hrep Hm).
      * apply F1; congruence.
      * intros x Hx. apply F1; try discriminate.
        -- intros [= ->]. exact (Hua m Hm Hx).
        -- intros [= ->]. exact (Hub m Hm Hx).
  - intros Hc q Hq. change (next_free s' q) with (load s' (Link q)).
    assert (Hqn : ~ In q [a; b]).
    { specialize (Hq n Hn). now rewrite upd_same in Hq. }
    rewrite F1.
    + apply Hc. intros m Hm H. destruct (Z.eq_dec m n) as [->|Hmn].
      * rewrite Hnil in H. contradiction.
      * apply (Hq m Hm). now rewrite upd_other.
    + discriminate.
    + intros [= ->]. apply Hqn. now left.
    + intros [= ->]. apply Hqn. right. now left.
Qed.

(** ** Invariants of the lists *)

(** No listed block meets the page range [[lo, hi)]. *)
Definition avoids (A : lists) (lo hi : Z) : Prop :=
  forall m q, in_order m -> In q (A m) -> q + 2 ^ m <= lo \/ hi <= q.

(** The block of order [n] at [p] overlaps no listed block. *)
Definition apart (A : lists) (n p : Z) : Prop := avoids A p (p + 2 ^ n).

Lemma In_upd (A : lists) (n m x : Z) (l : list Z) :
  In x (upd A n l m) <-> (m = n /\ In x l) \/ (m <> n /\ In x (A m)).
Proof.
  unfold upd. destruct (Z.eqb_spec m n); intuition.
Qed.

Lemma apart_unlisted (A : lists) (n p : Z) :
  0 <= n -> apart A n p -> unlisted A p.
Proof.
  intros Hn Hap m Hm Hin.
  pose proof (pow2_pos n Hn). pose proof (pow2_pos m (proj1 Hm)).
  destruct (Hap m p Hm Hin); lia.
Qed.

(** Lists made of old blocks and of new ones that are aligned, in range and
    clear of every other block now listed. *)
Lemma good_grow (A A' : lists) (new : Z -> Z -> Prop) :
  good A ->
  (forall m, in_order m -> StronglySorted Z.lt (A' m)) ->
  (forall m x, in_order m -> In x (A' m) -> In x (A m) \/ new m x) ->
  (forall m x, in_order m -> new m x -> 0 <= x < 2 ^ 64 /\ (2 ^ m | x)) ->
  (forall m x m' x', in_order m -> in_order m' -> new m x -> In x' (A' m') ->
                     m <> m' \/ x <> x' ->
                     x + 2 ^ m <= x' \/ x' + 2 ^ m' <= x) ->
  good A'.
Proof.
  intros HA Hs Hmem Hnew Hnn. constructor.
  - exact Hs.
  - intros n p Hn Hp. destruct (Hmem n p Hn Hp) as [H|H].
    + exact (good_aligned A HA n p Hn H).
    + exact (Hnew n p Hn H).
  - intros n m p q Hn Hm Hp Hq Hne.
    destruct (Hmem n p Hn Hp) as [H1|H1].
    + destruct (Hmem m q Hm Hq) as [H2|H2].
      * exact (good_disjoint A HA n m p q Hn Hm H1 H2 Hne).
      * assert (Hne' : m <> n \/ q <> p) by (destruct Hne; auto).
        destruct (Hnn m q n p Hm Hn H2 Hp Hne'); lia.
    + exact (Hnn n p m q Hn Hm H1 Hq Hne).
Qed.

Lemma good_del (A : lists) (n p : Z) :
  good A -> good (upd A n (del p (A n))).
Proof.
  intros HA. apply (good_grow A _ (fun _ _ => False) HA).
  - intros m Hm. unfold upd. destruct (Z.eqb_spec m n) as [->|].
    + apply sorted_del. exact (good_sorted A HA n Hm).
    + exact (good_sorted A HA m Hm).
  - intros m x Hm Hx. left. apply In_upd in Hx.
    destruct Hx as [(-> & Hx)|(_ & Hx)]; [|exact Hx].
    apply (In_del p x (A n) (good_sorted A HA n Hm)) in Hx. tauto.
  - contradiction.
  - contradiction.
Qed.

Lemma good_ins (A : lists) (n p : Z) :
  good A -> in_order n -> 0 <= p < 2 ^ 64 -> (2 ^ n | p) -> apart A n p ->
  good (upd A n (ins p (A n))).
Proof.
  intros HA Hn Hp Hal Hap.
  apply (good_grow A _ (fun m x => m = n /\ x = p) HA).
  - intros m Hm. unfold upd. destruct (Z.eqb_spec m n) as [->|].
    + apply sorted_ins; [exact (good_sorted A HA n Hm)|].
      exact (apart_unlisted A n p (proj1 Hn) Hap n Hn).
    + exact (good_sorted A HA m Hm).
  - intros m x Hm Hx. apply In_upd in Hx.
    destruct Hx as [(-> & Hx)|(_ & Hx)]; [|now left].
    apply In_ins in Hx. destruct Hx as [->|Hx]; [right|left]; auto.
  - intros m x Hm (-> & ->). auto.
  - intros m x m' x' _ Hm' (-> & ->) Hx' Hne. apply In_upd in Hx'.
    destruct Hx' as [(-> & Hx')|(_ & Hx')].
    + apply In_ins in Hx'. destruct Hx' as [->|Hx']; [destruct Hne; congruence|].
      destruct (Hap n x' Hn Hx'); lia.
    + destruct (Hap m' x' Hm' Hx'); lia.
Qed.

Lemma avoids_del (A : lists) (n p lo hi : Z) :
  good A -> avoids A lo hi -> avoids (upd A n (del p (A n))) lo hi.
Proof.
  intros HA Hav m q Hm Hq. apply In_upd in Hq.
  destruct Hq as [(-> & Hq)|(_ & Hq)]; [|exact (Hav m q Hm Hq)].
  apply (In_del p q (A n) (good_sorted A HA n Hm)) in Hq.
  apply (Hav n q Hm). tauto.
Qed.

Lemma avoids_ins (A : lists) (n p lo hi : Z) :
  avoids A lo hi -> p + 2 ^ n <= lo \/ hi <= p ->
  avoids (upd A n (ins p (A n))) lo hi.
Proof.
  intros Hav Hp m q Hm Hq. apply In_upd in Hq.
  destruct Hq as [(-> & Hq)|(_ & Hq)]; [|exact (Hav m q Hm Hq)].
  apply In_ins in Hq. destruct Hq as [->|Hq]; [exact Hp|exact (Hav n q Hm Hq)].
Qed.

(** *** Merging, on the lists *)

(** The lists after the buddies at [first] and [first + 2^k] have been
    taken off the list of order [k] and the block at [first] has been put
    on the list of order [k + 1]. *)
Definition merged (A : lists) (k first : Z) : lists :=
  upd (upd A k (del (first + 2 ^ k) (del first (A k)))) (k + 1)
      (ins first (A (k + 1))).

(** The lists after [iterative_merge], which starts from the listed block
    [b] of order [k] and has at most [n] rounds to go. *)
Fixpoint merge_lists (n : nat) (A : lists) (k b : Z) : lists :=
  match n with
  | O => A
  | S n' =>
      let b2 := get_buddy k b in
      if in_dec Z.eq_dec b2 (A k)
      then
        let first := if b <? b2 then b else b2 in
        merge_lists n' (merged A k first) (k + 1) first
      else A
  end.

(** The lists after [free_pages]. *)
Definition free_lists (A : lists) (n p : Z) : lists :=
  merge_lists (Z.to_nat (LastOrder - n)) (upd A n (ins p (A n))) n p.

Lemma In_merged (A : lists) (k first m x : Z) :
  good A -> in_order k ->
  In x (merged A k first m) <->
  (m = k + 1 /\ (x = first \/ In x (A (k + 1)))) \/
  (m = k /\ x <> first /\ x <> first + 2 ^ k /\ In x (A k)) \/
  (m <> k /\ m <> k + 1 /\ In x (A m)).
Proof.
  intros HA Hk. unfold merged. rewrite In_upd, In_upd, In_ins.
  pose proof (good_sorted A HA k Hk) as Hs.
  rewrite (In_del _ _ _ (sorted_del first _ Hs)), (In_del _ _ _ Hs).
  split.
  - intros [(-> & H)|(Hne & [(-> & H)|(Hne' & H)])]; [now left|right; left|right; right];
      tauto.
  - intros [(-> & H)|[(-> & H)|(H1 & H2 & H)]].
    + now left.
    + right. split; [lia|]. left. tauto.
    + right. split; [exact H2|]. right. tauto.
Qed.

Lemma good_merged (A : lists) (k first : Z) :
  good A -> 0 <= k < LastOrder ->
  In first (A k) -> In (first + 2 ^ k) (A k) -> (2 ^ (k + 1) | first) ->
  good (merged A k first).
Proof.
  intros HA Hk H1 H2 Hal.
  assert (Hk0 : in_order k) by (unfold in_order; lia).
  assert (Hk1 : in_order (k + 1)) by (unfold in_order; lia).
  pose proof (pow2_pos k (proj1 Hk)) as Hpos.
  pose proof (pow2_succ k (proj1 Hk)) as Hsucc.
  pose proof (good_aligned A HA k first Hk0 H1) as (Hb1 & _).
  assert (Hap : forall m q, in_order m -> In q (A m) ->
                  (m = k /\ (q = first \/ q = first + 2 ^ k)) \/
                  (q + 2 ^ m <= first \/ first + 2 ^ (k + 1) <= q)).
  { intros m q Hm Hq.
    destruct (Z.eq_dec m k) as [->|Hmk].
    - destruct (Z.eq_dec q first) as [->|Hq1]; [left; auto|].
      destruct (Z.eq_dec q (first + 2 ^ k)) as [->|Hq2]; [left; auto|].
      right.
      pose proof (good_disjoint A HA k k q first Hk0 Hk0 Hq H1 (or_intror Hq1)).
      pose proof (good_disjoint A HA k k q (first + 2 ^ k) Hk0 Hk0 Hq H2
                    (or_intror Hq2)).
      lia.
    - right. pose proof (pow2_pos m (proj1 Hm)).
      pose proof (good_disjoint A HA m k q first Hm Hk0 Hq H1 (or_introl Hmk)).
      pose proof (good_disjoint A HA m k q (first + 2 ^ k) Hm Hk0 Hq H2
                    (or_introl Hmk)).
      lia. }
  apply (good_grow A _ (fun m x => m = k + 1 /\ x = first) HA).
  - intros m Hm. unfold merged, upd.
    destruct (Z.eqb_spec m (k + 1)) as [->|].
    + apply sorted_ins; [exact (good_sorted A HA _ Hm)|].
      intros Hin. destruct (Hap (k + 1) first Hm Hin) as [(? & _)|?]; lia.
    + destruct (Z.eqb_spec m k) as [->|].
      * apply sorted_del, sorted_del. exact (good_sorted A HA k Hm).
      * exact (good_sorted A HA m Hm).
  - intros m x Hm Hx. apply (In_merged A k first m x HA Hk0) in Hx.
    destruct Hx as [(-> & [->|Hx])|[(-> & _ & _ & Hx)|(_ & _ & Hx)]]; auto.
  - intros m x Hm (-> & ->). split; [exact Hb1|exact Hal].
  - intros m x m' x' _ Hm' (-> & ->) Hx' Hne.
    apply (In_merged A k first m' x' HA Hk0) in Hx'.
    destruct Hx' as [(-> & [->|Hx'])|[(-> & Hn1 & Hn2 & Hx')|(Hn1 & Hn2 & Hx')]].
    + destruct Hne; congruence.
    + destruct (Hap (k + 1) x' Hm' Hx') as [(? & _)|?]; lia.
    + destruct (Hap k x' Hm' Hx') as [(_ & [?|?])|?]; try congruence; lia.
    + destruct (Hap m' x' Hm' Hx') as [(? & _)|?]; [congruence|lia].
Qed.

(** ** Merging, in memory *)

Lemma ptr_eqb_some (a : option Z) (y : Z) :
  ptr_eqb a (Some y) = true <-> a = Some y.
Proof.
  destruct a as [x|]; cbn.
  - rewrite Z.eqb_eq. split; congruence.
  - split; discriminate.
Qed.

(** The link of a listed block leads to the next block of the same list. *)
Lemma listed_next (s : state) (A : lists) (m x y : Z) :
  rep s A -> in_order m -> In x (A m) -> next_free s x = Some y ->
  exists l1 l2, A m = l1 ++ x :: y :: l2.
Proof.
  intros Hrep Hm Hx Hnf.
  destruct (in_split x (A m) Hx) as (l1 & l2 & Hl).
  pose proof (Hrep m Hm) as Hseg. unfold free_list_is in Hseg.
  rewrite Hl in Hseg. apply lseg_app in Hseg.
  destruct Hseg as (mid & _ & Hseg). cbn in Hseg. destruct Hseg as (_ & Hseg).
  apply lseg_head in Hseg. rewrite Hnf in Hseg.
  destruct l2 as [|y' l2]; [discriminate|]. injection Hseg as <-.
  eauto.
Qed.

(** Two listed buddies are neighbours in their list: the link of the lower
    one points to the upper one. *)
Lemma adjacent_next (s : state) (A : lists) (k a : Z) :
  rep s A -> good A -> in_order k ->
  In a (A k) -> In (a + 2 ^ k) (A k) ->
  next_free s a = Some (a + 2 ^ k).
Proof.
  intros Hrep HA Hk Ha Hb.
  pose proof (pow2_pos k (proj1 Hk)) as Hpos.
  destruct (in_split a (A k) Ha) as (l1 & l2 & Hl).
  pose proof (good_sorted A HA k Hk) as Hs. rewrite Hl in Hs.
  apply sorted_app_inv in Hs. destruct Hs as (_ & Hs2 & Hlt).
  inversion Hs2 as [|? ? Hs2' Hall]; subst. rewrite Forall_forall in Hall.
  pose proof (Hrep k Hk) as Hseg. unfold free_list_is in Hseg.
  rewrite Hl in Hseg. apply lseg_app in Hseg.
  destruct Hseg as (mid & _ & Hseg). cbn in Hseg. destruct Hseg as (_ & Hseg).
  apply lseg_head in Hseg. rewrite Hseg.
  assert (Hb2 : In (a + 2 ^ k) l2).
  { rewrite Hl in Hb. apply in_app_or in Hb. destruct Hb as [Hb|[Hb|Hb]].
    - specialize (Hlt _ a Hb (or_introl eq_refl)). lia.
    - lia.
    - exact Hb. }
  destruct l2 as [|y l2]; [contradiction|]. f_equal.
  assert (Hy : In y (A k)).
  { rewrite Hl. apply in_or_app. right. right. now left. }
  pose proof (Hall y (or_introl eq_refl)) as Hay.
  pose proof (aligned_gap k a y (proj1 Hk)
                (proj2 (good_aligned A HA k a Hk Ha))
                (proj2 (good_aligned A HA k y Hk Hy)) Hay) as Hgap.
  destruct Hb2 as [Hb2|Hb2]; [exact Hb2|].
  inversion Hs2' as [|? ? _ Hall']; subst. rewrite Forall_forall in Hall'.
  specialize (Hall' _ Hb2). lia.
Qed.

Lemma good_del2 (A : lists) (n p q : Z) :
  good A -> good (upd A n (del q (del p (A n)))).
Proof.
  intros HA. apply (good_grow A _ (fun _ _ => False) HA).
  - intros m Hm. unfold upd. destruct (Z.eqb_spec m n) as [->|].
    + apply sorted_del, sorted_del. exact (good_sorted A HA n Hm).
    + exact (good_sorted A HA m Hm).
  - intros m x Hm Hx. left. apply In_upd in Hx.
    destruct Hx as [(-> & Hx)|(_ & Hx)]; [|exact Hx].
    pose proof (good_sorted A HA n Hm) as Hs.
    apply (In_del q x _ (sorted_del p _ Hs)) in Hx. destruct Hx as (_ & Hx).
    apply (In_del p x _ Hs) in Hx. tauto.
  - contradiction.
  - contradiction.
Qed.

(** One round of [iterative_merge] on a listed block [b] of order [k]: if
    the buddy is listed as well, the two are merged; if it is not, nothing
    is done -- unless the page of the lower buddy, which is then not on any
    list, holds a link to [b], in which case the kernel stops. *)
Lemma merge_buddies_spec (s : state) (A : lists) (k b : Z) :
  rep s A -> good A -> 0 <= k < LastOrder -> In b (A k) ->
  let b2 := get_buddy k b in
  let first := if b <? b2 then b else b2 in
  let second := if b <? b2 then b2 else b in
  (In b2 (A k) /\ next_free s first = Some second /\
   exists s',
     merge_buddies s k b = Ret (Some first, s') /\
     rep s' (merged A k first) /\
     (clean s A -> clean s' (merged A k first))) \/
  (~ In b2 (A k) /\
   ((next_free s first <> Some second /\ merge_buddies s k b = Ret (None, s)) \/
    (next_free s first = Some second /\
     merge_buddies s k b = Stop Assertion /\ ~ clean s A))).
Proof.
  intros Hrep HA Hk Hb b2 first second.
  assert (Hk0 : in_order k) by (unfold in_order; lia).
  assert (Hk1 : in_order (k + 1)) by (unfold in_order; lia).
  pose proof (good_aligned A HA k b Hk0 Hb) as (_ & Hal).
  destruct (buddy_pair k b (proj1 Hk) Hal) as (Hal1 & Hsec & Hcases).
  fold b2 in Hal1, Hsec, Hcases. fold first in Hal1, Hsec, Hcases.
  fold second in Hsec, Hcases.
  pose proof (pow2_pos k (proj1 Hk)) as Hpos.
  unfold merge_buddies.
  replace ((0 <=? k) && (k <? LastOrder)) with true by lia.
  cbn [assert bind]. fold b2. fold first. fold second.
  destruct (in_dec Z.eq_dec b2 (A k)) as [Hb2|Hb2].
  - left. split; [exact Hb2|].
    assert (H1 : In first (A k))
      by (destruct Hcases as [(E & _)|(_ & E)]; rewrite <- E; assumption).
    assert (H2 : In second (A k))
      by (destruct Hcases as [(_ & E)|(E & _)]; rewrite <- E; assumption).
    pose proof (adjacent_next s A k first Hrep HA Hk0 H1) as Hadj.
    rewrite <- Hsec in Hadj. specialize (Hadj H2).
    split; [exact Hadj|].
    rewrite (proj2 (ptr_eqb_some _ _) Hadj). cbn [negb].
    destruct (remove_buddies_spec s A k first second Hrep HA Hk0 H1 Hadj)
      as (_ & s1 & Hrm & Hrep1 & Hc1).
    rewrite Hrm. cbn [bind].
    set (A1 := upd A k (del second (del first (A k)))) in *.
    assert (HA1 : good A1) by apply good_del2, HA.
    assert (Hun : unlisted A1 first).
    { intros m Hm Hin. unfold A1 in Hin. apply In_upd in Hin.
      destruct Hin as [(-> & Hin)|(Hmk & Hin)].
      - pose proof (good_sorted A HA k Hk0) as Hs.
        apply (In_del _ _ _ (sorted_del first _ Hs)) in Hin.
        destruct Hin as (_ & Hin). apply (In_del _ _ _ Hs) in Hin. tauto.
      - exact (good_separate A k m first HA Hk0 Hm (not_eq_sym Hmk) H1 Hin). }
    destruct (insert_free_block_spec s1 A1 (k + 1) first Hrep1 HA1 Hk1 Hal1 Hun)
      as (s2 & Hins & Hrep2 & Hc2).
    rewrite Hins. cbn [bind].
    assert (HA1k : A1 (k + 1) = A (k + 1)) by (unfold A1; apply upd_other; lia).
    rewrite HA1k in Hrep2, Hc2. unfold A1 in Hrep2, Hc2. rewrite Hsec in Hrep2, Hc2.
    exists s2. split; [reflexivity|]. split; [exact Hrep2|].
    intros Hc. apply Hc2. rewrite <- Hsec. apply Hc1, Hc.
  - right. split; [exact Hb2|].
    destruct (ptr_eqb (next_free s first) (Some second)) eqn:Hptr.
    + right. apply ptr_eqb_some in Hptr. split; [exact Hptr|].
      assert (H1 : ~ In first (A k)).
      { intros H1. destruct (listed_next s A k first second Hrep Hk0 H1 Hptr)
          as (l1 & l2 & Hl).
        apply Hb2. destruct Hcases as [(_ & E)|(_ & E)]; rewrite E; [|exact H1].
        rewrite Hl. apply in_or_app. right. right. now left. }
      assert (Hbs : b = second).
      { destruct Hcases as [(Hbf & _)|(Hbs & _)]; [|exact Hbs].
        rewrite <- Hbf in H1. contradiction. }
      cbn [negb]. unfold remove_buddies.
      rewrite (get_candidate_slot_missing s A k first Hrep HA Hk0 H1).
      cbn [bind]. split; [reflexivity|].
      intros Hc. rewrite Hc in Hptr; [discriminate|].
      intros m Hm Hin. destruct (Z.eq_dec m k) as [->|Hmk]; [contradiction|].
      destruct (listed_next s A m first second Hrep Hm Hin Hptr)
        as (l1 & l2 & Hl).
      apply (good_separate A k m b HA Hk0 Hm (not_eq_sym Hmk) Hb).
      rewrite Hbs, Hl. apply in_or_app. right. right. now left.
    + left. split; [|reflexivity].
      intros H. apply ptr_eqb_some in H. congruence.
Qed.

Lemma iterative_merge_loop_spec (n : nat) :
  forall (s : state) (A : lists) (k b : Z),
    rep s A -> good A -> 0 <= k <= LastOrder ->
    n = Z.to_nat (LastOrder - k) -> In b (A k) ->
    (exists s',
       iterative_merge_loop n s k (Some b) = Ret s' /\
       rep s' (merge_lists n A k b) /\
       (clean s A -> clean s' (merge_lists n A k b))) \/
    (iterative_merge_loop n s k (Some b) = Stop Assertion /\ ~ clean s A).
Proof.
  induction n as [|n IH]; intros s A k b Hrep HA Hk Hn Hb.
  - left. exists s. cbn. replace (k <? LastOrder) with false by lia. auto.
  - assert (Hk' : 0 <= k < LastOrder) by lia.
    assert (Hk0 : in_order k) by (unfold in_order; lia).
    cbn [iterative_merge_loop merge_lists].
    replace (k <? LastOrder) with true by lia.
    pose proof (good_aligned A HA k b Hk0 Hb) as (_ & Hal).
    destruct (buddy_pair k b (proj1 Hk) Hal) as (Hal1 & Hsec & Hcases).
    destruct (merge_buddies_spec s A k b Hrep HA Hk' Hb)
      as [(Hb2 & _ & s1 & Hm & Hrep1 & Hc1)|(Hb2 & [(_ & Hm)|(_ & Hm & Hnc)])].
    + destruct (in_dec Z.eq_dec (get_buddy k b) (A k)) as [_|?]; [|contradiction].
      rewrite Hm. cbn [bind].
      set (first := if b <? get_buddy k b then b else get_buddy k b) in *.
      assert (H1 : In first (A k))
        by (destruct Hcases as [(E & _)|(_ & E)]; rewrite <- E; assumption).
      assert (H2 : In (first + 2 ^ k) (A k)).
      { rewrite <- Hsec.
        destruct Hcases as [(_ & E)|(E & _)]; rewrite <- E; assumption. }
      pose proof (good_merged A k first HA Hk' H1 H2 Hal1) as HA1.
      assert (Hin : In first (merged A k first (k + 1))).
      { apply (In_merged A k first _ _ HA Hk0). left. auto. }
      destruct (IH s1 (merged A k first) (k + 1) first Hrep1 HA1
                  ltac:(lia) ltac:(lia) Hin)
        as [(s2 & Hl & Hrep2 & Hc2)|(Hl & Hnc)].
      * left. exists s2. repeat split; auto.
      * right. split; [exact Hl|]. auto.
    + destruct (in_dec Z.eq_dec (get_buddy k b) (A k)) as [?|_]; [contradiction|].
      rewrite Hm. cbn [bind]. left. exists s.
      destruct n; cbn; auto.
    + right. rewrite Hm. cbn [bind]. auto.
Qed.

(** [free_pages] on a block that overlaps no listed block: the block is put
    on its list and merged upwards as far as listed buddies are found.  The
    kernel stops only if some page that is on no list holds a stray link. *)
Lemma free_pages_spec (s : state) (A : lists) (n p : Z) :
  rep s A -> good A -> in_order n -> 0 <= p < 2 ^ 64 -> (2 ^ n | p) ->
  apart A n p ->
  (exists s',
     free_pages s p n = Ret s' /\
     rep s' (free_lists A n p) /\
     (clean s A -> clean s' (free_lists A n p))) \/
  (free_pages s p n = Stop Assertion /\ ~ clean s A).
Proof.
  intros Hrep HA Hn Hp Hal Hap. unfold free_pages, free_lists.
  replace (in_range n) with true by (symmetry; now apply in_range_iff).
  cbn [assert bind].
  destruct (insert_free_block_spec s A n p Hrep HA Hn Hal
              (apart_unlisted A n p (proj1 Hn) Hap))
    as (s1 & Hins & Hrep1 & Hc1).
  rewrite Hins. cbn [bind]. unfold iterative_merge.
  pose proof (good_ins A n p HA Hn Hp Hal Hap) as HA1.
  assert (Hin : In p (upd A n (ins p (A n)) n)).
  { rewrite upd_same. apply In_ins. now left. }
  destruct (iterative_merge_loop_spec _ s1 _ n p Hrep1 HA1 Hn eq_refl Hin)
    as [(s2 & Hl & Hrep2 & Hc2)|(Hl & Hnc)].
  - left. exists s2. repeat split; auto.
  - right. split; [exact Hl|]. auto.
Qed.

(** *** What merging keeps *)

(** The only listed buddies are [b] and its buddy, at order [k]. *)
Definition only_pair (A : lists) (k b : Z) : Prop :=
  forall n p, 0 <= n < LastOrder -> In p (A n) -> In (get_buddy n p) (A n) ->
    n = k /\ (p = b \/ get_buddy n p = b).

Lemma get_buddy_involutive (n p : Z) : get_buddy n (get_buddy n p) = p.
Proof.
  unfold get_buddy. now rewrite Z.lxor_assoc, Z.lxor_nilpotent, Z.lxor_0_r.
Qed.

Lemma avoids_merged (A : lists) (k first lo hi : Z) :
  good A -> in_order k -> In first (A k) -> In (first + 2 ^ k) (A k) ->
  lo < hi -> avoids A lo hi -> avoids (merged A k first) lo hi.
Proof.
  intros HA Hk H1 H2 Hlh Hav m q Hm Hq.
  apply (In_merged A k first m q HA Hk) in Hq.
  destruct Hq as [(-> & [->|Hq])|[(-> & _ & _ & Hq)|(_ & _ & Hq)]];
    try (exact (Hav _ q Hm Hq)).
  pose proof (Hav k first Hk H1). pose proof (Hav k _ Hk H2).
  rewrite pow2_succ by apply Hk. lia.
Qed.

Lemma merge_lists_keeps (n : nat) :
  forall (A : lists) (k b : Z),
    good A -> 0 <= k <= LastOrder -> n = Z.to_nat (LastOrder - k) ->
    In b (A k) ->
    good (merge_lists n A k b) /\
    (only_pair A k b -> no_free_buddies (merge_lists n A k b)) /\
    (forall lo hi, lo < hi -> avoids A lo hi ->
                   avoids (merge_lists n A k b) lo hi).
Proof.
  induction n as [|n IH]; intros A k b HA Hk Hn Hb.
  - cbn. split; [exact HA|]. split; [|auto].
    intros Hop m p Hm Hp Hbp. destruct (Hop m p Hm Hp Hbp) as (-> & _). lia.
  - assert (Hk' : 0 <= k < LastOrder) by lia.
    assert (Hk0 : in_order k) by (unfold in_order; lia).
    cbn [merge_lists].
    pose proof (good_aligned A HA k b Hk0 Hb) as (_ & Hal).
    destruct (buddy_pair k b (proj1 Hk) Hal) as (Hal1 & Hsec & Hcases).
    destruct (in_dec Z.eq_dec (get_buddy k b) (A k)) as [Hb2|Hb2].
    + set (first := if b <? get_buddy k b then b else get_buddy k b) in *.
      set (second := if b <? get_buddy k b then get_buddy k b else b) in *.
      assert (H1 : In first (A k))
        by (destruct Hcases as [(E & _)|(_ & E)]; rewrite <- E; assumption).
      assert (H2 : In (first + 2 ^ k) (A k)).
      { rewrite <- Hsec.
        destruct Hcases as [(_ & E)|(E & _)]; rewrite <- E; assumption. }
      pose proof (good_merged A k first HA Hk' H1 H2 Hal1) as HA1.
      assert (Hin : In first (merged A k first (k + 1))).
      { apply (In_merged A k first _ _ HA Hk0). left. auto. }
      destruct (IH (merged A k first) (k + 1) first HA1 ltac:(lia) ltac:(lia) Hin)
        as (Hg & Hnfb & Hav).
      split; [exact Hg|]. split.
      * intros Hop. apply Hnfb. intros m x Hm Hx Hbx.
        apply (In_merged A k first _ _ HA Hk0) in Hx, Hbx.
        destruct Hx as [(-> & Hx)|[(-> & Hx1 & Hx2 & Hx)|(Hm1 & Hm2 & Hx)]].
        -- split; [reflexivity|].
           destruct Hbx as [(_ & Hbx)|[(? & _)|(_ & ? & _)]]; try lia.
           destruct Hx as [->|Hx]; [now left|].
           destruct Hbx as [->|Hbx]; [now right|].
           destruct (Hop _ _ Hm Hx Hbx). lia.
        -- exfalso.
           destruct Hbx as [(? & _)|[(_ & Hb1 & Hb2' & Hbx)|(? & _)]]; try lia.
           destruct (Hop _ _ Hm Hx Hbx) as (_ & [E|E]).
           ++ subst x. destruct Hcases as [(E & _)|(E & _)]; congruence.
           ++ rewrite E in Hb1, Hb2'.
              destruct Hcases as [(E' & _)|(E' & _)]; congruence.
        -- exfalso.
           destruct Hbx as [(? & _)|[(? & _)|(_ & _ & Hbx)]]; try lia.
           destruct (Hop _ _ Hm Hx Hbx). lia.
      * intros lo hi Hlh Hav0. apply Hav; [exact Hlh|].
        now apply avoids_merged.
    + split; [exact HA|]. split; [|auto].
      intros Hop m p Hm Hp Hbp. destruct (Hop m p Hm Hp Hbp) as (-> & [->|E]).
      * contradiction.
      * apply Hb2. rewrite <- E, get_buddy_involutive. exact Hp.
Qed.

Lemma free_lists_keeps (A : lists) (n p : Z) :
  good A -> in_order n -> 0 <= p < 2 ^ 64 -> (2 ^ n | p) -> apart A n p ->
  good (free_lists A n p) /\
  (no_free_buddies A -> no_free_buddies (free_lists A n p)) /\
  (forall lo hi, lo < hi -> avoids A lo hi -> p + 2 ^ n <= lo \/ hi <= p ->
                 avoids (free_lists A n p) lo hi).
Proof.
  intros HA Hn Hp Hal Hap.
  pose proof (good_ins A n p HA Hn Hp Hal Hap) as HA1.
  assert (Hin : In p (upd A n (ins p (A n)) n)).
  { rewrite upd_same. apply In_ins. now left. }
  destruct (merge_lists_keeps _ _ n p HA1 Hn eq_refl Hin) as (Hg & Hnfb & Hav).
  split; [exact Hg|]. split.
  - intros H. apply Hnfb. intros m x Hm Hx Hbx.
    apply In_upd in Hx, Hbx.
    destruct Hx as [(-> & Hx)|(Hmn & Hx)].
    + split; [reflexivity|].
      destruct Hbx as [(_ & Hbx)|(? & _)]; [|congruence].
      apply In_ins in Hx, Hbx.
      destruct Hx as [->|Hx]; [now left|].
      destruct Hbx as [->|Hbx]; [now right|].
      exfalso. exact (H _ _ Hm Hx Hbx).
    + exfalso. destruct Hbx as [(? & _)|(_ & Hbx)]; [congruence|].
      exact (H _ _ Hm Hx Hbx).
  - intros lo hi Hlh Hav0 Hp'. apply Hav; [exact Hlh|].
    now apply avoids_ins.
Qed.

(** ** Splitting *)

(** The lists after [split_block] on the head of the list of order [k]. *)
Definition split_lists (A : lists) (k : Z) : lists :=
  match A k with
  | [] => A
  | B :: rest => upd (upd A k rest) (k - 1) [B; B + 2 ^ (k - 1)]
  end.

Fixpoint split_down_lists (n : nat) (A : lists) (k target : Z) : lists :=
  match n with
  | O => A
  | S n' =>
      if k >? target then split_down_lists n' (split_lists A k) (k - 1) target
      else A
  end.

Fixpoint scan_lists (n : nat) (A : lists) (k : Z) : Z :=
  match n with
  | O => k
  | S n' =>
      if (k <=? LastOrder) && match A k with [] => true | _ => false end
      then scan_lists n' A (k + 1)
      else k
  end.

(** What [allocate_pages] returns and the lists it leaves. *)
Definition alloc_lists (A : lists) (order : Z) : option Z * lists :=
  match A order with
  | p :: rest => (Some p, upd A order rest)
  | [] =>
      let k := scan_lists (Z.to_nat (LastOrder - order)) A (order + 1) in
      if k >? LastOrder then (None, A)
      else
        let A1 := split_down_lists (Z.to_nat (k - order)) A k order in
        match A1 order with
        | p :: rest => (Some p, upd A1 order rest)
        | [] => (None, A1)
        end
  end.

Lemma rep_head (s : state) (A : lists) (n : Z) :
  rep s A -> in_order n ->
  free_list_ s n = match A n with [] => None | p :: _ => Some p end.
Proof. intros Hrep Hn. exact (lseg_head _ _ _ _ (Hrep n Hn)). Qed.

Lemma scan_up_lists (n : nat) (s : state) (A : lists) (k : Z) :
  rep s A -> 0 <= k -> scan_up n s k = scan_lists n A k.
Proof.
  intros Hrep. revert k. induction n as [|n IH]; intros k Hk; cbn.
  - reflexivity.
  - destruct (Z.leb_spec k LastOrder) as [Hle|Hgt]; cbn [andb]; [|reflexivity].
    rewrite (rep_head s A k Hrep (conj Hk Hle)).
    destruct (A k); [apply IH; lia|reflexivity].
Qed.

Lemma pow2_divide (a b : Z) : 0 <= a <= b -> (2 ^ a | 2 ^ b).
Proof.
  intros H. exists (2 ^ (b - a)). rewrite <- Z.pow_add_r by lia. f_equal. lia.
Qed.

(** An aligned block that starts below [2^64] ends at or below it. *)
Lemma block_end_bound (n p : Z) :
  0 <= n <= 64 -> (2 ^ n | p) -> p < 2 ^ 64 -> p + 2 ^ n <= 2 ^ 64.
Proof.
  intros Hn Hal Hp. apply aligned_gap; try assumption; [lia|].
  apply pow2_divide. lia.
Qed.

Lemma sorted_head_notin (B : Z) (rest : list Z) :
  StronglySorted Z.lt (B :: rest) -> ~ In B rest.
Proof.
  intros Hs Hin. apply sorted_NoDup in Hs. apply NoDup_cons_iff in Hs. tauto.
Qed.

Lemma del_head (B : Z) (rest : list Z) : del B (B :: rest) = rest.
Proof. cbn. now rewrite Z.eqb_refl. Qed.

(** The two halves of the block at the head of list [k] are on no list. *)
Lemma halves_unlisted (A : lists) (k B : Z) (rest : list Z) :
  good A -> 0 < k <= LastOrder -> A k = B :: rest ->
  unlisted (upd A k rest) B /\ unlisted (upd A k rest) (B + 2 ^ (k - 1)).
Proof.
  intros HA Hk HAk.
  assert (Hk0 : in_order k) by (unfold in_order; lia).
  assert (HB : In B (A k)) by (rewrite HAk; now left).
  pose proof (good_sorted A HA k Hk0) as Hs. rewrite HAk in Hs.
  pose proof (pow2_pos (k - 1) ltac:(lia)) as Hpos.
  pose proof (pow2_succ (k - 1) ltac:(lia)) as Hsucc.
  replace (k - 1 + 1) with k in Hsucc by lia.
  split; intros m Hm Hin; apply In_upd in Hin;
    destruct Hin as [(-> & Hin)|(Hmk & Hin)].
  - exact (sorted_head_notin B rest Hs Hin).
  - exact (good_separate A k m B HA Hk0 Hm (not_eq_sym Hmk) HB Hin).
  - assert (Hin' : In (B + 2 ^ (k - 1)) (A k)) by (rewrite HAk; now right).
    assert (Hne : B + 2 ^ (k - 1) <> B) by lia.
    destruct (good_disjoint A HA k k _ B Hk0 Hk0 Hin' HB (or_intror Hne)); lia.
  - pose proof (pow2_pos m (proj1 Hm)).
    destruct (good_disjoint A HA m k _ B Hm Hk0 Hin HB (or_introl Hmk)); lia.
Qed.

Lemma In_split_lists (A : lists) (k B m x : Z) (rest : list Z) :
  A k = B :: rest ->
  In x (split_lists A k m) <->
  (m = k - 1 /\ (x = B \/ x = B + 2 ^ (k - 1))) \/
  (m = k /\ In x rest) \/
  (m <> k /\ m <> k - 1 /\ In x (A m)).
Proof.
  intros HAk. unfold split_lists. rewrite HAk, !In_upd. cbn [In].
  assert (k <> k - 1) by lia.
  intuition (subst; auto; try lia).
Qed.

Lemma good_split (A : lists) (k B : Z) (rest : list Z) :
  good A -> 0 < k <= LastOrder -> A k = B :: rest -> A (k - 1) = [] ->
  good (split_lists A k).
Proof.
  intros HA Hk HAk Hnil.
  assert (Hk0 : in_order k) by (unfold in_order; lia).
  assert (HB : In B (A k)) by (rewrite HAk; now left).
  pose proof (good_sorted A HA k Hk0) as Hs. rewrite HAk in Hs.
  pose proof (good_aligned A HA k B Hk0 HB) as (HBb & HBa).
  pose proof (pow2_pos (k - 1) ltac:(lia)) as Hpos.
  pose proof (pow2_succ (k - 1) ltac:(lia)) as Hsucc.
  replace (k - 1 + 1) with k in Hsucc by lia.
  pose proof (block_end_bound k B ltac:(olia) HBa ltac:(lia)) as Hend.
  assert (Hhalf : (2 ^ (k - 1) | B)).
  { apply (divide_pow2_succ (k - 1) B); [lia|].
    now replace (k - 1 + 1) with k by lia. }
  apply (good_grow A _
           (fun m x => m = k - 1 /\ (x = B \/ x = B + 2 ^ (k - 1))) HA).
  - intros m Hm. unfold split_lists. rewrite HAk. unfold upd.
    destruct (Z.eqb_spec m (k - 1)) as [->|].
    + repeat constructor. lia.
    + destruct (Z.eqb_spec m k) as [->|].
      * now inversion Hs.
      * exact (good_sorted A HA m Hm).
  - intros m x Hm Hx. apply (In_split_lists A k B m x rest HAk) in Hx.
    destruct Hx as [Hx|[(-> & Hx)|(_ & _ & Hx)]]; auto.
    left. rewrite HAk. now right.
  - intros m x Hm (-> & [->| ->]); (split; [lia|]); [exact Hhalf|].
    apply Z.divide_add_r; [exact Hhalf|apply Z.divide_refl].
  - intros m x m' x' Hm Hm' (-> & Hx) Hx' Hne.
    apply (In_split_lists A k B m' x' rest HAk) in Hx'.
    assert (Hold : forall j y, in_order j -> In y (A j) -> j <> k \/ y <> B ->
                     y + 2 ^ j <= B \/ B + 2 ^ k <= y).
    { intros j y Hj Hy Hjy.
      exact (good_disjoint A HA j k y B Hj Hk0 Hy HB Hjy). }
    destruct Hx' as [(-> & Hx')|[(-> & Hx')|(H1 & H2 & Hx')]].
    + destruct Hx as [->| ->], Hx' as [->| ->], Hne as [?|?]; lia.
    + assert (H : x' <> B).
      { intros ->. exact (sorted_head_notin B rest Hs Hx'). }
      assert (Hin : In x' (A k)) by (rewrite HAk; now right).
      destruct (Hold k x' Hk0 Hin (or_intror H));
        destruct Hx as [->| ->]; lia.
    + destruct (Hold m' x' Hm' Hx' (or_introl H1));
        destruct Hx as [->| ->]; lia.
Qed.

Lemma avoids_split (A : lists) (k B lo hi : Z) (rest : list Z) :
  0 < k -> in_order k -> A k = B :: rest ->
  avoids A lo hi -> avoids (split_lists A k) lo hi.
Proof.
  intros Hk Hk0 HAk Hav m q Hm Hq.
  apply (In_split_lists A k B m q rest HAk) in Hq.
  assert (HB : In B (A k)) by (rewrite HAk; now left).
  pose proof (pow2_pos (k - 1) ltac:(lia)) as Hpos.
  pose proof (pow2_succ (k - 1) ltac:(lia)) as Hsucc.
  replace (k - 1 + 1) with k in Hsucc by lia.
  destruct Hq as [(-> & Hq)|[(-> & Hq)|(_ & _ & Hq)]].
  - pose proof (Hav k B Hk0 HB). destruct Hq as [->| ->]; lia.
  - apply (Hav k q Hk0). rewrite HAk. now right.
  - exact (Hav m q Hm Hq).
Qed.

(** [split_block] on the head of a list, the list below being empty. *)
Lemma split_block_spec (s : state) (A : lists) (k B : Z) (rest : list Z) :
  rep s A -> good A -> 0 < k <= LastOrder ->
  A k = B :: rest -> A (k - 1) = [] ->
  exists s',
    split_block s k B = Ret s' /\
    rep s' (split_lists A k) /\
    (clean s A -> clean s' (split_lists A k)).
Proof.
  intros Hrep HA Hk HAk Hnil.
  assert (Hk0 : in_order k) by (unfold in_order; lia).
  assert (Hk1 : in_order (k - 1)) by (unfold in_order; lia).
  assert (HB : In B (A k)) by (rewrite HAk; now left).
  pose proof (good_aligned A HA k B Hk0 HB) as (HBb & HBa).
  pose proof (pow2_pos (k - 1) ltac:(lia)) as Hpos.
  pose proof (pow2_succ (k - 1) ltac:(lia)) as Hsucc.
  replace (k - 1 + 1) with k in Hsucc by lia.
  pose proof (block_end_bound k B ltac:(olia) HBa ltac:(lia)) as Hend.
  assert (Hhalf : (2 ^ (k - 1) | B)).
  { apply (divide_pow2_succ (k - 1) B); [lia|].
    now replace (k - 1 + 1) with k by lia. }
  unfold split_block.
  replace ((0 <? k) && (k <=? LastOrder)) with true by lia.
  cbn [assert bind].
  rewrite pages_per_block_pow by lia.
  unfold u64. rewrite Z.mod_small by lia.
  destruct (remove_free_block_spec s A k B Hrep HA Hk0 HB)
    as (s1 & Hrm & Hrep1 & Hc1).
  rewrite Hrm. cbn [bind]. rewrite HAk, del_head in Hrep1, Hc1.
  destruct (halves_unlisted A k B rest HA Hk HAk) as (Hu1 & Hu2).
  assert (HA1 : good (upd A k rest)).
  { pose proof (good_del A k B HA) as H. now rewrite HAk, del_head in H. }
  assert (Hnil1 : upd A k rest (k - 1) = []).
  { rewrite upd_other by lia. exact Hnil. }
  destruct (insert_buddies_spec s1 (upd A k rest) (k - 1) B (B + 2 ^ (k - 1))
              Hrep1 HA1 Hk1 Hnil1 Hhalf
              ltac:(apply Z.divide_add_r; [exact Hhalf|apply Z.divide_refl])
              ltac:(lia) Hu1 Hu2)
    as (s2 & Hib & Hrep2 & Hc2).
  exists s2. split; [exact Hib|].
  unfold split_lists. rewrite HAk. split; [exact Hrep2|]. auto.
Qed.

Lemma split_lists_other (A : lists) (k m : Z) :
  m <> k -> m <> k - 1 -> split_lists A k m = A m.
Proof.
  intros H1 H2. unfold split_lists. destruct (A k); [reflexivity|].
  now rewrite !upd_other.
Qed.

Lemma split_down_spec (n : nat) :
  forall (s : state) (A : lists) (k target : Z),
    rep s A -> good A -> 0 <= target -> target <= k <= LastOrder ->
    n = Z.to_nat (k - target) ->
    A k <> [] -> (forall j, target <= j < k -> A j = []) ->
    exists s',
      split_down n s k target = Ret s' /\
      rep s' (split_down_lists n A k target) /\
      (clean s A -> clean s' (split_down_lists n A k target)).
Proof.
  induction n as [|n IH]; intros s A k target Hrep HA Ht Hk Hn Hne Hnil.
  - exists s. cbn. replace (k >? target) with false by lia. auto.
  - assert (Hk0 : in_order k) by (unfold in_order; lia).
    cbn [split_down split_down_lists].
    replace (k >? target) with true by lia.
    rewrite (rep_head s A k Hrep Hk0).
    destruct (A k) as [|B rest] eqn:HAk; [contradiction|].
    destruct (split_block_spec s A k B rest Hrep HA ltac:(lia) HAk
                (Hnil (k - 1) ltac:(lia)))
      as (s1 & Hsb & Hrep1 & Hc1).
    rewrite Hsb. cbn [bind].
    pose proof (good_split A k B rest HA ltac:(lia) HAk
                  (Hnil (k - 1) ltac:(lia))) as HA1.
    destruct (IH s1 (split_lists A k) (k - 1) target Hrep1 HA1 Ht
                ltac:(lia) ltac:(lia))
      as (s2 & Hsd & Hrep2 & Hc2).
    + unfold split_lists. rewrite HAk, upd_same. discriminate.
    + intros j Hj. rewrite split_lists_other by lia. apply Hnil. lia.
    + exists s2. repeat split; auto.
Qed.

Lemma split_down_lists_keeps (n : nat) :
  forall (A : lists) (k target : Z),
    good A -> 0 <= target -> target <= k <= LastOrder ->
    n = Z.to_nat (k - target) ->
    A k <> [] -> (forall j, target <= j < k -> A j = []) ->
    good (split_down_lists n A k target) /\
    forall lo hi, avoids A lo hi ->
                  avoids (split_down_lists n A k target) lo hi.
Proof.
  induction n as [|n IH]; intros A k target HA Ht Hk Hn Hne Hnil.
  - cbn. auto.
  - assert (Hk0 : in_order k) by (unfold in_order; lia).
    cbn [split_down_lists]. replace (k >? target) with true by lia.
    destruct (A k) as [|B rest] eqn:HAk; [contradiction|].
    pose proof (good_split A k B rest HA ltac:(lia) HAk
                  (Hnil (k - 1) ltac:(lia))) as HA1.
    destruct (IH (split_lists A k) (k - 1) target HA1 Ht ltac:(lia) ltac:(lia))
      as (Hg & Hav).
    + unfold split_lists. rewrite HAk, upd_same. discriminate.
    + intros j Hj. rewrite split_lists_other by lia. apply Hnil. lia.
    + split; [exact Hg|]. intros lo hi H. apply Hav.
      apply (avoids_split A k B lo hi rest ltac:(lia) Hk0 HAk H).
Qed.

(** The lists at the end of the split chain. *)
Lemma split_down_lists_shape (n : nat) :
  forall (A : lists) (k target B : Z) (rest : list Z),
    0 <= target -> target <= k -> n = Z.to_nat (k - target) ->
    A k = B :: rest -> (forall j, target <= j < k -> A j = []) ->
    split_down_lists n A k target target
    = (if target <? k then [B; B + 2 ^ target] else B :: rest) /\
    (forall j, target < j < k ->
               split_down_lists n A k target j = [B + 2 ^ j]) /\
    (target < k -> split_down_lists n A k target k = rest) /\
    (forall m, m < target \/ k < m ->
               split_down_lists n A k target m = A m).
Proof.
  induction n as [|n IH]; intros A k target B rest Ht Hk Hn HAk Hnil.
  - assert (k = target) by lia. subst k. cbn.
    replace (target <? target) with false by lia.
    repeat split; auto; lia.
  - cbn [split_down_lists]. replace (k >? target) with true by lia.
    replace (target <? k) with true by lia.
    assert (H1 : split_lists A k (k - 1) = B :: [B + 2 ^ (k - 1)]).
    { unfold split_lists. rewrite HAk. apply upd_same. }
    assert (H2 : forall j, target <= j < k - 1 -> split_lists A k j = []).
    { intros j Hj. rewrite split_lists_other by lia. apply Hnil. lia. }
    destruct (IH (split_lists A k) (k - 1) target B [B + 2 ^ (k - 1)] Ht
                ltac:(lia) ltac:(lia) H1 H2)
      as (I1 & I2 & I3 & I4).
    repeat split.
    + rewrite I1. destruct (Z.ltb_spec target (k - 1)); [reflexivity|].
      now replace (k - 1) with target by lia.
    + intros j Hj. destruct (Z.eq_dec j (k - 1)) as [->|Hne].
      * apply I3. lia.
      * apply I2. lia.
    + intros _. rewrite I4 by lia. unfold split_lists. rewrite HAk.
      rewrite upd_other by lia. apply upd_same.
    + intros m Hm. rewrite I4 by lia. apply split_lists_other; lia.
Qed.

Lemma scan_lists_spec (n : nat) (A : lists) (k : Z) :
  n = Z.to_nat (LastOrder + 1 - k) -> k <= LastOrder + 1 ->
  let r := scan_lists n A k in
  k <= r <= LastOrder + 1 /\
  (forall j, k <= j < r -> A j = []) /\
  (r <= LastOrder -> A r <> []).
Proof.
  revert k. induction n as [|n IH]; intros k Hn Hle; cbn.
  - repeat split; olia.
  - destruct (Z.leb_spec k LastOrder) as [Hk|Hk]; cbn [andb].
    + destruct (A k) eqn:E.
      * specialize (IH (k + 1) ltac:(olia) ltac:(olia)). cbn in IH.
        destruct IH as (H1 & H2 & H3).
        repeat split; try olia; [|exact H3].
        intros j Hj. destruct (Z.eq_dec j k) as [->|]; [exact E|].
        apply H2. lia.
      * repeat split; try olia. intros _. congruence.
    + repeat split; olia.
Qed.

Lemma get_buddy_neq (n p : Z) : 0 <= n -> get_buddy n p <> p.
Proof.
  intros Hn H. unfold get_buddy in H. rewrite pages_per_block_pow in H by lia.
  assert (E : Z.lxor p (Z.lxor p (2 ^ n)) = Z.lxor p p) by now rewrite H.
  rewrite <- Z.lxor_assoc, Z.lxor_nilpotent, Z.lxor_0_l in E.
  pose proof (pow2_pos n Hn). lia.
Qed.

Lemma pow2_le (a b : Z) : 0 <= a <= b -> 2 ^ a <= 2 ^ b.
Proof. intros H. apply Z.pow_le_mono_r; lia. Qed.

(** What an allocation keeps: the lists stay in order, the block handed
    out is aligned and overlaps none of the blocks left, and no range of
    pages gets more free blocks in it than it had. *)
Lemma alloc_lists_keeps (A A' : lists) (order p : Z) :
  good A -> in_order order -> alloc_lists A order = (Some p, A') ->
  good A' /\
  (no_free_buddies A -> no_free_buddies A') /\
  0 <= p < 2 ^ 64 /\ (2 ^ order | p) /\ apart A' order p /\
  (forall lo hi, avoids A lo hi ->
                 avoids A' lo hi /\ (p + 2 ^ order <= lo \/ hi <= p)).
Proof.
  intros HA Ho Halloc. unfold alloc_lists in Halloc.
  assert (Ho' : 0 <= order <= LastOrder) by exact Ho.
  pose proof (pow2_pos order (proj1 Ho)) as Hpos.
  destruct (A order) as [|p0 rest0] eqn:HAo.
  - (* split chain *)
    pose proof (scan_lists_spec (Z.to_nat (LastOrder - order)) A (order + 1)
                  ltac:(f_equal; lia) ltac:(olia)) as Hscan.
    cbn zeta in Hscan. destruct Hscan as (Hk1 & Hk2 & Hk3).
    set (k := scan_lists _ _ _) in *.
    destruct (Z.gtb_spec k LastOrder) as [Hgt|Hle]; [discriminate|].
    assert (Hk0 : in_order k) by (unfold in_order; lia).
    specialize (Hk3 Hle).
    destruct (A k) as [|B rest] eqn:HAk; [contradiction|].
    assert (Hnil : forall j, order <= j < k -> A j = []).
    { intros j Hj. destruct (Z.eq_dec j order) as [->|]; [exact HAo|].
      apply Hk2. lia. }
    destruct (split_down_lists_shape (Z.to_nat (k - order)) A k order B rest
                (proj1 Ho) ltac:(lia) eq_refl HAk Hnil)
      as (S1 & S2 & S3 & S4).
    destruct (split_down_lists_keeps (Z.to_nat (k - order)) A k order HA
                (proj1 Ho) ltac:(lia) eq_refl ltac:(congruence) Hnil)
      as (Hg1 & Hav1).
    set (A1 := split_down_lists _ _ _ _) in *.
    replace (order <? k) with true in S1 by lia.
    rewrite S1 in Halloc. injection Halloc as <- <-.
    assert (HB : In B (A k)) by (rewrite HAk; now left).
    pose proof (good_aligned A HA k B Hk0 HB) as (HBb & HBa).
    pose proof (good_sorted A HA k Hk0) as Hs. rewrite HAk in Hs.
    assert (Hmem : forall m x, in_order m -> In x (upd A1 order [B + 2 ^ order] m) ->
               (order <= m < k /\ x = B + 2 ^ m) \/
               (m = k /\ In x rest) \/
               ((m < order \/ k < m) /\ In x (A m))).
    { intros m x Hm Hx. apply In_upd in Hx.
      destruct Hx as [(-> & [<-|[]])|(Hmo & Hx)]; [left; split; [lia|reflexivity]|].
      destruct (Z.eq_dec m k) as [->|Hmk].
      - right. left. split; [reflexivity|]. now rewrite S3 in Hx by lia.
      - destruct (Z_lt_le_dec m order) as [Hlt|Hge].
        + right. right. split; [lia|]. now rewrite S4 in Hx by lia.
        + destruct (Z_lt_le_dec k m) as [Hlt'|Hge'].
          * right. right. split; [lia|]. now rewrite S4 in Hx by lia.
          * left. split; [lia|]. rewrite S2 in Hx by lia.
            destruct Hx as [<-|[]]. reflexivity. }
    assert (Hold : forall j y, in_order j -> In y (A j) -> j <> k \/ y <> B ->
                     y + 2 ^ j <= B \/ B + 2 ^ k <= y).
    { intros j y Hj Hy Hjy.
      exact (good_disjoint A HA j k y B Hj Hk0 Hy HB Hjy). }
    assert (Hrest : forall x, In x rest -> In x (A k) /\ x <> B).
    { intros x Hx. split; [rewrite HAk; now right|].
      intros ->. exact (sorted_head_notin B rest Hs Hx). }
    pose proof (pow2_le order k ltac:(lia)) as Hle2.
    split; [|split; [|split; [|split; [|split]]]].
    + pose proof (good_del A1 order B Hg1) as H.
      now rewrite S1, del_head in H.
    + intros Hnfb n x Hn Hx Hbx.
      assert (Hn0 : in_order n) by (unfold in_order; lia).
      apply (Hmem n x Hn0) in Hx. apply (Hmem n _ Hn0) in Hbx.
      destruct Hx as [(Hr & ->)|[(-> & Hx)|(Hr & Hx)]].
      * destruct Hbx as [(_ & E)|[(? & _)|(? & _)]]; try lia.
        exact (get_buddy_neq n _ (proj1 Hn) E).
      * destruct Hbx as [(? & _)|[(_ & Hbx)|(? & _)]]; try lia.
        apply (Hnfb k x Hn); [exact (proj1 (Hrest x Hx))|].
        exact (proj1 (Hrest _ Hbx)).
      * destruct Hbx as [(? & _)|[(? & _)|(_ & Hbx)]]; try lia.
        exact (Hnfb n x Hn Hx Hbx).
    + exact HBb.
    + destruct HBa as [c ->]. exists (c * 2 ^ (k - order)).
      rewrite <- Z.mul_assoc, <- Z.pow_add_r by lia. do 2 f_equal. lia.
    + intros m x Hm Hx. apply (Hmem m x Hm) in Hx.
      destruct Hx as [(Hr & ->)|[(-> & Hx)|(Hr & Hx)]].
      * right. pose proof (pow2_le order m ltac:(lia)). lia.
      * destruct (Hrest x Hx) as (Hin & Hne).
        destruct (Hold k x Hk0 Hin (or_intror Hne)); lia.
      * assert (Hmk : m <> k) by lia.
        destruct (Hold m x Hm Hx (or_introl Hmk)); lia.
    + intros lo hi Hav. pose proof (Hav k B Hk0 HB) as HavB.
      split; [|lia].
      apply (avoids_del A1 order B lo hi Hg1) in Hav1; [|exact Hav].
      now rewrite S1, del_head in Hav1.
  - (* the list of the order asked for is not empty *)
    injection Halloc as <- <-.
    assert (Hp : In p0 (A order)) by (rewrite HAo; now left).
    pose proof (good_aligned A HA order p0 Ho Hp) as (Hpb & Hpa).
    pose proof (good_sorted A HA order Ho) as Hs. rewrite HAo in Hs.
    assert (Hmem : forall m x, in_order m -> In x (upd A order rest0 m) ->
                     In x (A m) /\ (m <> order \/ x <> p0)).
    { intros m x Hm Hx. apply In_upd in Hx.
      destruct Hx as [(-> & Hx)|(Hmo & Hx)]; [|auto].
      split; [rewrite HAo; now right|]. right. intros ->.
      exact (sorted_head_notin p0 rest0 Hs Hx). }
    split; [|split; [|split; [|split; [|split]]]].
    + pose proof (good_del A order p0 HA) as H.
      now rewrite HAo, del_head in H.
    + intros Hnfb n x Hn Hx Hbx.
      assert (Hn0 : in_order n) by (unfold in_order; lia).
      apply (Hmem n x Hn0) in Hx. apply (Hmem n _ Hn0) in Hbx.
      exact (Hnfb n x Hn (proj1 Hx) (proj1 Hbx)).
    + exact Hpb.
    + exact Hpa.
    + intros m x Hm Hx. apply (Hmem m x Hm) in Hx. destruct Hx as (Hx & Hne).
      destruct (good_disjoint A HA m order x p0 Hm Ho Hx Hp Hne); lia.
    + intros lo hi Hav. split; [|exact (Hav order p0 Ho Hp)].
      intros m x Hm Hx. apply (Hmem m x Hm) in Hx. exact (Hav m x Hm (proj1 Hx)).
Qed.

Lemma alloc_lists_none (A A' : lists) (order : Z) :
  in_order order -> alloc_lists A order = (None, A') -> A' = A.
Proof.
  intros Ho Halloc. unfold alloc_lists in Halloc.
  assert (Ho' : 0 <= order <= LastOrder) by exact Ho.
  destruct (A order) as [|p0 rest0] eqn:HAo; [|discriminate].
  pose proof (scan_lists_spec (Z.to_nat (LastOrder - order)) A (order + 1)
                ltac:(f_equal; lia) ltac:(olia)) as Hscan.
  cbn zeta in Hscan. destruct Hscan as (Hk1 & Hk2 & Hk3).
  set (k := scan_lists _ _ _) in *.
  destruct (Z.gtb_spec k LastOrder) as [Hgt|Hle]; [congruence|].
  specialize (Hk3 Hle).
  destruct (A k) as [|B rest] eqn:HAk; [contradiction|].
  assert (Hnil : forall j, order <= j < k -> A j = []).
  { intros j Hj. destruct (Z.eq_dec j order) as [->|]; [exact HAo|].
    apply Hk2. lia. }
  destruct (split_down_lists_shape (Z.to_nat (k - order)) A k order B rest
              (proj1 Ho) ltac:(lia) eq_refl HAk Hnil) as (S1 & _).
  replace (order <? k) with true in S1 by lia.
  rewrite S1 in Halloc. discriminate.
Qed.

(** ** Allocation, in memory *)

Lemma iterative_split_spec (s : state) (A : lists) (order : Z) :
  rep s A -> good A -> in_order order ->
  exists s1 A1,
    iterative_split s order
    = Ret (match A1 order with [] => None | p :: _ => Some p end, s1) /\
    rep s1 A1 /\ good A1 /\ (clean s A -> clean s1 A1) /\
    alloc_lists A order
    = match A1 order with
      | [] => (None, A1)
      | p :: rest => (Some p, upd A1 order rest)
      end.
Proof.
  intros Hrep HA Ho.
  assert (Ho' : 0 <= order <= LastOrder) by exact Ho.
  unfold iterative_split, alloc_lists.
  replace (in_range order) with true by (symmetry; now apply in_range_iff).
  cbn [assert bind]. rewrite (rep_head s A order Hrep Ho).
  destruct (A order) as [|p0 rest0] eqn:HAo.
  - rewrite (scan_up_lists _ s A (order + 1) Hrep ltac:(lia)).
    pose proof (scan_lists_spec (Z.to_nat (LastOrder - order)) A (order + 1)
                  ltac:(f_equal; lia) ltac:(olia)) as Hscan.
    cbn zeta in Hscan. destruct Hscan as (Hk1 & Hk2 & Hk3).
    set (k := scan_lists _ _ _) in *.
    destruct (Z.gtb_spec k LastOrder) as [Hgt|Hle].
    + exists s, A. rewrite HAo. auto.
    + specialize (Hk3 Hle).
      assert (Hnil : forall j, order <= j < k -> A j = []).
      { intros j Hj. destruct (Z.eq_dec j order) as [->|]; [exact HAo|].
        apply Hk2. lia. }
      destruct (split_down_spec (Z.to_nat (k - order)) s A k order Hrep HA
                  (proj1 Ho) ltac:(lia) eq_refl Hk3 Hnil)
        as (s1 & Hsd & Hrep1 & Hc1).
      destruct (split_down_lists_keeps (Z.to_nat (k - order)) A k order HA
                  (proj1 Ho) ltac:(lia) eq_refl Hk3 Hnil) as (Hg1 & _).
      rewrite Hsd. cbn [bind].
      exists s1, (split_down_lists (Z.to_nat (k - order)) A k order).
      rewrite (rep_head s1 _ order Hrep1 Ho). auto.
  - exists s, A. rewrite HAo. auto.
Qed.

Lemma pzero_rep (s : state) (A : lists) (p c : Z) :
  rep s A ->
  (forall m q, in_order m -> In q (A m) -> q < p \/ p + c <= q) ->
  rep (pzero s p c) A.
Proof.
  intros Hrep Hout m Hm. unfold free_list_is.
  apply (lseg_frame (next_free s)); [|exact (Hrep m Hm)].
  intros x Hx. cbn. specialize (Hout m x Hm Hx).
  now replace ((p <=? x) && (x <? p + c)) with false by lia.
Qed.

Lemma pzero_clean (s : state) (A : lists) (p c : Z) :
  clean s A -> clean (pzero s p c) A.
Proof.
  intros Hc q Hq. cbn. destruct ((p <=? q) && (q <? p + c)); auto.
Qed.

(** [allocate_pages] with an order in range: it returns what [alloc_lists]
    says and leaves the lists [alloc_lists] says. *)
Lemma allocate_pages_spec (s : state) (A : lists) (order : Z)
    (flags : page_allocation_flags) :
  rep s A -> good A -> in_order order ->
  exists s',
    allocate_pages s order flags = Ret (fst (alloc_lists A order), s') /\
    rep s' (snd (alloc_lists A order)) /\
    (clean s A -> clean s' (snd (alloc_lists A order))).
Proof.
  intros Hrep HA Ho.
  assert (Ho' : 0 <= order <= LastOrder) by exact Ho.
  pose proof (pow2_pos order (proj1 Ho)) as Hpos.
  destruct (iterative_split_spec s A order Hrep HA Ho)
    as (s1 & A1 & Hsplit & Hrep1 & HA1 & Hc1 & Halloc).
  unfold allocate_pages.
  replace ((order <? 0) || (order >? LastOrder)) with false by lia.
  rewrite Hsplit. cbn [bind].
  destruct (A1 order) as [|p rest] eqn:HA1o.
  - rewrite Halloc. exists s1. auto.
  - assert (Hp : In p (A1 order)) by (rewrite HA1o; now left).
    destruct (remove_free_block_spec s1 A1 order p Hrep1 HA1 Ho Hp)
      as (s2 & Hrm & Hrep2 & Hc2).
    rewrite Hrm. cbn [bind]. rewrite HA1o, del_head in Hrep2, Hc2.
    destruct (alloc_lists_keeps A _ order p HA Ho Halloc)
      as (_ & _ & _ & _ & Hap & _).
    rewrite Halloc. cbn [fst snd].
    destruct (Z.land flags zero =? zero).
    + exists (pzero s2 p (Z.shiftl 1 order)). split; [reflexivity|]. split.
      * apply pzero_rep; [exact Hrep2|].
        intros m q Hm Hq. rewrite Z.shiftl_1_l.
        pose proof (pow2_pos m (proj1 Hm)).
        destruct (Hap m q Hm Hq); lia.
      * intros Hc. apply pzero_clean. auto.
    + exists s2. auto.
Qed.

(** ** Allocating and freeing again *)

(** The lists as they stand in the middle of undoing a split chain that
    took the block [B] from order [k]: merging from order [j] on leads back
    to the lists [A0] from before the split. *)
Lemma merge_lists_unsplit (n : nat) :
  forall (A A0 : lists) (j k B : Z) (rest : list Z),
    good A0 -> no_free_buddies A0 ->
    0 <= j -> j <= k <= LastOrder -> n = Z.to_nat (LastOrder - j) ->
    A0 k = B :: rest ->
    (forall i, j <= i < k -> A0 i = []) ->
    A j = (if j <? k then [B; B + 2 ^ j] else B :: rest) ->
    (forall i, j < i < k -> A i = [B + 2 ^ i]) ->
    (j < k -> A k = rest) ->
    (forall m, in_order m -> m < j \/ k < m -> A m = A0 m) ->
    forall m, in_order m -> merge_lists n A j B m = A0 m.
Proof.
  induction n as [|n IH];
    intros A A0 j k B rest HA0 Hnfb Hj Hk Hn HA0k Hnil HAj Hmid HAk Hout m Hm.
  - assert (j = k) by lia. subst j. cbn.
    destruct (Z.eq_dec m k) as [->|Hmk].
    + rewrite HAj. replace (k <? k) with false by lia. now rewrite HA0k.
    + apply Hout; [exact Hm|]. unfold in_order in Hm. lia.
  - assert (Hj0 : in_order j) by (unfold in_order; lia).
    assert (Hk0 : in_order k) by (unfold in_order; lia).
    assert (HB : In B (A0 k)) by (rewrite HA0k; now left).
    pose proof (good_aligned A0 HA0 k B Hk0 HB) as (HBb & HBa).
    pose proof (good_sorted A0 HA0 k Hk0) as Hs. rewrite HA0k in Hs.
    pose proof (pow2_pos j Hj) as Hpos.
    cbn [merge_lists].
    destruct (Z.ltb_spec j k) as [Hlt|Hge].
    + (* below the order the block came from: the buddy is listed *)
      assert (HBj : (2 ^ (j + 1) | B)).
      { destruct HBa as [c ->]. exists (c * 2 ^ (k - (j + 1))).
        rewrite <- Z.mul_assoc, <- Z.pow_add_r by lia. do 2 f_equal. lia. }
      assert (Hbud : get_buddy j B = B + 2 ^ j).
      { destruct (get_buddy_cases j B Hj (divide_pow2_succ j B Hj HBj))
          as [(_ & E)|(Hd & E)]; [exact E|].
        exfalso. destruct HBj as [c Hc], Hd as [d Hd].
        rewrite pow2_succ in Hc, Hd by lia.
        assert (Hz : 2 ^ j * (2 * (c - d) - 1) = 0) by lia.
        apply Z.mul_eq_0 in Hz. lia. }
      rewrite Hbud.
      destruct (in_dec Z.eq_dec (B + 2 ^ j) (A j)) as [_|Hn'].
      2:{ exfalso. apply Hn'. rewrite HAj. right. now left. }
      replace (B <? B + 2 ^ j) with true by lia.
      set (A' := merged A j B).
      assert (HA'j : A' j = []).
      { unfold A', merged. rewrite upd_other by lia. rewrite upd_same, HAj.
        cbn. rewrite Z.eqb_refl. cbn. now rewrite Z.eqb_refl. }
      assert (HA'j1 : A' (j + 1) = ins B (A (j + 1))).
      { unfold A', merged. apply upd_same. }
      assert (HA'o : forall i, i <> j -> i <> j + 1 -> A' i = A i).
      { intros i H1 H2. unfold A', merged. now rewrite !upd_other. }
      apply (IH A' A0 (j + 1) k B rest HA0 Hnfb); try lia; try assumption.
      * intros i Hi. apply Hnil. lia.
      * rewrite HA'j1. destruct (Z.ltb_spec (j + 1) k) as [Hlt'|Hge'].
        -- rewrite Hmid by lia. cbn.
           pose proof (pow2_pos (j + 1) ltac:(lia)).
           now replace (B + 2 ^ (j + 1) <? B) with false by lia.
        -- assert (k = j + 1) by lia. subst k. rewrite HAk by lia.
           destruct rest as [|r rest']; cbn; [reflexivity|].
           inversion Hs as [|? ? _ Hall]; subst.
           rewrite Forall_forall in Hall.
           specialize (Hall r (or_introl eq_refl)).
           now replace (r <? B) with false by lia.
      * intros i Hi. rewrite HA'o by lia. apply Hmid. lia.
      * intros Hlt'. rewrite HA'o by lia. apply HAk. lia.
      * intros i Hi Hi'. destruct (Z.eq_dec i j) as [->|Hij].
        -- rewrite HA'j. symmetry. apply Hnil. lia.
        -- rewrite HA'o by lia. apply Hout; [exact Hi|lia].
    + (* at the order the block came from: its buddy was not free *)
      assert (k = j) by lia. subst k.
      assert (HAj' : A j = A0 j) by (rewrite HAj, HA0k; reflexivity).
      destruct (in_dec Z.eq_dec (get_buddy j B) (A j)) as [Hin|_].
      * exfalso. rewrite HAj' in Hin.
        apply (Hnfb j B ltac:(lia) HB Hin).
      * destruct (Z.eq_dec m j) as [->|Hmj]; [exact HAj'|].
        apply Hout; [exact Hm|]. unfold in_order in Hm. lia.
Qed.

Lemma ins_head (p : Z) (rest : list Z) :
  StronglySorted Z.lt (p :: rest) -> ins p rest = p :: rest.
Proof.
  intros Hs. destruct rest as [|r rest]; cbn; [reflexivity|].
  inversion Hs as [|? ? _ Hall]; subst. rewrite Forall_forall in Hall.
  specialize (Hall r (or_introl eq_refl)).
  now replace (r <? p) with false by lia.
Qed.

(** Freeing what was just allocated gives back the lists as they were. *)
Lemma free_after_alloc (A A' : lists) (order p : Z) :
  good A -> no_free_buddies A -> in_order order ->
  alloc_lists A order = (Some p, A') ->
  forall m, in_order m -> free_lists A' order p m = A m.
Proof.
  intros HA Hnfb Ho Halloc m Hm.
  assert (Ho' : 0 <= order <= LastOrder) by exact Ho.
  pose proof (pow2_pos order (proj1 Ho)) as Hpos.
  unfold free_lists. unfold alloc_lists in Halloc.
  destruct (A order) as [|p0 rest0] eqn:HAo.
  - pose proof (scan_lists_spec (Z.to_nat (LastOrder - order)) A (order + 1)
                  ltac:(f_equal; lia) ltac:(olia)) as Hscan.
    cbn zeta in Hscan. destruct Hscan as (Hk1 & Hk2 & Hk3).
    set (k := scan_lists _ _ _) in *.
    destruct (Z.gtb_spec k LastOrder) as [Hgt|Hle]; [discriminate|].
    specialize (Hk3 Hle).
    destruct (A k) as [|B rest] eqn:HAk; [contradiction|].
    assert (Hnil : forall j, order <= j < k -> A j = []).
    { intros j Hj. destruct (Z.eq_dec j order) as [->|]; [exact HAo|].
      apply Hk2. lia. }
    destruct (split_down_lists_shape (Z.to_nat (k - order)) A k order B rest
                (proj1 Ho) ltac:(lia) eq_refl HAk Hnil)
      as (S1 & S2 & S3 & S4).
    set (A1 := split_down_lists _ _ _ _) in *.
    replace (order <? k) with true in S1 by lia.
    rewrite S1 in Halloc. injection Halloc as <- <-.
    apply (merge_lists_unsplit _ _ A order k B rest HA Hnfb (proj1 Ho)
             ltac:(lia) eq_refl HAk Hnil); try exact Hm.
    + rewrite !upd_same. replace (order <? k) with true by lia. cbn.
      now replace (B + 2 ^ order <? B) with false by lia.
    + intros i Hi. rewrite !upd_other by lia. apply S2. lia.
    + intros Hlt. rewrite !upd_other by lia. apply S3. lia.
    + intros i Hi Hi'. rewrite !upd_other by lia. apply S4. lia.
  - injection Halloc as <- <-.
    pose proof (good_sorted A HA order Ho) as Hs. rewrite HAo in Hs.
    apply (merge_lists_unsplit _ _ A order order p0 rest0 HA Hnfb (proj1 Ho)
             ltac:(lia) eq_refl HAo); try exact Hm; try (intros; lia).
    + rewrite !upd_same. replace (order <? order) with false by lia.
      now apply ins_head.
    + intros i Hi Hi'. now rewrite !upd_other by lia.
Qed.

(** ** Bulk insertion *)

Lemma land_pow2_testbit (n c : Z) :
  0 <= n -> (Z.land (2 ^ n) c =? 0) = negb (Z.testbit c n).
Proof.
  intros Hn. destruct (Z.testbit c n) eqn:E; cbn.
  - apply Z.eqb_neq. intros H.
    assert (Hb : Z.testbit (Z.land (2 ^ n) c) n = true).
    { rewrite Z.land_spec, Z.pow2_bits_true, E by assumption. reflexivity. }
    rewrite H, Z.bits_0 in Hb. discriminate.
  - apply Z.eqb_eq. apply Z.bits_inj'. intros i Hi.
    rewrite Z.land_spec, Z.bits_0, Z.pow2_bits_eqb by assumption.
    destruct (Z.eqb_spec n i) as [<-|]; [now rewrite E|reflexivity].
Qed.

(** The bit test of the low-order sweep: it tells whether the PFN is
    aligned to the next order already, or will be after one block. *)
Lemma bit_test (n p : Z) :
  0 <= n -> (2 ^ n | p) ->
  if Z.land (2 ^ n) p =? 0 then (2 ^ (n + 1) | p) else (2 ^ (n + 1) | p + 2 ^ n).
Proof.
  intros Hn Hp. pose proof (pow2_pos n Hn) as Hpos.
  destruct (get_buddy_cases n p Hn Hp) as [(Hd & Hb)|(Hd & Hb)].
  - rewrite Z.land_comm, (land_pow2_aligned n p Hn Hd). exact Hd.
  - destruct (Z.eqb_spec (Z.land (2 ^ n) p) 0) as [H|_].
    + exfalso. rewrite Z.land_comm in H. apply Z.add_nocarry_lxor in H.
      unfold get_buddy in Hb. rewrite pages_per_block_pow in Hb by assumption.
      lia.
    + replace (p + 2 ^ n) with (p - 2 ^ n + 2 ^ (n + 1))
        by (rewrite pow2_succ by assumption; ring).
      apply Z.divide_add_r; [exact Hd|apply Z.divide_refl].
Qed.

(** The bit test of the high-order sweep, in terms of what is left of the
    count below the current order. *)
Lemma mod_bit (n c : Z) :
  0 <= n ->
  c mod 2 ^ (n + 1)
  = c mod 2 ^ n + (if Z.land (2 ^ n) c =? 0 then 0 else 2 ^ n).
Proof.
  intros Hn. pose proof (pow2_pos n Hn) as Hpos.
  rewrite pow2_succ, Z.mul_comm by assumption.
  rewrite Z.rem_mul_r by lia.
  rewrite <- Z.testbit_spec' by assumption.
  rewrite land_pow2_testbit by assumption.
  destruct (Z.testbit c n); cbn; lia.
Qed.

Section Sweep.

(** The state and lists at the start of [insert_free_pages], and the range
    [[lo, hi)] it is asked to insert. *)
Variables (s0 : state) (A0 : lists) (lo hi : Z).

(** What holds at each point of the three loops, [pfn] being the first page
    not yet inserted: the lists are in order, no listed block reaches into
    the part of the range still to come, and whatever was clear of free
    blocks outside the range still is. *)
Definition swept (s : state) (pfn : Z) : Prop :=
  exists A,
    rep s A /\ good A /\ no_free_buddies A /\
    (pfn < hi -> avoids A pfn hi) /\
    (forall lo' hi', lo' < hi' -> avoids A0 lo' hi' ->
                     hi <= lo' \/ hi' <= lo -> avoids A lo' hi') /\
    (clean s0 A0 -> clean s A).

Lemma swept_free (s : state) (pfn n : Z) :
  swept s pfn -> in_order n -> lo <= pfn -> 0 <= pfn -> (2 ^ n | pfn) ->
  pfn + 2 ^ n <= hi -> hi <= 2 ^ 64 ->
  (exists s', free_pages s pfn n = Ret s' /\ swept s' (pfn + 2 ^ n)) \/
  (free_pages s pfn n = Stop Assertion /\ ~ clean s0 A0).
Proof.
  intros (A & Hrep & HA & Hnfb & Hav & Hout & Hc) Hn Hlo Hp Hal Hend Hhi.
  pose proof (pow2_pos n (proj1 Hn)) as Hpos.
  specialize (Hav ltac:(lia)).
  assert (Hap : apart A n pfn).
  { intros m q Hm Hq. destruct (Hav m q Hm Hq); lia. }
  destruct (free_pages_spec s A n pfn Hrep HA Hn ltac:(lia) Hal Hap)
    as [(s' & Hfree & Hrep' & Hc')|(Hfree & Hnc)].
  - left. exists s'. split; [exact Hfree|].
    destruct (free_lists_keeps A n pfn HA Hn ltac:(lia) Hal Hap)
      as (Hg & Hnfb' & Hav').
    exists (free_lists A n pfn).
    split; [exact Hrep'|]. split; [exact Hg|]. split; [auto|].
    split; [|split]; [| |auto].
    + intros Hlt. apply Hav'; [exact Hlt| |lia].
      intros m q Hm Hq. destruct (Hav m q Hm Hq); lia.
    + intros lo' hi' Hlt Hav0 Hside. apply Hav'; [exact Hlt|auto|lia].
  - right. split; [exact Hfree|]. auto.
Qed.

Lemma swept_insert_last (s : state) (pfn : Z) :
  swept s pfn -> lo <= pfn -> 0 <= pfn -> (2 ^ LastOrder | pfn) ->
  pfn + 2 ^ LastOrder <= hi -> hi <= 2 ^ 64 ->
  exists s',
    insert_free_block s LastOrder pfn = Ret s' /\
    swept s' (pfn + 2 ^ LastOrder).
Proof.
  intros (A & Hrep & HA & Hnfb & Hav & Hout & Hc) Hlo Hp Hal Hend Hhi.
  assert (Hn : in_order LastOrder) by (unfold in_order, LastOrder; lia).
  pose proof (pow2_pos LastOrder (proj1 Hn)) as Hpos.
  specialize (Hav ltac:(lia)).
  assert (Hap : apart A LastOrder pfn).
  { intros m q Hm Hq. destruct (Hav m q Hm Hq); lia. }
  destruct (insert_free_block_spec s A LastOrder pfn Hrep HA Hn Hal
              (apart_unlisted A LastOrder pfn (proj1 Hn) Hap))
    as (s' & Hins & Hrep' & Hc').
  exists s'. split; [exact Hins|].
  exists (upd A LastOrder (ins pfn (A LastOrder))).
  split; [exact Hrep'|].
  split; [exact (good_ins A LastOrder pfn HA Hn ltac:(lia) Hal Hap)|].
  split; [|split; [|split]]; [| | |auto].
  - intros n x Hnx Hx Hbx. rewrite upd_other in Hx, Hbx by lia.
    exact (Hnfb n x Hnx Hx Hbx).
  - intros Hlt. apply avoids_ins; [|lia].
    intros m q Hm Hq. destruct (Hav m q Hm Hq); lia.
  - intros lo' hi' Hlt Hav0 Hside. apply avoids_ins; [auto|lia].
Qed.

Lemma low_order_sweep_spec (n : nat) :
  forall (s : state) (order pfn count : Z),
    swept s pfn -> 0 <= order <= LastOrder ->
    n = Z.to_nat (LastOrder - order) ->
    lo <= pfn -> 0 <= pfn -> 0 <= count -> pfn + count = hi -> hi < 2 ^ 64 ->
    (2 ^ order | pfn) ->
    (exists s' order' pfn' count',
       low_order_sweep n s order (2 ^ order) pfn count
       = Ret (s', order', 2 ^ order', pfn', count') /\
       swept s' pfn' /\ 0 <= order' <= LastOrder /\ lo <= pfn' /\ 0 <= pfn' /\
       0 <= count' /\ pfn' + count' = hi /\ (2 ^ order' | pfn') /\
       (count' < 2 ^ order' \/ order' = LastOrder)) \/
    (low_order_sweep n s order (2 ^ order) pfn count = Stop Assertion /\
     ~ clean s0 A0).
Proof.
  induction n as [|n IH];
    intros s order pfn count Hsw Ho Hn Hlo Hp Hc Hsum Hhi Hal.
  - left. exists s, order, pfn, count. cbn.
    replace (order <? LastOrder) with false by lia. rewrite andb_false_r.
    repeat split; try assumption; try lia.
  - pose proof (pow2_pos order (proj1 Ho)) as Hpos.
    cbn [low_order_sweep].
    destruct (Z.leb_spec (2 ^ order) count) as [Hle|Hgt]; cbn [andb].
    2:{ left. exists s, order, pfn, count.
        repeat split; try assumption; try lia. }
    replace (order <? LastOrder) with true by lia.
    assert (Ho1 : 0 <= order + 1 <= LastOrder) by lia.
    assert (Hlsb : u64 (Z.shiftl (2 ^ order) 1) = 2 ^ (order + 1)).
    { rewrite Z.shiftl_mul_pow2, Z.pow_1_r by lia.
      rewrite pow2_succ by lia. unfold u64.
      pose proof (pow2_le (order + 1) 16 ltac:(olia)) as H16.
      rewrite pow2_succ in H16 by lia.
      change (2 ^ 16) with 65536 in H16.
      rewrite Z.mod_small by (change (2 ^ 64) with 18446744073709551616; lia).
      ring. }
    rewrite Hlsb.
    pose proof (bit_test order pfn (proj1 Ho) Hal) as Hbit.
    destruct (Z.land (2 ^ order) pfn =? 0); cbn [negb].
    + cbn [bind].
      exact (IH s (order + 1) pfn count Hsw Ho1 ltac:(lia) Hlo Hp Hc Hsum Hhi
               Hbit).
    + destruct (swept_free s pfn order Hsw Ho Hlo Hp Hal ltac:(lia) ltac:(lia))
        as [(s' & Hfree & Hsw')|(Hfree & Hnc)].
      * rewrite Hfree. cbn [bind]. unfold u64.
        rewrite !Z.mod_small by lia.
        exact (IH s' (order + 1) (pfn + 2 ^ order) (count - 2 ^ order) Hsw' Ho1
                 ltac:(lia) ltac:(lia) ltac:(lia) ltac:(lia) ltac:(lia) Hhi
                 Hbit).
      * right. rewrite Hfree. cbn [bind]. auto.
Qed.

Lemma cap_loop_spec (n : nat) :
  forall (s : state) (pfn count : Z),
    swept s pfn -> n = Z.to_nat (count / 2 ^ LastOrder) ->
    lo <= pfn -> 0 <= pfn -> 0 <= count -> pfn + count = hi -> hi < 2 ^ 64 ->
    (2 ^ LastOrder < count -> (2 ^ LastOrder | pfn)) ->
    exists s' pfn' count' m,
      cap_loop n s (2 ^ LastOrder) pfn count = Ret (s', pfn', count') /\
      swept s' pfn' /\ lo <= pfn' /\ 0 <= pfn' /\
      0 <= count' <= 2 ^ LastOrder /\ pfn' + count' = hi /\
      0 <= m /\ pfn' = pfn + m * 2 ^ LastOrder /\
      count' = count - m * 2 ^ LastOrder.
Proof.
  assert (Hpos : 0 < 2 ^ LastOrder) by (apply pow2_pos; olia).
  induction n as [|n IH]; intros s pfn count Hsw Hn Hlo Hp Hc Hsum Hhi Hal.
  - assert (Hsmall : count < 2 ^ LastOrder).
    { destruct (Z_lt_le_dec count (2 ^ LastOrder)) as [H|H]; [exact H|].
      pose proof (Z.div_le_lower_bound count (2 ^ LastOrder) 1 Hpos
                    ltac:(lia)). lia. }
    exists s, pfn, count, 0. cbn [cap_loop].
    replace (count >? 2 ^ LastOrder) with false by lia.
    repeat split; try assumption; lia.
  - cbn [cap_loop].
    destruct (Z.gtb_spec count (2 ^ LastOrder)) as [Hgt|Hle].
    2:{ exists s, pfn, count, 0. repeat split; try assumption; lia. }
    destruct (swept_insert_last s pfn Hsw Hlo Hp (Hal Hgt) ltac:(lia)
                ltac:(lia))
      as (s' & Hins & Hsw').
    rewrite Hins. cbn [bind]. unfold u64. rewrite !Z.mod_small by lia.
    assert (Hdiv : (count - 2 ^ LastOrder) / 2 ^ LastOrder
                   = count / 2 ^ LastOrder - 1).
    { replace (count - 2 ^ LastOrder) with (count + (-1) * 2 ^ LastOrder)
        by ring.
      rewrite Z.div_add by lia. ring. }
    destruct (IH s' (pfn + 2 ^ LastOrder) (count - 2 ^ LastOrder) Hsw'
                ltac:(lia) ltac:(lia) ltac:(lia) ltac:(lia) ltac:(lia) Hhi)
      as (s2 & pfn2 & count2 & m & Hcap & Hsw2 & H1 & H2 & H3 & H4 & H5 & H6 & H7).
    { intros _. apply Z.divide_add_r; [auto|apply Z.divide_refl]. }
    exists s2, pfn2, count2, (m + 1). rewrite Hcap.
    repeat split; try assumption; lia.
Qed.

Lemma high_order_sweep_spec (n : nat) :
  forall (s : state) (order pfn count : Z),
    swept s pfn -> 0 <= order <= LastOrder -> n = S (Z.to_nat order) ->
    lo <= pfn -> 0 <= pfn -> 0 <= count ->
    pfn + count mod 2 ^ order <= hi -> hi < 2 ^ 64 -> (2 ^ order | pfn) ->
    (exists s' pfn',
       high_order_sweep n s order (2 ^ order) pfn count = Ret s' /\
       swept s' pfn') \/
    (high_order_sweep n s order (2 ^ order) pfn count = Stop Assertion /\
     ~ clean s0 A0).
Proof.
  induction n as [|n IH];
    intros s order pfn count Hsw Ho Hn Hlo Hp Hc Hsum Hhi Hal; [lia|].
  pose proof (pow2_pos order (proj1 Ho)) as Hpos.
  cbn [high_order_sweep].
  replace (2 ^ order >? 0) with true by lia.
  destruct (Z.eq_dec order 0) as [->|Hne].
  - (* the last round: [lsb] becomes 0 and nothing is freed *)
    left. exists s, pfn. cbn [Z.pow Z.shiftr Z.shiftl Z.pow_pos Pos.iter Z.mul Pos.mul].
    change (Z.shiftr (2 ^ 0) 1) with 0. cbn [Z.land Z.eqb negb bind].
    destruct n; cbn; auto.
  - assert (Ho1 : 0 <= order - 1 <= LastOrder) by lia.
    assert (Hlsb : Z.shiftr (2 ^ order) 1 = 2 ^ (order - 1)).
    { rewrite Z.shiftr_div_pow2, Z.pow_1_r by lia.
      replace order with (order - 1 + 1) at 1 by lia.
      rewrite pow2_succ by lia. rewrite Z.mul_comm, Z.div_mul by lia.
      reflexivity. }
    rewrite Hlsb.
    pose proof (mod_bit (order - 1) count ltac:(lia)) as Hmod.
    replace (order - 1 + 1) with order in Hmod by lia.
    pose proof (pow2_succ (order - 1) ltac:(lia)) as Hsucc.
    replace (order - 1 + 1) with order in Hsucc by lia.
    pose proof (pow2_pos (order - 1) ltac:(lia)) as Hpos1.
    assert (Hal1 : (2 ^ (order - 1) | pfn)).
    { apply (divide_pow2_succ (order - 1)); [lia|].
      now replace (order - 1 + 1) with order by lia. }
    pose proof (Z.mod_pos_bound count (2 ^ (order - 1)) Hpos1) as Hmb.
    destruct (Z.land (2 ^ (order - 1)) count =? 0); cbn [negb].
    + cbn [bind].
      exact (IH s (order - 1) pfn count Hsw Ho1 ltac:(lia) Hlo Hp Hc
               ltac:(lia) Hhi Hal1).
    + destruct (swept_free s pfn (order - 1) Hsw Ho1 Hlo Hp Hal1 ltac:(lia)
                  ltac:(lia))
        as [(s' & Hfree & Hsw')|(Hfree & Hnc)].
      * rewrite Hfree. cbn [bind]. unfold u64. rewrite Z.mod_small by lia.
        apply (IH s' (order - 1) (pfn + 2 ^ (order - 1)) count Hsw' Ho1);
          try lia; try assumption.
        apply Z.divide_add_r; [exact Hal1|apply Z.divide_refl].
      * right. rewrite Hfree. cbn [bind]. auto.
Qed.

End Sweep.

(** [insert_free_pages] on a range that no listed block reaches into. *)
Lemma insert_free_pages_spec (s : state) (A : lists) (pfn count : Z) :
  rep s A -> good A -> no_free_buddies A ->
  0 <= pfn < 2 ^ 64 -> 0 <= count < 2 ^ 64 ->
  (0 < count -> avoids A pfn (pfn + count)) ->
  (exists s' A',
     insert_free_pages s pfn count = Ret s' /\
     rep s' A' /\ good A' /\ no_free_buddies A' /\
     (forall lo' hi', lo' < hi' -> avoids A lo' hi' ->
                      pfn + count <= lo' \/ hi' <= pfn -> avoids A' lo' hi') /\
     (clean s A -> clean s' A')) \/
  (insert_free_pages s pfn count = Stop Assertion /\
   (overflow_check pfn count = false \/ ~ clean s A)).
Proof.
  intros Hrep HA Hnfb Hp Hc Hav.
  unfold insert_free_pages.
  destruct (overflow_check pfn count) eqn:Hcheck; cbn [assert bind].
  2:{ right. auto. }
  assert (Hhi : pfn + count < 2 ^ 64).
  { unfold overflow_check, u64, UNIT64_MAX in Hcheck.
    rewrite Z.mod_small in Hcheck
      by (change (2 ^ 64) with 18446744073709551616 in *; lia).
    change (2 ^ 64) with 18446744073709551616. lia. }
  assert (Hsw : swept s A pfn (pfn + count) s pfn).
  { exists A. split; [exact Hrep|]. split; [exact HA|]. split; [exact Hnfb|].
    split; [intros H; apply Hav; lia|]. split; [intros; assumption|auto]. }
  change (Z.shiftl 1 LastOrder) with (2 ^ LastOrder).
  change (LastOrder - 0) with LastOrder.
  destruct (low_order_sweep_spec s A pfn (pfn + count)
              (Z.to_nat LastOrder) s 0 pfn count Hsw ltac:(olia)
              ltac:(f_equal; lia) ltac:(lia) ltac:(lia) ltac:(lia) eq_refl Hhi
              (Z.divide_1_l pfn))
    as [(s1 & order1 & pfn1 & count1 & Hlow & Hsw1 & Ho1 & Hlo1 & Hp1 & Hc1
         & Hsum1 & Hal1 & Hexit)|(Hlow & Hnc)].
  2:{ right. change (2 ^ 0) with 1 in Hlow. rewrite Hlow. cbn [bind]. auto. }
  change (2 ^ 0) with 1 in Hlow. rewrite Hlow. cbn [bind].
  pose proof (pow2_pos order1 (proj1 Ho1)) as Hpos1.
  destruct (cap_loop_spec s A pfn (pfn + count)
              (Z.to_nat (count1 / 2 ^ LastOrder)) s1 pfn1 count1 Hsw1 eq_refl
              Hlo1 Hp1 Hc1 Hsum1 Hhi)
    as (s2 & pfn2 & count2 & m & Hcap & Hsw2 & Hlo2 & Hp2 & Hc2 & Hsum2 & Hm
        & Hpfn2 & Hcount2).
  { intros Hbig. destruct Hexit as [Hsmall| ->]; [|exact Hal1].
    pose proof (pow2_le order1 LastOrder ltac:(lia)). lia. }
  rewrite Hcap. cbn [bind].
  assert (Hal2 : (2 ^ order1 | pfn2)).
  { rewrite Hpfn2. apply Z.divide_add_r; [exact Hal1|].
    apply Z.divide_mul_r. apply pow2_divide. lia. }
  rewrite Z.log2_pow2 by lia.
  pose proof (Z.mod_le count2 (2 ^ order1) ltac:(lia) Hpos1) as Hmle.
  destruct (high_order_sweep_spec s A pfn (pfn + count)
              (S (Z.to_nat order1)) s2 order1 pfn2 count2 Hsw2 Ho1 eq_refl
              Hlo2 Hp2 ltac:(lia) ltac:(lia) Hhi Hal2)
    as [(s3 & pfn3 & Hhigh & (A3 & Hrep3 & HA3 & Hnfb3 & _ & Hout3 & Hc3))
       |(Hhigh & Hnc)].
  - left. exists s3, A3. rewrite Hhigh.
    split; [reflexivity|]. split; [exact Hrep3|]. split; [exact HA3|].
    split; [exact Hnfb3|]. split; [exact Hout3|exact Hc3].
  - right. rewrite Hhigh. auto.
Qed.

(** ** Allocation failure, whatever the state *)

(** The scan for a non-empty list stops at the first one, or at
    [LastOrder + 1]. *)
Lemma scan_up_spec (n : nat) (s : state) (order : Z) :
  n = Z.to_nat (LastOrder + 1 - order) -> order <= LastOrder + 1 ->
  let r := scan_up n s order in
  order <= r <= LastOrder + 1 /\
  (forall k, order <= k < r -> free_list_ s k = None) /\
  (r <= LastOrder -> free_list_ s r <> None).
Proof.
  revert order.
  induction n as [|n IH]; intros order Hn Hle; cbn.
  - repeat split; olia.
  - destruct (order <=? LastOrder) eqn:E1; cbn.
    + destruct (free_list_ s order) eqn:E2.
      * repeat split; try olia. congruence.
      * specialize (IH (order + 1) ltac:(olia) ltac:(olia)). cbn in IH.
        destruct IH as (H1 & H2 & H3).
        repeat split; try olia; [|exact H3].
        intros k Hk. destruct (Z.eq_dec k order) as [->|]; [exact E2|].
        apply H2. olia.
    + olia.
Qed.

Lemma walk_rounds_head (go : Z -> bool) (s : state) (n : nat) :
  forall sl sl',
    rounds_nat (walk_cond go s) (next_slot s) n sl = Ret (inl sl') ->
    sl' = sl \/ (load s sl <> None /\ exists q, sl' = Link q).
Proof.
  induction n as [|n IH]; intros sl sl'; cbn [rounds_nat].
  - discriminate.
  - unfold round, walk_cond, next_slot.
    destruct (load s sl) as [q|] eqn:E.
    + destruct (go q); cbn.
      * intros H. apply IH in H. right. split; [discriminate|].
        destruct H as [->|(_ & q' & ->)]; eauto.
      * intros [= <-]. now left.
    + cbn. intros [= <-]. now left.
Qed.

Lemma walk_while_head (go : Z -> bool) (s : state) (fuel : positive)
    (sl sl' : slot) :
  while (walk_cond go s) (next_slot s) fuel sl = Ret sl' ->
  sl' = sl \/ (load s sl <> None /\ exists q, sl' = Link q).
Proof.
  unfold while. rewrite rounds_unary. intros H.
  apply bind_ret_inv in H. destruct H as ([sl1|sl1] & H & E); [|discriminate].
  injection E as ->. exact (walk_rounds_head go s _ sl sl' H).
Qed.

Lemma insert_buddies_head (s s' : state) (order a b : Z) :
  insert_buddies s order a b = Ret s' -> free_list_ s' order <> None.
Proof.
  unfold insert_buddies. rewrite get_slot_unfold. intros H.
  apply bind_ret_inv in H. destruct H as (sl & H & H').
  apply bind_ret_inv in H. destruct H as (_ & _ & H).
  apply bind_ret_inv in H. destruct H as (_ & _ & H).
  apply bind_ret_inv in H. destruct H as (sl0 & Hloop & H).
  apply bind_ret_inv in H. destruct H as (_ & _ & H).
  injection H as ->.
  apply bind_ret_inv in H'. destruct H' as (_ & _ & H').
  injection H' as <-.
  apply walk_while_head in Hloop.
  destruct Hloop as [->|(Hne & q & ->)]; cbn.
  - rewrite Z.eqb_refl. discriminate.
  - exact Hne.
Qed.

Lemma split_down_head (n : nat) (s s' : state) (order target : Z) :
  split_down n s order target = Ret s' -> target < order ->
  free_list_ s' target <> None.
Proof.
  revert s order.
  induction n as [|n IH]; intros s order; cbn.
  - destruct (order >? target) eqn:E; [discriminate|intros _ H; olia].
  - destruct (order >? target) eqn:E; [|intros _ H; olia].
    destruct (free_list_ s order) as [b|]; [|discriminate].
    intros H Hlt. apply bind_ret_inv in H. destruct H as (s1 & Hsplit & H).
    destruct (Z.eq_dec (order - 1) target) as [Heq|Hne].
    + assert (Hs1 : s' = s1).
      { destruct n; cbn in H;
          replace (order - 1 >? target) with false in H by olia; congruence. }
      subst s'. unfold split_block in Hsplit.
      apply bind_ret_inv in Hsplit. destruct Hsplit as (_ & _ & Hsplit).
      apply bind_ret_inv in Hsplit. destruct Hsplit as (s2 & _ & Hsplit).
      rewrite Heq in Hsplit. now apply insert_buddies_head in Hsplit.
    + apply (IH _ _ H). olia.
Qed.

(** [iterative_split] hands back [nullptr] exactly when every list from the
    target order up is empty. *)
Lemma iterative_split_null_iff (s : state) (order : Z) :
  0 <= order <= LastOrder ->
  (exists s', iterative_split s order = Ret (None, s')) <->
  (forall k, order <= k <= LastOrder -> free_list_ s k = None).
Proof.
  intros Hr. unfold iterative_split.
  replace (in_range order) with true by (symmetry; now apply in_range_iff).
  cbn [assert bind].
  pose proof (scan_up_spec (Z.to_nat (LastOrder - order)) s (order + 1)
                ltac:(f_equal; olia) ltac:(olia)) as Hscan.
  cbn zeta in Hscan. destruct Hscan as (H1 & H2 & H3).
  set (r := scan_up _ _ _) in *.
  split.
  - intros [s' H] k Hk.
    destruct (free_list_ s order) as [p|] eqn:E; [discriminate|].
    destruct (r >? LastOrder) eqn:E2.
    + destruct (Z.eq_dec k order) as [->|]; [exact E|]. apply H2. olia.
    + apply bind_ret_inv in H. destruct H as (s1 & Hsd & H).
      injection H as H <-.
      apply split_down_head in Hsd; [contradiction|olia].
  - intros Hall. exists s.
    rewrite (Hall order) by olia.
    destruct (r >? LastOrder) eqn:E2; [reflexivity|].
    exfalso. apply H3; [olia|]. apply Hall. olia.
Qed.

(** C1 (evaluation of the code).  On a freshly constructed allocator,
    [insert_free_pages(pfn = 0, count = 2^16)] returns without putting any
    block on any list: the allocator is exactly as it was, and the
    [allocate_pages(order = 0)] that follows returns [nullptr] instead of
    the page at PFN 0. *)
Theorem insert_one_last_order_block_inserts_nothing
    (nf : Z -> option Z) (bd : Z -> Z -> Z) (flags : page_allocation_flags) :
  insert_free_pages (fresh nf bd) 0 (2 ^ 16) = Ret (fresh nf bd) /\
  (s <- insert_free_pages (fresh nf bd) 0 (2 ^ 16);;
   allocate_pages s 0 flags) = Ret (None, fresh nf bd).
Proof. split; reflexivity. Qed.

(** C5. [allocate_pages] returns [nullptr] exactly when the order is
    outside [0, LastOrder] or every free list from that order up is empty
    (nothing to take, nothing to split); with an order out of range it
    returns [nullptr] and the state is untouched; [free_pages] with an
    order out of range stops on its assertion. *)
Theorem allocate_pages_null_iff
    (s : state) (order : Z) (flags : page_allocation_flags) :
  ((exists s', allocate_pages s order flags = Ret (None, s')) <->
   (order < 0 \/ LastOrder < order) \/
   (forall k, order <= k <= LastOrder -> free_list_ s k = None)) /\
  (order < 0 \/ LastOrder < order ->
   allocate_pages s order flags = Ret (None, s) /\
   forall block_start, free_pages s block_start order = Stop Assertion).
Proof.
  split.
  - unfold allocate_pages.
    destruct ((order <? 0) || (order >? LastOrder)) eqn:E.
    + split; [intros _; left; olia|intros _; eauto].
    + assert (Hr : 0 <= order <= LastOrder) by olia.
      rewrite <- (iterative_split_null_iff s order Hr).
      split.
      * intros [s' H]. apply bind_ret_inv in H.
        destruct H as ([chosen s1] & Hsplit & H).
        destruct chosen as [p|].
        -- apply bind_ret_inv in H. destruct H as (s2 & _ & H). discriminate.
        -- right. eauto.
      * intros [[H|H]|[s' H]]; try olia.
        rewrite H. cbn. eauto.
  - intros Hout. split.
    + unfold allocate_pages.
      replace ((order <? 0) || (order >? LastOrder)) with true by olia.
      reflexivity.
    + intros block_start. unfold free_pages.
      replace (in_range order) with false; [reflexivity|].
      unfold in_range. olia.
Qed.

(** C6. When [allocate_pages] is called with the [zero] flag and returns a
    page [p], every page of the block, from [p] to [p + 2^order - 1], is
    all zero on return: its first word (the link) is null and every other
    byte of its body is 0. *)
Theorem allocate_pages_zero_flag_clears_block
    (s s' : state) (order p : Z) (flags : page_allocation_flags)
    (Hflag : Z.land flags zero = zero)
    (Hret : allocate_pages s order flags = Ret (Some p, s')) :
  forall q, p <= q < p + 2 ^ order ->
    next_free s' q = None /\ forall i, body s' q i = 0.
Proof.
  intros q Hq. unfold allocate_pages in Hret.
  destruct ((order <? 0) || (order >? LastOrder)) eqn:E; [discriminate|].
  apply bind_ret_inv in Hret. destruct Hret as ([chosen s1] & _ & H).
  destruct chosen as [p'|]; [|discriminate].
  apply bind_ret_inv in H. destruct H as (s2 & _ & H).
  rewrite Hflag, Z.eqb_refl in H. injection H as -> <-.
  cbn. rewrite Z.shiftl_1_l.
  replace ((p <=? q) && (q <? p + 2 ^ order)) with true by olia.
  split; reflexivity.
Qed.

Lemma allocate_pages_zero_flag_clears_block_witness :
  next_free
    (pzero (set_next_free
              (set_free_list
                 (set_free_list (fresh (fun _ => None) (fun _ _ => 255))
                    1 (Some 0))
                 1 None)
              0 None) 0 2) 1 = None /\
  body
    (pzero (set_next_free
              (set_free_list
                 (set_free_list (fresh (fun _ => None) (fun _ _ => 255))
                    1 (Some 0))
                 1 None)
              0 None) 0 2) 1 4095 = 0.
Proof.
  assert (Hq : 0 <= 1 < 0 + 2 ^ 1) by (split; [discriminate|reflexivity]).
  pose proof (allocate_pages_zero_flag_clears_block
                (set_free_list (fresh (fun _ => None) (fun _ _ => 255)) 1 (Some 0))
                _ 1 0 zero eq_refl eq_refl 1 Hq) as H.
  exact (conj (proj1 H) (proj2 H 4095)).
Defined.

(** C7 (as the code has it).  For PFNs and counts that fit 64 bits, the
    assertion at the top of [insert_free_pages] passes exactly when
    [pfn + page_count < 2^64 - 1]; when it fails the call stops there, and
    when it passes the call goes on into the three insertion loops. *)
Theorem insert_free_pages_overflow_assertion
    (s : state) (pfn page_count : Z)
    (Hpfn : 0 <= pfn < 2 ^ 64) (Hcount : 0 <= page_count < 2 ^ 64) :
  (overflow_check pfn page_count = true <-> pfn + page_count < 2 ^ 64 - 1) /\
  (overflow_check pfn page_count = false ->
   insert_free_pages s pfn page_count = Stop Assertion) /\
  (overflow_check pfn page_count = true ->
   insert_free_pages s pfn page_count =
   ('(s1, order, lsb, pfn1, count1) <-
      low_order_sweep 16 s 0 1 pfn page_count;;
    '(s2, pfn2, count2) <-
      cap_loop (Z.to_nat (count1 / 2 ^ 16)) s1 (2 ^ 16) pfn1 count1;;
    high_order_sweep (S (Z.to_nat (Z.log2 lsb))) s2 order lsb pfn2 count2)).
Proof.
  unfold overflow_check, u64, UNIT64_MAX.
  rewrite Z.mod_small by lia.
  split; [lia|]. split.
  - intros H. unfold insert_free_pages, overflow_check, u64, UNIT64_MAX.
    rewrite Z.mod_small by lia. rewrite H. reflexivity.
  - intros H. unfold insert_free_pages, overflow_check, u64, UNIT64_MAX.
    rewrite Z.mod_small by lia. rewrite H. reflexivity.
Qed.

Lemma insert_free_pages_overflow_assertion_witness :
  overflow_check 3 10 = true <-> 3 + 10 < 2 ^ 64 - 1.
Proof.
  assert (H3 : 0 <= 3 < 2 ^ 64) by (split; [discriminate|reflexivity]).
  assert (H10 : 0 <= 10 < 2 ^ 64) by (split; [discriminate|reflexivity]).
  exact (proj1 (insert_free_pages_overflow_assertion
                  (fresh (fun _ => None) (fun _ _ => 0)) 3 10 H3 H10)).
Defined.

(** C7 (counterexample).  PFN [2^64 - 2] with a count of 1: the sum is
    [2^64 - 1] and does not wrap, yet the assertion fails. *)
Lemma overflow_assertion_fails_without_wrap :
  (2 ^ 64 - 2) + 1 < 2 ^ 64 /\
  insert_free_pages (fresh (fun _ => None) (fun _ _ => 0)) (2 ^ 64 - 2) 1
  = Stop Assertion.
Proof. split; reflexivity. Qed.

(** ** The allocator between calls *)

(** The condition in which the allocator leaves a state [s] when nobody
    else writes to the pages: its free lists are lists [A] that are sorted,
    aligned and pairwise disjoint ([good]), no two buddies are both listed,
    and no page outside the heads of listed blocks carries a link.  The
    last part is more than the design document gives: its invariant 5 says
    where [next_free] has a meaning, not that the word is null elsewhere. *)
Definition global_invariants (s : state) : Prop :=
  exists A, rep s A /\ good A /\ no_free_buddies A /\ clean s A.


(** A page that is the first of a block on the free list of order [n]. *)
Definition listed (s : state) (n q : Z) : Prop :=
  exists l, free_list_is s n l /\ In q l.

Lemma listed_rep (s : state) (A : lists) (n q : Z) :
  rep s A -> in_order n -> listed s n q <-> In q (A n).
Proof.
  intros Hrep Hn. split.
  - intros (l & Hl & Hq). now rewrite <- (lseg_inj _ _ _ _ Hl (Hrep n Hn)).
  - intros Hq. exists (A n). split; [exact (Hrep n Hn)|exact Hq].
Qed.

(** The two parts of [global_invariants].  [well_formed], the invariants
    of the design document: the free lists are lists of blocks that are
    sorted, aligned and pairwise disjoint, and no two buddies are both
    listed.  [links_null], the further condition that the merge test
    relies on: the first word of every page that is not the first page of
    a listed block is null. *)
Definition well_formed (s : state) : Prop :=
  exists A, rep s A /\ good A /\ no_free_buddies A.

Definition links_null (s : state) : Prop :=
  forall q, (forall n, in_order n -> ~ listed s n q) -> next_free s q = None.

Lemma clean_links_null (s : state) (A : lists) :
  rep s A -> clean s A <-> links_null s.
Proof.
  intros Hrep. split.
  - intros Hc q Hq. apply Hc. intros m Hm Hin.
    apply (Hq m Hm). now apply (listed_rep s A m q Hrep Hm).
  - intros Hl q Hq. apply Hl. intros n Hn Hin.
    apply (Hq n Hn). now apply (listed_rep s A n q Hrep Hn).
Qed.

Lemma global_invariants_split (s : state) :
  global_invariants s <-> well_formed s /\ links_null s.
Proof.
  split.
  - intros (A & Hrep & HA & Hnfb & Hc).
    split; [exists A; auto|]. now apply (clean_links_null s A Hrep).
  - intros ((A & Hrep & HA & Hnfb) & Hl). exists A.
    split; [exact Hrep|]. split; [exact HA|]. split; [exact Hnfb|].
    now apply (clean_links_null s A Hrep).
Qed.

(** The public calls. *)
Inductive call :=
| Insert (range_start page_count : Z)
| Allocate (order : Z) (flags : page_allocation_flags)
| Free (block_start order : Z).

(** The blocks handed out by [allocate_pages] and not yet given back, as
    pairs of a PFN and an order. *)
Definition owned := list (Z * Z).

Definition block_eq_dec (x y : Z * Z) : {x = y} + {x <> y}.
Proof. decide equality; apply Z.eq_dec. Defined.

(** One call that returns, made by a caller who keeps to the rules:
    [insert_free_pages] is given a range of which no page is free or handed
    out, [free_pages] a block that [allocate_pages] handed out at this
    order and that has not been freed since. *)
Inductive step : state * owned -> call -> state * owned -> Prop :=
| step_insert (s s' : state) (G : owned) (pfn count : Z) :
    0 <= pfn < 2 ^ 64 -> 0 <= count < 2 ^ 64 ->
    (0 < count -> forall n q, in_order n -> listed s n q ->
                              q + 2 ^ n <= pfn \/ pfn + count <= q) ->
    (0 < count -> forall q n, In (q, n) G ->
                              q + 2 ^ n <= pfn \/ pfn + count <= q) ->
    insert_free_pages s pfn count = Ret s' ->
    step (s, G) (Insert pfn count) (s', G)
| step_allocate (s s' : state) (G : owned) (order p : Z)
    (flags : page_allocation_flags) :
    allocate_pages s order flags = Ret (Some p, s') ->
    step (s, G) (Allocate order flags) (s', (p, order) :: G)
| step_allocate_null (s s' : state) (G : owned) (order : Z)
    (flags : page_allocation_flags) :
    allocate_pages s order flags = Ret (None, s') ->
    step (s, G) (Allocate order flags) (s', G)
| step_free (s s' : state) (G : owned) (p order : Z) :
    In (p, order) G ->
    free_pages s p order = Ret s' ->
    step (s, G) (Free p order) (s', remove block_eq_dec (p, order) G).

Inductive run : state * owned -> list call -> state * owned -> Prop :=
| run_nil (c : state * owned) : run c [] c
| run_cons (c1 c2 c3 : state * owned) (x : call) (calls : list call) :
    step c1 x c2 -> run c2 calls c3 -> run c1 (x :: calls) c3.

(** What the proof carries along a sequence of calls: the lists are in
    order, and the blocks handed out are aligned, overlap no free block and
    do not overlap each other. *)
Definition handed_out_ok (A : lists) (G : owned) : Prop :=
  (forall q m, In (q, m) G ->
     in_order m /\ 0 <= q < 2 ^ 64 /\ (2 ^ m | q) /\ apart A m q) /\
  (forall q m q' m', In (q, m) G -> In (q', m') G -> (q, m) <> (q', m') ->
     q + 2 ^ m <= q' \/ q' + 2 ^ m' <= q).

Definition between_calls (c : state * owned) : Prop :=
  exists A, rep (fst c) A /\ good A /\ no_free_buddies A /\
            handed_out_ok A (snd c).

Lemma insert_nothing (s s' : state) (pfn : Z) :
  insert_free_pages s pfn 0 = Ret s' -> s' = s.
Proof.
  unfold insert_free_pages.
  destruct (overflow_check pfn 0); [|discriminate].
  vm_compute. congruence.
Qed.

Lemma between_calls_fresh (nf : Z -> option Z) (bd : Z -> Z -> Z) :
  between_calls (fresh nf bd, []).
Proof.
  exists (fun _ => []). split; [|split; [|split; [|split]]].
  - intros n Hn. reflexivity.
  - constructor.
    + intros. constructor.
    + intros n p _ [].
    + intros n m p q _ _ [].
  - intros n p _ [].
  - intros q m [].
  - intros q m q' m' [].
Qed.

Lemma between_calls_step (c c' : state * owned) (x : call) :
  step c x c' -> between_calls c -> between_calls c'.
Proof.
  intros Hstep (A & Hrep & HA & Hnfb & HG & HGG).
  destruct Hstep as [s s' G pfn count Hp Hc Hfree Hown Hins
                    |s s' G order p flags Halloc
                    |s s' G order flags Halloc
                    |s s' G p order Hin Hfree];
    unfold between_calls; cbn [fst snd] in *.
  - (* insert_free_pages *)
    destruct (Z.eq_dec count 0) as [->|Hne].
    { apply insert_nothing in Hins. subst s'. exists A.
      exact (conj Hrep (conj HA (conj Hnfb (conj HG HGG)))). }
    assert (Hav : 0 < count -> avoids A pfn (pfn + count)).
    { intros Hpos m q Hm Hq. apply (Hfree Hpos m q Hm).
      now apply (listed_rep s A m q Hrep Hm). }
    destruct (insert_free_pages_spec s A pfn count Hrep HA Hnfb Hp Hc Hav)
      as [(s1 & A' & Hins' & Hrep' & HA' & Hnfb' & Hout & _)|(Hins' & _)];
      [|congruence].
    assert (s1 = s') by congruence. subst s1.
    exists A'. split; [exact Hrep'|]. split; [exact HA'|].
    split; [exact Hnfb'|]. split; [|exact HGG].
    intros q m Hq. destruct (HG q m Hq) as (Hm & Hqb & Hqa & Hap).
    split; [assumption|split; [assumption|split; [assumption|]]].
    pose proof (pow2_pos m (proj1 Hm)).
    unfold apart. apply Hout; [lia|exact Hap|].
    destruct (Hown ltac:(lia) q m Hq); lia.
  - (* allocate_pages, a block is returned *)
    assert (Ho : in_order order).
    { unfold allocate_pages in Halloc. unfold in_order.
      destruct ((order <? 0) || (order >? LastOrder)) eqn:E; [discriminate|].
      lia. }
    destruct (allocate_pages_spec s A order flags Hrep HA Ho)
      as (s1 & Halloc' & Hrep' & _).
    rewrite Halloc in Halloc'. injection Halloc' as Hfst <-.
    assert (Hal : alloc_lists A order = (Some p, snd (alloc_lists A order))).
    { rewrite Hfst. apply surjective_pairing. }
    destruct (alloc_lists_keeps A _ order p HA Ho Hal)
      as (HA' & Hnfb' & Hpb & Hpa & Hap & Hkeep).
    exists (snd (alloc_lists A order)).
    split; [exact Hrep'|]. split; [exact HA'|]. split; [auto|].
    pose proof (pow2_pos order (proj1 Ho)) as Hpos.
    split.
    + intros q m [[= <- <-]|Hq];
        [exact (conj Ho (conj Hpb (conj Hpa Hap)))|].
      destruct (HG q m Hq) as (Hm & Hqb & Hqa & Hapq).
      split; [assumption|split; [assumption|split; [assumption|]]].
      exact (proj1 (Hkeep _ _ Hapq)).
    + intros q m q' m' [[= <- <-]|Hq] [[= <- <-]|Hq'] Hne.
      * congruence.
      * destruct (HG q' m' Hq') as (Hm & _ & _ & Hapq).
        pose proof (pow2_pos m' (proj1 Hm)).
        destruct (proj2 (Hkeep _ _ Hapq)); lia.
      * destruct (HG q m Hq) as (Hm & _ & _ & Hapq).
        pose proof (pow2_pos m (proj1 Hm)).
        destruct (proj2 (Hkeep _ _ Hapq)); lia.
      * exact (HGG q m q' m' Hq Hq' Hne).
  - (* allocate_pages, nullptr is returned *)
    destruct (Z_lt_le_dec order 0) as [Hneg|Hpos];
      [|destruct (Z_lt_le_dec LastOrder order) as [Hbig|Hle]].
    + unfold allocate_pages in Halloc.
      replace ((order <? 0) || (order >? LastOrder)) with true in Halloc by lia.
      injection Halloc as <-. exists A.
      exact (conj Hrep (conj HA (conj Hnfb (conj HG HGG)))).
    + unfold allocate_pages in Halloc.
      replace ((order <? 0) || (order >? LastOrder)) with true in Halloc by lia.
      injection Halloc as <-. exists A.
      exact (conj Hrep (conj HA (conj Hnfb (conj HG HGG)))).
    + assert (Ho : in_order order) by (unfold in_order; lia).
      destruct (allocate_pages_spec s A order flags Hrep HA Ho)
        as (s1 & Halloc' & Hrep' & _).
      rewrite Halloc in Halloc'. injection Halloc' as Hfst <-.
      assert (Hal : alloc_lists A order = (None, snd (alloc_lists A order))).
      { rewrite Hfst. apply surjective_pairing. }
      apply (alloc_lists_none A _ order Ho) in Hal. rewrite Hal in Hrep'.
      exists A. exact (conj Hrep' (conj HA (conj Hnfb (conj HG HGG)))).
  - (* free_pages *)
    destruct (HG p order Hin) as (Ho & Hpb & Hpa & Hap).
    destruct (free_pages_spec s A order p Hrep HA Ho Hpb Hpa Hap)
      as [(s1 & Hfree' & Hrep' & _)|(Hfree' & _)]; [|congruence].
    assert (s1 = s') by congruence. subst s1.
    destruct (free_lists_keeps A order p HA Ho Hpb Hpa Hap)
      as (HA' & Hnfb' & Hav').
    exists (free_lists A order p).
    split; [exact Hrep'|]. split; [exact HA'|]. split; [auto|].
    split.
    + intros q m Hq. apply in_remove in Hq. destruct Hq as (Hq & Hne).
      destruct (HG q m Hq) as (Hm & Hqb & Hqa & Hapq).
      split; [assumption|split; [assumption|split; [assumption|]]].
      pose proof (pow2_pos m (proj1 Hm)).
      unfold apart. apply Hav'; [lia|exact Hapq|].
      destruct (HGG p order q m Hin Hq ltac:(congruence)); lia.
    + intros q m q' m' Hq Hq' Hne.
      apply in_remove in Hq, Hq'.
      exact (HGG q m q' m' (proj1 Hq) (proj1 Hq') Hne).
Qed.

Lemma between_calls_run (c c' : state * owned) (calls : list call) :
  run c calls c' -> between_calls c -> between_calls c'.
Proof.
  induction 1 as [c|c1 c2 c3 x calls Hstep _ IH]; [auto|].
  intros H. apply IH. exact (between_calls_step c1 c2 x Hstep H).
Qed.

(** ** Sample states *)

Definition after (r : result state) (s : state) : state :=
  match r with Ret s' => s' | Stop _ => s end.

Definition after_allocate (r : result (option Z * state)) (s : state)
  : state :=
  match r with Ret (_, s') => s' | Stop _ => s end.

(** Memory in which every link word is null and every byte is 0. *)
Definition blank : state := fresh (fun _ => None) (fun _ _ => 0).

(** One free block of order 3 at PFN 8. *)
Definition sample : state := set_free_list blank 3 (Some 8).
Definition sample_lists : lists := fun m => if m =? 3 then [8] else [].

(** The blocks of order 0 at PFNs 2 and 3, which are buddies. *)
Definition pair_state : state :=
  set_next_free (set_free_list blank 0 (Some 2)) 2 (Some 3).
Definition pair_lists : lists := fun m => if m =? 0 then [2; 3] else [].

(** Eight pages are inserted at PFN 0, one page is allocated and freed. *)
Definition demo1 : state := after (insert_free_pages blank 0 8) blank.
Definition demo2 : state := after_allocate (allocate_pages demo1 0 none) blank.
Definition demo3 : state := after (free_pages demo2 0 0) blank.

(** Pages 0 and 1 are inserted, then page 0 again, then page 3. *)
Definition twice1 : state := after (insert_free_pages blank 0 2) blank.
Definition twice2 : state := after (insert_free_pages twice1 0 1) blank.
Definition twice3 : state := after (insert_free_pages twice2 3 1) blank.

Lemma sample_invariants : global_invariants sample.
Proof.
  exists sample_lists. split; [|split; [|split]].
  - intros n Hn. unfold free_list_is, sample_lists. cbn.
    destruct (n =? 3); cbn; auto.
  - constructor.
    + intros n _. unfold sample_lists.
      destruct (n =? 3); repeat constructor.
    + intros n p Hn. unfold sample_lists.
      destruct (Z.eqb_spec n 3) as [->|]; [|intros []].
      intros [<-|[]]. split; [lia|]. exists 1. reflexivity.
    + intros n m p q Hn Hm. unfold sample_lists.
      destruct (Z.eqb_spec n 3) as [->|]; [|intros []].
      destruct (Z.eqb_spec m 3) as [->|]; [|intros _ []].
      intros [<-|[]] [<-|[]]. lia.
  - intros n p Hn. unfold sample_lists.
    destruct (Z.eqb_spec n 3) as [->|]; [|intros []].
    intros [<-|[]]. cbn. intros [H|[]]. discriminate.
  - intros q _. reflexivity.
Qed.

Lemma pair_state_rep : rep pair_state pair_lists.
Proof.
  intros n Hn. unfold free_list_is, pair_lists. cbn.
  destruct (n =? 0); cbn; auto.
Qed.

Lemma pair_lists_good : good pair_lists.
Proof.
  constructor.
  - intros n _. unfold pair_lists.
    destruct (n =? 0); repeat constructor.
  - intros n p Hn. unfold pair_lists.
    destruct (Z.eqb_spec n 0) as [->|]; [|intros []].
    intros [<-|[<-|[]]]; (split; [lia|]); apply Z.divide_1_l.
  - intros n m p q Hn Hm. unfold pair_lists.
    destruct (Z.eqb_spec n 0) as [->|]; [|intros []].
    destruct (Z.eqb_spec m 0) as [->|]; [|intros _ []].
    intros [<-|[<-|[]]] [<-|[<-|[]]]; lia.
Qed.

Lemma pair_state_clean : clean pair_state pair_lists.
Proof.
  intros q Hq. cbn. destruct (Z.eqb_spec q 2) as [->|]; [|reflexivity].
  exfalso. apply (Hq 0); [unfold in_order, LastOrder; lia|].
  left. reflexivity.
Qed.

Lemma blank_nothing_listed (n q : Z) : ~ listed blank n q.
Proof.
  intros (l & Hl & Hq). destruct l as [|x l]; [exact Hq|].
  destruct Hl as (Hl & _). discriminate Hl.
Qed.

Lemma demo_run :
  run (blank, []) [Insert 0 8; Allocate 0 none; Free 0 0]
      (demo3, remove block_eq_dec (0, 0) [(0, 0)]).
Proof.
  apply run_cons with (c2 := (demo1, [])).
  { apply step_insert; try lia.
    - intros _ n q _ H. destruct (blank_nothing_listed n q H).
    - intros _ q n [].
    - vm_compute. reflexivity. }
  apply run_cons with (c2 := (demo2, [(0, 0)])).
  { apply step_allocate. vm_compute. reflexivity. }
  apply run_cons with (c2 := (demo3, remove block_eq_dec (0, 0) [(0, 0)])).
  { apply step_free; [left; reflexivity|]. vm_compute. reflexivity. }
  apply run_nil.
Qed.

(** ** The claims on the invariants *)

(** C2 (with the condition on inserted ranges written out).  Take any
    sequence of calls of [insert_free_pages], [allocate_pages] and
    [free_pages] that return, made on a freshly constructed allocator with
    no matter what in memory, in which every inserted range fits 64 bits
    and has no page that is free or handed out at the time of the call, and
    every freed block was handed out by [allocate_pages] at this order and
    not freed since.  In the state after the sequence, so between any two
    calls, every order from 0 to [LastOrder] has a free list that ends, is
    strictly ascending in PFN, has no duplicates and only multiples of
    [2^order]; below [LastOrder] it never has a block together with its
    buddy. *)
Theorem invariants_between_calls
    (nf : Z -> option Z) (bd : Z -> Z -> Z) (calls : list call)
    (s : state) (G : owned)
    (Hrun : run (fresh nf bd, []) calls (s, G))
    (n : Z) (Hn : 0 <= n <= LastOrder) :
  exists l,
    free_list_is s n l /\
    StronglySorted Z.lt l /\ NoDup l /\
    (forall p, In p l -> (2 ^ n | p)) /\
    (n < LastOrder -> forall p, In p l -> ~ In (get_buddy n p) l).
Proof.
  destruct (between_calls_run _ _ _ Hrun (between_calls_fresh nf bd))
    as (A & Hrep & HA & Hnfb & _).
  cbn [fst] in Hrep. exists (A n).
  split; [exact (Hrep n Hn)|].
  split; [exact (good_sorted A HA n Hn)|].
  split; [exact (sorted_NoDup _ (good_sorted A HA n Hn))|].
  split.
  - intros p Hp. exact (proj2 (good_aligned A HA n p Hn Hp)).
  - intros Hlt p Hp. apply Hnfb; [lia|exact Hp].
Qed.

Lemma invariants_between_calls_witness :
  exists l,
    free_list_is demo3 3 l /\
    StronglySorted Z.lt l /\ NoDup l /\
    (forall p, In p l -> (2 ^ 3 | p)) /\
    (3 < LastOrder -> forall p, In p l -> ~ In (get_buddy 3 p) l).
Proof.
  assert (Hn : 0 <= 3 <= LastOrder) by (split; discriminate).
  exact (invariants_between_calls (fun _ => None) (fun _ _ => 0)
           [Insert 0 8; Allocate 0 none; Free 0 0] demo3
           (remove block_eq_dec (0, 0) [(0, 0)]) demo_run 3 Hn).
Defined.

(** C2, as it is worded: the only condition the design document puts on
    [insert_free_pages] is that [pfn + count] does not overflow.  On an
    allocator with all of memory null, insert pages 0 and 1, then page 0
    again, then page 3.  All three calls return.  Page 0 is on the list of
    order 1 and on the list of order 0, with one link word for both, so the
    list of order 1 ends up as 0, 3: and 3 is not a multiple of 2. *)
Lemma overlapping_inserts_break_alignment :
  insert_free_pages blank 0 2 = Ret twice1 /\
  insert_free_pages twice1 0 1 = Ret twice2 /\
  insert_free_pages twice2 3 1 = Ret twice3 /\
  free_list_is twice1 1 [0] /\
  free_list_is twice3 1 [0; 3] /\
  ~ (2 ^ 1 | 3).
Proof.
  split; [vm_compute; reflexivity|].
  split; [vm_compute; reflexivity|].
  split; [vm_compute; reflexivity|].
  split; [vm_compute; auto|].
  split; [vm_compute; auto|].
  intros (k & Hk). lia.
Qed.

(** *** States for the merge test *)



















(** ** The pages that are free *)

(** Page [q] lies in a block of the lists [A]. *)
Definition free_page (A : lists) (q : Z) : Prop :=
  exists n p, in_order n /\ In p (A n) /\ p <= q < p + 2 ^ n.

(** Page [q] lies in a block that is on a free list of the state [s]. *)
Definition page_is_free (s : state) (q : Z) : Prop :=
  exists n p, in_order n /\ listed s n p /\ p <= q < p + 2 ^ n.

Lemma page_is_free_rep (s : state) (A : lists) (q : Z) :
  rep s A -> page_is_free s q <-> free_page A q.
Proof.
  intros Hrep. split; intros (n & p & Hn & Hp & Hq); exists n, p;
    (split; [exact Hn|]); (split; [|exact Hq]);
    now apply (listed_rep s A n p Hrep Hn).
Qed.

Lemma avoids_free_page (A : lists) (lo hi : Z) :
  lo < hi ->
  avoids A lo hi <-> (forall q, lo <= q < hi -> ~ free_page A q).
Proof.
  intros Hlh. split.
  - intros Hav q Hq (m & x & Hm & Hx & Hqx).
    destruct (Hav m x Hm Hx); lia.
  - intros Hnone m x Hm Hx.
    pose proof (pow2_pos m (proj1 Hm)) as Hpos.
    destruct (Z_le_gt_dec (x + 2 ^ m) lo) as [|H1]; [now left|].
    destruct (Z_le_gt_dec hi x) as [|H2]; [now right|].
    exfalso. apply (Hnone (Z.max x lo)); [lia|].
    exists m, x. split; [exact Hm|]. split; [exact Hx|lia].
Qed.

Lemma free_page_ext (A B : lists) (q : Z) :
  (forall m, in_order m -> A m = B m) -> free_page A q <-> free_page B q.
Proof.
  intros Hext. split; intros (n & p & Hn & Hp & Hq); exists n, p;
    (split; [exact Hn|]); (split; [|exact Hq]).
  - now rewrite <- Hext.
  - now rewrite Hext.
Qed.

Lemma free_page_ins (A : lists) (n p q : Z) :
  in_order n ->
  free_page (upd A n (ins p (A n))) q <-> free_page A q \/ p <= q < p + 2 ^ n.
Proof.
  intros Hn. split.
  - intros (m & x & Hm & Hx & Hq). apply In_upd in Hx.
    destruct Hx as [(-> & Hx)|(_ & Hx)].
    + apply In_ins in Hx. destruct Hx as [->|Hx]; [now right|].
      left. exists n, x. auto.
    + left. exists m, x. auto.
  - intros [(m & x & Hm & Hx & Hq)|Hq].
    + exists m, x. split; [exact Hm|]. split; [|exact Hq].
      apply In_upd. destruct (Z.eq_dec m n) as [->|Hne].
      * left. split; [reflexivity|]. apply In_ins. now right.
      * right. auto.
    + exists n, p. split; [exact Hn|]. split; [|exact Hq].
      rewrite upd_same. apply In_ins. now left.
Qed.

Lemma free_page_merged (A : lists) (k first q : Z) :
  good A -> 0 <= k < LastOrder ->
  In first (A k) -> In (first + 2 ^ k) (A k) ->
  free_page (merged A k first) q <-> free_page A q.
Proof.
  intros HA Hk H1 H2.
  assert (Hk0 : in_order k) by (unfold in_order; lia).
  assert (Hk1 : in_order (k + 1)) by (unfold in_order; lia).
  pose proof (pow2_succ k (proj1 Hk)) as Hpow.
  split.
  - intros (m & x & Hm & Hx & Hq).
    apply (In_merged A k first m x HA Hk0) in Hx.
    destruct Hx as [(-> & [->|Hx])|[(-> & _ & _ & Hx)|(_ & _ & Hx)]].
    + destruct (Z_lt_le_dec q (first + 2 ^ k)).
      * exists k, first. split; [exact Hk0|]. split; [exact H1|lia].
      * exists k, (first + 2 ^ k). split; [exact Hk0|]. split; [exact H2|lia].
    + exists (k + 1), x. auto.
    + exists k, x. auto.
    + exists m, x. auto.
  - intros (m & x & Hm & Hx & Hq).
    destruct (Z.eq_dec m k) as [->|Hmk].
    + destruct (Z.eq_dec x first) as [->|Hx1];
        [|destruct (Z.eq_dec x (first + 2 ^ k)) as [->|Hx2]].
      * exists (k + 1), first. split; [exact Hk1|]. split; [|lia].
        apply (In_merged A k first _ _ HA Hk0). left. auto.
      * exists (k + 1), first. split; [exact Hk1|]. split; [|lia].
        apply (In_merged A k first _ _ HA Hk0). left. auto.
      * exists k, x. split; [exact Hk0|]. split; [|exact Hq].
        apply (In_merged A k first _ _ HA Hk0). right. left. auto.
    + exists m, x. split; [exact Hm|]. split; [|exact Hq].
      apply (In_merged A k first _ _ HA Hk0).
      destruct (Z.eq_dec m (k + 1)) as [->|Hmk1].
      * left. auto.
      * right. right. auto.
Qed.

Lemma free_page_merge_lists (n : nat) :
  forall (A : lists) (k b q : Z),
    good A -> 0 <= k <= LastOrder -> n = Z.to_nat (LastOrder - k) ->
    In b (A k) ->
    free_page (merge_lists n A k b) q <-> free_page A q.
Proof.
  induction n as [|n IH]; intros A k b q HA Hk Hn Hb; [reflexivity|].
  assert (Hk' : 0 <= k < LastOrder) by lia.
  assert (Hk0 : in_order k) by (unfold in_order; lia).
  cbn [merge_lists].
  pose proof (good_aligned A HA k b Hk0 Hb) as (_ & Hal).
  destruct (buddy_pair k b (proj1 Hk) Hal) as (Hal1 & Hsec & Hcases).
  destruct (in_dec Z.eq_dec (get_buddy k b) (A k)) as [Hb2|Hb2];
    [|reflexivity].
  set (first := if b <? get_buddy k b then b else get_buddy k b) in *.
  set (second := if b <? get_buddy k b then get_buddy k b else b) in *.
  assert (H1 : In first (A k))
    by (destruct Hcases as [(E & _)|(_ & E)]; rewrite <- E; assumption).
  assert (H2 : In (first + 2 ^ k) (A k)).
  { rewrite <- Hsec.
    destruct Hcases as [(_ & E)|(E & _)]; rewrite <- E; assumption. }
  pose proof (good_merged A k first HA Hk' H1 H2 Hal1) as HA1.
  assert (Hin : In first (merged A k first (k + 1))).
  { apply (In_merged A k first _ _ HA Hk0). left. auto. }
  rewrite (IH (merged A k first) (k + 1) first q HA1 ltac:(lia) ltac:(lia) Hin).
  now apply free_page_merged.
Qed.

Lemma free_page_free_lists (A : lists) (n p q : Z) :
  good A -> in_order n -> 0 <= p < 2 ^ 64 -> (2 ^ n | p) -> apart A n p ->
  free_page (free_lists A n p) q <-> free_page A q \/ p <= q < p + 2 ^ n.
Proof.
  intros HA Hn Hp Hal Hap.
  pose proof (good_ins A n p HA Hn Hp Hal Hap) as HA1.
  assert (Hin : In p (upd A n (ins p (A n)) n)).
  { rewrite upd_same. apply In_ins. now left. }
  unfold free_lists.
  rewrite (free_page_merge_lists _ _ n p q HA1 Hn eq_refl Hin).
  now apply free_page_ins.
Qed.

Lemma free_page_alloc_lists (A A' : lists) (order p q : Z) :
  good A -> no_free_buddies A -> in_order order ->
  alloc_lists A order = (Some p, A') ->
  (free_page A' q <-> free_page A q /\ ~ (p <= q < p + 2 ^ order)) /\
  (p <= q < p + 2 ^ order -> free_page A q).
Proof.
  intros HA Hnfb Ho Hal.
  destruct (alloc_lists_keeps A A' order p HA Ho Hal)
    as (HA' & _ & Hpb & Hpa & Hap & _).
  pose proof (free_page_free_lists A' order p q HA' Ho Hpb Hpa Hap) as Hfree.
  rewrite (free_page_ext _ A q (free_after_alloc A A' order p HA Hnfb Ho Hal))
    in Hfree.
  pose proof (pow2_pos order (proj1 Ho)) as Hpos.
  assert (Hout : p <= q < p + 2 ^ order -> ~ free_page A' q).
  { intros Hq. apply (proj1 (avoids_free_page A' p (p + 2 ^ order) ltac:(lia))).
    - exact Hap.
    - exact Hq. }
  split; [split|].
  - intros H. split; [apply Hfree; now left|]. intros Hq. exact (Hout Hq H).
  - intros (H & Hq). apply Hfree in H. destruct H as [H|H]; [exact H|].
    contradiction.
  - intros Hq. apply Hfree. now right.
Qed.

(** ** What the three public functions do to the set of free pages *)

(** X12.  A call of [allocate_pages] that comes back with [nullptr] has changed
    nothing: not a list head, not a link, not a byte of memory, whatever
    the state was, in order or not. *)
Theorem failed_allocation_changes_nothing
    (s s' : state) (order : Z) (flags : page_allocation_flags)
    (Hnull : allocate_pages s order flags = Ret (None, s')) :
  s' = s.
Proof.
  revert Hnull. unfold allocate_pages.
  destruct ((order <? 0) || (order >? LastOrder)) eqn:E; [congruence|].
  intros H. apply bind_ret_inv in H. destruct H as ([chosen s1] & Hsplit & H).
  destruct chosen as [p|].
  - apply bind_ret_inv in H. destruct H as (s2 & _ & H). discriminate.
  - injection H as <-. unfold iterative_split in Hsplit.
    apply bind_ret_inv in Hsplit. destruct Hsplit as (_ & _ & Hsplit).
    destruct (free_list_ s order) as [p|] eqn:Eh; [discriminate|].
    pose proof (scan_up_spec (Z.to_nat (LastOrder - order)) s (order + 1)
                  ltac:(f_equal; olia) ltac:(olia)) as Hscan.
    cbn zeta in Hscan. destruct Hscan as (H1 & _).
    set (r := scan_up _ _ _) in *.
    destruct (r >? LastOrder); [congruence|].
    apply bind_ret_inv in Hsplit. destruct Hsplit as (s2 & Hsd & Hsplit).
    injection Hsplit as Hnone <-.
    apply split_down_head in Hsd; [|lia]. congruence.
Qed.

Lemma failed_allocation_changes_nothing_witness :
  allocate_pages sample 4 none = Ret (None, sample) /\ sample = sample.
Proof.
  split; [reflexivity|].
  exact (failed_allocation_changes_nothing sample sample 4 none eq_refl).
Defined.

(** X13.  On a state that satisfies the global invariants, [allocate_pages] with
    an order from 0 to [LastOrder] returns: no assertion fails.  The
    invariants hold afterwards.  A block that is returned starts at a
    multiple of [2^order] and ends within the 64-bit PFNs; all its pages
    were free before the call, and after the call exactly the other pages
    that were free are free. *)
Theorem allocate_pages_takes_the_block
    (s : state) (order : Z) (flags : page_allocation_flags)
    (Hinv : global_invariants s) (Horder : 0 <= order <= LastOrder) :
  exists r s',
    allocate_pages s order flags = Ret (r, s') /\
    global_invariants s' /\
    match r with
    | None => True
    | Some p =>
        (2 ^ order | p) /\ 0 <= p /\ p + 2 ^ order <= 2 ^ 64 /\
        (forall q, p <= q < p + 2 ^ order -> page_is_free s q) /\
        (forall q, page_is_free s' q <->
                   page_is_free s q /\ ~ (p <= q < p + 2 ^ order))
    end.
Proof.
  destruct Hinv as (A & Hrep & HA & Hnfb & Hclean).
  assert (Ho : in_order order) by exact Horder.
  destruct (allocate_pages_spec s A order flags Hrep HA Ho)
    as (s' & Halloc & Hrep' & Hclean').
  destruct (alloc_lists A order) as [r A'] eqn:Hal. cbn [fst snd] in *.
  exists r, s'. split; [exact Halloc|].
  destruct r as [p|].
  - destruct (alloc_lists_keeps A A' order p HA Ho Hal)
      as (HA' & Hnfb' & Hpb & Hpa & _).
    split; [exists A'; auto|].
    split; [exact Hpa|]. split; [lia|].
    split; [apply block_end_bound; [olia|exact Hpa|lia]|].
    split.
    + intros q Hq. apply (page_is_free_rep s A q Hrep).
      exact (proj2 (free_page_alloc_lists A A' order p q HA Hnfb Ho Hal) Hq).
    + intros q. rewrite (page_is_free_rep s' A' q Hrep').
      rewrite (page_is_free_rep s A q Hrep).
      exact (proj1 (free_page_alloc_lists A A' order p q HA Hnfb Ho Hal)).
  - apply (alloc_lists_none A A' order Ho) in Hal. subst A'.
    split; [exists A; auto|exact I].
Qed.

Lemma allocate_pages_takes_the_block_witness :
  exists r s',
    allocate_pages sample 1 none = Ret (r, s') /\
    global_invariants s' /\
    match r with
    | None => True
    | Some p =>
        (2 ^ 1 | p) /\ 0 <= p /\ p + 2 ^ 1 <= 2 ^ 64 /\
        (forall q, p <= q < p + 2 ^ 1 -> page_is_free sample q) /\
        (forall q, page_is_free s' q <->
                   page_is_free sample q /\ ~ (p <= q < p + 2 ^ 1))
    end.
Proof.
  assert (Ho : 0 <= 1 <= LastOrder) by (split; discriminate).
  exact (allocate_pages_takes_the_block sample 1 none sample_invariants Ho).
Defined.

(** X14.  Take a state whose free lists are well formed (sorted, aligned,
    disjoint, no two listed buddies) and in which the first word
    ([next_free]) of every page that is not the first page of a listed
    block is null.  [free_pages] with an order from 0 to [LastOrder] and a
    block that starts at a multiple of [2^order] and has no free page then
    returns: no assertion fails.  The state it leaves is of the same kind
    (well-formed lists, null first words), and the free pages are then
    those that were free before together with the pages of the block.
    The condition on the first words is needed: a handed-out page is its
    owner's to write, and with a link left in it the call can halt. *)
Theorem free_pages_frees_the_block
    (s : state) (p order : Z)
    (Hwf : well_formed s) (Hnull : links_null s)
    (Horder : 0 <= order <= LastOrder)
    (Hp : 0 <= p < 2 ^ 64) (Haligned : (2 ^ order | p))
    (Hnew : forall q, p <= q < p + 2 ^ order -> ~ page_is_free s q) :
  exists s',
    free_pages s p order = Ret s' /\
    well_formed s' /\ links_null s' /\
    forall q, page_is_free s' q <->
              page_is_free s q \/ p <= q < p + 2 ^ order.
Proof.
  destruct Hwf as (A & Hrep & HA & Hnfb).
  assert (Hclean : clean s A) by now apply (clean_links_null s A Hrep).
  assert (Ho : in_order order) by exact Horder.
  pose proof (pow2_pos order (proj1 Ho)) as Hpos.
  assert (Hap : apart A order p).
  { apply (avoids_free_page A p (p + 2 ^ order) ltac:(lia)).
    intros q Hq Hfree. apply (Hnew q Hq).
    now apply (page_is_free_rep s A q Hrep). }
  destruct (free_pages_spec s A order p Hrep HA Ho Hp Haligned Hap)
    as [(s' & Hfree & Hrep' & Hclean')|(_ & Hdirty)];
    [|destruct (Hdirty Hclean)].
  destruct (free_lists_keeps A order p HA Ho Hp Haligned Hap)
    as (HA' & Hnfb' & _).
  exists s'. split; [exact Hfree|]. split; [|split].
  - exists (free_lists A order p). auto.
  - apply (clean_links_null s' _ Hrep'). exact (Hclean' Hclean).
  - intros q. rewrite (page_is_free_rep s' _ q Hrep').
    rewrite (page_is_free_rep s A q Hrep).
    now apply free_page_free_lists.
Qed.

Lemma no_page_of_sample_below_8 (q : Z) : 0 <= q < 0 + 2 ^ 2 -> ~ page_is_free sample q.
Proof.
  intros Hq (n & p & Hn & (l & Hl & Hp) & Hqp).
  unfold free_list_is, sample in Hl. cbn in Hl.
  destruct (Z.eqb_spec n 3) as [->|Hne].
  - destruct l as [|x l]; [destruct Hp|].
    destruct Hl as ([= <-] & Hl). destruct l; [|destruct Hl; discriminate].
    destruct Hp as [<-|[]]. lia.
  - destruct l as [|x l]; [destruct Hp|]. destruct Hl. discriminate.
Qed.

Lemma free_pages_frees_the_block_witness :
  exists s',
    free_pages sample 0 2 = Ret s' /\
    well_formed s' /\ links_null s' /\
    forall q, page_is_free s' q <->
              page_is_free sample q \/ 0 <= q < 0 + 2 ^ 2.
Proof.
  assert (Ho : 0 <= 2 <= LastOrder) by (split; discriminate).
  assert (Hp : 0 <= 0 < 2 ^ 64) by (split; [discriminate|reflexivity]).
  assert (Hal : (2 ^ 2 | 0)) by (exists 0; reflexivity).
  exact (free_pages_frees_the_block sample 0 2
           (proj1 (proj1 (global_invariants_split sample) sample_invariants))
           (proj2 (proj1 (global_invariants_split sample) sample_invariants))
           Ho Hp Hal no_page_of_sample_below_8).
Defined.

(** ** Bulk insertion: which pages become free *)

Section Fill.

(** The state and lists at the start of [insert_free_pages], and the range
    [[lo, hi)], of which no page is free. *)
Variables (s0 : state) (A0 : lists) (lo hi : Z).
Hypothesis range_not_free : forall q, lo <= q < hi -> ~ free_page A0 q.

(** What holds at each point of the three loops, [pfn] being the first page
    not yet inserted: the lists are in order, and the free pages are those
    that were free at the start and the pages from [lo] up to [pfn]. *)
Definition filled (s : state) (pfn : Z) : Prop :=
  exists A,
    rep s A /\ good A /\ no_free_buddies A /\
    (forall q, free_page A q <-> free_page A0 q \/ lo <= q < pfn) /\
    (clean s0 A0 -> clean s A).

Lemma filled_apart (A : lists) (pfn n : Z) :
  (forall q, free_page A q <-> free_page A0 q \/ lo <= q < pfn) ->
  0 <= n -> lo <= pfn -> pfn + 2 ^ n <= hi -> apart A n pfn.
Proof.
  intros Hcov Hn Hlo Hend. pose proof (pow2_pos n Hn) as Hpos.
  apply (avoids_free_page A pfn (pfn + 2 ^ n) ltac:(lia)).
  intros q Hq Hfree. apply Hcov in Hfree.
  destruct Hfree as [Hfree|Hfree]; [|lia].
  apply (range_not_free q); [lia|exact Hfree].
Qed.

Lemma filled_free (s : state) (pfn n : Z) :
  filled s pfn -> in_order n -> lo <= pfn -> 0 <= pfn -> (2 ^ n | pfn) ->
  pfn + 2 ^ n <= hi -> hi <= 2 ^ 64 ->
  (exists s', free_pages s pfn n = Ret s' /\ filled s' (pfn + 2 ^ n)) \/
  (free_pages s pfn n = Stop Assertion /\ ~ clean s0 A0).
Proof.
  intros (A & Hrep & HA & Hnfb & Hcov & Hc) Hn Hlo Hp Hal Hend Hhi.
  pose proof (pow2_pos n (proj1 Hn)) as Hpos.
  pose proof (filled_apart A pfn n Hcov (proj1 Hn) Hlo Hend) as Hap.
  destruct (free_pages_spec s A n pfn Hrep HA Hn ltac:(lia) Hal Hap)
    as [(s' & Hfree & Hrep' & Hc')|(Hfree & Hnc)].
  - left. exists s'. split; [exact Hfree|].
    destruct (free_lists_keeps A n pfn HA Hn ltac:(lia) Hal Hap)
      as (Hg & Hnfb' & _).
    exists (free_lists A n pfn).
    split; [exact Hrep'|]. split; [exact Hg|]. split; [auto|].
    split; [|auto].
    intros q.
    rewrite (free_page_free_lists A n pfn q HA Hn ltac:(lia) Hal Hap).
    rewrite Hcov. split; [intros [[H|H]|H]|intros [H|H]]; auto; try lia.
  - right. split; [exact Hfree|]. auto.
Qed.

Lemma filled_insert_last (s : state) (pfn : Z) :
  filled s pfn -> lo <= pfn -> 0 <= pfn -> (2 ^ LastOrder | pfn) ->
  pfn + 2 ^ LastOrder <= hi -> hi <= 2 ^ 64 ->
  exists s',
    insert_free_block s LastOrder pfn = Ret s' /\
    filled s' (pfn + 2 ^ LastOrder).
Proof.
  intros (A & Hrep & HA & Hnfb & Hcov & Hc) Hlo Hp Hal Hend Hhi.
  assert (Hn : in_order LastOrder) by (unfold in_order, LastOrder; lia).
  pose proof (pow2_pos LastOrder (proj1 Hn)) as Hpos.
  pose proof (filled_apart A pfn LastOrder Hcov (proj1 Hn) Hlo Hend) as Hap.
  destruct (insert_free_block_spec s A LastOrder pfn Hrep HA Hn Hal
              (apart_unlisted A LastOrder pfn (proj1 Hn) Hap))
    as (s' & Hins & Hrep' & Hc').
  exists s'. split; [exact Hins|].
  exists (upd A LastOrder (ins pfn (A LastOrder))).
  split; [exact Hrep'|].
  split; [exact (good_ins A LastOrder pfn HA Hn ltac:(lia) Hal Hap)|].
  split; [|split]; [| |auto].
  - intros n x Hnx Hx Hbx. rewrite upd_other in Hx, Hbx by lia.
    exact (Hnfb n x Hnx Hx Hbx).
  - intros q. rewrite (free_page_ins A LastOrder pfn q Hn), Hcov.
    split; [intros [[H|H]|H]|intros [H|H]]; auto; try lia.
Qed.

(** The low-order sweep, with the count of pages it has used up so far:
    fewer than [2^order]. *)
Lemma low_order_sweep_fills (n : nat) :
  forall (s : state) (order pfn count : Z),
    filled s pfn -> 0 <= order <= LastOrder ->
    n = Z.to_nat (LastOrder - order) ->
    lo <= pfn -> 0 <= pfn -> 0 <= count -> pfn + count = hi -> hi < 2 ^ 64 ->
    (2 ^ order | pfn) -> pfn - lo < 2 ^ order ->
    (exists s' order' pfn' count',
       low_order_sweep n s order (2 ^ order) pfn count
       = Ret (s', order', 2 ^ order', pfn', count') /\
       filled s' pfn' /\ 0 <= order' <= LastOrder /\ lo <= pfn' /\ 0 <= pfn' /\
       0 <= count' /\ pfn' + count' = hi /\ (2 ^ order' | pfn') /\
       (count' < 2 ^ order' \/ order' = LastOrder) /\
       pfn' - lo < 2 ^ order') \/
    (low_order_sweep n s order (2 ^ order) pfn count = Stop Assertion /\
     ~ clean s0 A0).
Proof.
  induction n as [|n IH];
    intros s order pfn count Hsw Ho Hn Hlo Hp Hc Hsum Hhi Hal Hused.
  - left. exists s, order, pfn, count. cbn.
    replace (order <? LastOrder) with false by lia. rewrite andb_false_r.
    repeat split; try assumption; try lia.
  - pose proof (pow2_pos order (proj1 Ho)) as Hpos.
    cbn [low_order_sweep].
    destruct (Z.leb_spec (2 ^ order) count) as [Hle|Hgt]; cbn [andb].
    2:{ left. exists s, order, pfn, count.
        repeat split; try assumption; try lia. }
    replace (order <? LastOrder) with true by lia.
    assert (Ho1 : 0 <= order + 1 <= LastOrder) by lia.
    pose proof (pow2_succ order (proj1 Ho)) as Hsucc.
    assert (Hlsb : u64 (Z.shiftl (2 ^ order) 1) = 2 ^ (order + 1)).
    { rewrite Z.shiftl_mul_pow2, Z.pow_1_r by lia.
      rewrite Hsucc. unfold u64.
      pose proof (pow2_le (order + 1) 16 ltac:(olia)) as H16.
      rewrite Hsucc in H16.
      change (2 ^ 16) with 65536 in H16.
      rewrite Z.mod_small by (change (2 ^ 64) with 18446744073709551616; lia).
      ring. }
    rewrite Hlsb.
    pose proof (bit_test order pfn (proj1 Ho) Hal) as Hbit.
    destruct (Z.land (2 ^ order) pfn =? 0); cbn [negb].
    + cbn [bind].
      exact (IH s (order + 1) pfn count Hsw Ho1 ltac:(lia) Hlo Hp Hc Hsum Hhi
               Hbit ltac:(lia)).
    + destruct (filled_free s pfn order Hsw Ho Hlo Hp Hal ltac:(lia) ltac:(lia))
        as [(s' & Hfree & Hsw')|(Hfree & Hnc)].
      * rewrite Hfree. cbn [bind]. unfold u64.
        rewrite !Z.mod_small by lia.
        exact (IH s' (order + 1) (pfn + 2 ^ order) (count - 2 ^ order) Hsw' Ho1
                 ltac:(lia) ltac:(lia) ltac:(lia) ltac:(lia) ltac:(lia) Hhi
                 Hbit ltac:(lia)).
      * right. rewrite Hfree. cbn [bind]. auto.
Qed.

(** The cap loop stops with at least one page left, if there was one. *)
Lemma cap_loop_fills (n : nat) :
  forall (s : state) (pfn count : Z),
    filled s pfn -> n = Z.to_nat (count / 2 ^ LastOrder) ->
    lo <= pfn -> 0 <= pfn -> 0 <= count -> pfn + count = hi -> hi < 2 ^ 64 ->
    (2 ^ LastOrder < count -> (2 ^ LastOrder | pfn)) ->
    exists s' pfn' count' m,
      cap_loop n s (2 ^ LastOrder) pfn count = Ret (s', pfn', count') /\
      filled s' pfn' /\ lo <= pfn' /\ 0 <= pfn' /\
      0 <= count' <= 2 ^ LastOrder /\ pfn' + count' = hi /\
      0 <= m /\ pfn' = pfn + m * 2 ^ LastOrder /\
      count' = count - m * 2 ^ LastOrder /\
      (0 < count -> 0 < count').
Proof.
  assert (Hpos : 0 < 2 ^ LastOrder) by (apply pow2_pos; olia).
  induction n as [|n IH]; intros s pfn count Hsw Hn Hlo Hp Hc Hsum Hhi Hal.
  - assert (Hsmall : count < 2 ^ LastOrder).
    { destruct (Z_lt_le_dec count (2 ^ LastOrder)) as [H|H]; [exact H|].
      pose proof (Z.div_le_lower_bound count (2 ^ LastOrder) 1 Hpos
                    ltac:(lia)). lia. }
    exists s, pfn, count, 0. cbn [cap_loop].
    replace (count >? 2 ^ LastOrder) with false by lia.
    repeat split; try assumption; lia.
  - cbn [cap_loop].
    destruct (Z.gtb_spec count (2 ^ LastOrder)) as [Hgt|Hle].
    2:{ exists s, pfn, count, 0. repeat split; try assumption; lia. }
    destruct (filled_insert_last s pfn Hsw Hlo Hp (Hal Hgt) ltac:(lia)
                ltac:(lia))
      as (s' & Hins & Hsw').
    rewrite Hins. cbn [bind]. unfold u64. rewrite !Z.mod_small by lia.
    assert (Hdiv : (count - 2 ^ LastOrder) / 2 ^ LastOrder
                   = count / 2 ^ LastOrder - 1).
    { replace (count - 2 ^ LastOrder) with (count + (-1) * 2 ^ LastOrder)
        by ring.
      rewrite Z.div_add by lia. ring. }
    destruct (IH s' (pfn + 2 ^ LastOrder) (count - 2 ^ LastOrder) Hsw'
                ltac:(lia) ltac:(lia) ltac:(lia) ltac:(lia) ltac:(lia) Hhi)
      as (s2 & pfn2 & count2 & m & Hcap & Hsw2 & H1 & H2 & H3 & H4 & H5 & H6
          & H7 & H8).
    { intros _. apply Z.divide_add_r; [auto|apply Z.divide_refl]. }
    exists s2, pfn2, count2, (m + 1). rewrite Hcap.
    repeat split; try assumption; lia.
Qed.

(** The high-order sweep inserts what is left of the count below [2^order];
    a bit of the count at [order] or above is not looked at. *)
Lemma high_order_sweep_fills (n : nat) :
  forall (s : state) (order pfn count : Z),
    filled s pfn -> 0 <= order <= LastOrder -> n = S (Z.to_nat order) ->
    lo <= pfn -> 0 <= pfn -> 0 <= count ->
    pfn + count mod 2 ^ order <= hi -> hi < 2 ^ 64 -> (2 ^ order | pfn) ->
    (exists s',
       high_order_sweep n s order (2 ^ order) pfn count = Ret s' /\
       filled s' (pfn + count mod 2 ^ order)) \/
    (high_order_sweep n s order (2 ^ order) pfn count = Stop Assertion /\
     ~ clean s0 A0).
Proof.
  induction n as [|n IH];
    intros s order pfn count Hsw Ho Hn Hlo Hp Hc Hsum Hhi Hal; [lia|].
  pose proof (pow2_pos order (proj1 Ho)) as Hpos.
  cbn [high_order_sweep].
  replace (2 ^ order >? 0) with true by lia.
  destruct (Z.eq_dec order 0) as [->|Hne].
  - (* the last round: [lsb] becomes 0 and nothing is freed *)
    left. exists s. change (2 ^ 0) with 1. rewrite Z.mod_1_r.
    change (Z.shiftr 1 1) with 0. cbn [Z.land Z.eqb negb bind].
    destruct n; cbn; rewrite Z.add_0_r; auto.
  - assert (Ho1 : 0 <= order - 1 <= LastOrder) by lia.
    assert (Hlsb : Z.shiftr (2 ^ order) 1 = 2 ^ (order - 1)).
    { rewrite Z.shiftr_div_pow2, Z.pow_1_r by lia.
      replace order with (order - 1 + 1) at 1 by lia.
      rewrite pow2_succ by lia. rewrite Z.mul_comm, Z.div_mul by lia.
      reflexivity. }
    rewrite Hlsb.
    pose proof (mod_bit (order - 1) count ltac:(lia)) as Hmod.
    replace (order - 1 + 1) with order in Hmod by lia.
    pose proof (pow2_succ (order - 1) ltac:(lia)) as Hsucc.
    replace (order - 1 + 1) with order in Hsucc by lia.
    pose proof (pow2_pos (order - 1) ltac:(lia)) as Hpos1.
    assert (Hal1 : (2 ^ (order - 1) | pfn)).
    { apply (divide_pow2_succ (order - 1)); [lia|].
      now replace (order - 1 + 1) with order by lia. }
    pose proof (Z.mod_pos_bound count (2 ^ (order - 1)) Hpos1) as Hmb.
    rewrite Hmod.
    destruct (Z.land (2 ^ (order - 1)) count =? 0); cbn [negb].
    + cbn [bind]. rewrite Z.add_0_r.
      exact (IH s (order - 1) pfn count Hsw Ho1 ltac:(lia) Hlo Hp Hc
               ltac:(lia) Hhi Hal1).
    + destruct (filled_free s pfn (order - 1) Hsw Ho1 Hlo Hp Hal1 ltac:(lia)
                  ltac:(lia))
        as [(s' & Hfree & Hsw')|(Hfree & Hnc)].
      * rewrite Hfree. cbn [bind]. unfold u64. rewrite Z.mod_small by lia.
        replace (pfn + (count mod 2 ^ (order - 1) + 2 ^ (order - 1)))
          with (pfn + 2 ^ (order - 1) + count mod 2 ^ (order - 1)) by ring.
        apply (IH s' (order - 1) (pfn + 2 ^ (order - 1)) count Hsw' Ho1);
          try lia; try assumption.
        apply Z.divide_add_r; [exact Hal1|apply Z.divide_refl].
      * right. rewrite Hfree. cbn [bind]. auto.
Qed.

End Fill.

(** Where the inserted pages end: at the end of the range, unless the range
    ends on a multiple of [2^LastOrder] and holds that many pages. *)
Definition inserted_end (pfn count : Z) : Z :=
  if ((pfn + count) mod 2 ^ LastOrder =? 0)
     && (pfn + 2 ^ LastOrder <=? pfn + count)
  then pfn + count - 2 ^ LastOrder
  else pfn + count.

Lemma mod_aligned_add (a c : Z) :
  (2 ^ LastOrder | a) -> (a + c) mod 2 ^ LastOrder = c mod 2 ^ LastOrder.
Proof.
  intros [k ->]. rewrite Z.add_comm. apply Z_mod_plus_full.
Qed.

Lemma insert_free_pages_fills (s : state) (A : lists) (pfn count : Z) :
  rep s A -> good A -> no_free_buddies A -> clean s A ->
  0 <= pfn -> 0 <= count -> pfn + count < 2 ^ 64 - 1 ->
  (forall q, pfn <= q < pfn + count -> ~ free_page A q) ->
  exists s',
    insert_free_pages s pfn count = Ret s' /\
    filled s A pfn s' (inserted_end pfn count).
Proof.
  intros Hrep HA Hnfb Hclean Hp Hc Hsum Hnone.
  unfold insert_free_pages.
  assert (Hcheck : overflow_check pfn count = true).
  { unfold overflow_check, u64, UNIT64_MAX.
    rewrite Z.mod_small by (change (2 ^ 64) with 18446744073709551616 in *; lia).
    change (2 ^ 64) with 18446744073709551616 in Hsum. lia. }
  rewrite Hcheck. cbn [assert bind].
  assert (Hhi : pfn + count < 2 ^ 64) by lia.
  assert (Hsw : filled s A pfn s pfn).
  { exists A. split; [exact Hrep|]. split; [exact HA|]. split; [exact Hnfb|].
    split; [|auto]. intros q. split; [auto|]. intros [H|H]; [exact H|lia]. }
  change (Z.shiftl 1 LastOrder) with (2 ^ LastOrder).
  change (LastOrder - 0) with LastOrder.
  destruct (low_order_sweep_fills s A pfn (pfn + count) Hnone
              (Z.to_nat LastOrder) s 0 pfn count Hsw ltac:(olia)
              ltac:(f_equal; lia) ltac:(lia) ltac:(lia) ltac:(lia) eq_refl Hhi
              (Z.divide_1_l pfn) ltac:(change (2 ^ 0) with 1; lia))
    as [(s1 & order1 & pfn1 & count1 & Hlow & Hsw1 & Ho1 & Hlo1 & Hp1 & Hc1
         & Hsum1 & Hal1 & Hexit & Hused)|(_ & Hnc)];
    [|destruct (Hnc Hclean)].
  change (2 ^ 0) with 1 in Hlow. rewrite Hlow. cbn [bind].
  pose proof (pow2_pos order1 (proj1 Ho1)) as Hpos1.
  pose proof (pow2_le order1 LastOrder ltac:(lia)) as Hle1.
  destruct (cap_loop_fills s A pfn (pfn + count) Hnone
              (Z.to_nat (count1 / 2 ^ LastOrder)) s1 pfn1 count1 Hsw1 eq_refl
              Hlo1 Hp1 Hc1 Hsum1 Hhi)
    as (s2 & pfn2 & count2 & m & Hcap & Hsw2 & Hlo2 & Hp2 & Hc2 & Hsum2 & Hm
        & Hpfn2 & Hcount2 & Hleft).
  { intros Hbig. destruct Hexit as [Hsmall| ->]; [lia|exact Hal1]. }
  rewrite Hcap. cbn [bind].
  assert (Hal2 : (2 ^ order1 | pfn2)).
  { rewrite Hpfn2. apply Z.divide_add_r; [exact Hal1|].
    apply Z.divide_mul_r. apply pow2_divide. lia. }
  rewrite Z.log2_pow2 by lia.
  pose proof (Z.mod_le count2 (2 ^ order1) ltac:(lia) Hpos1) as Hmle.
  destruct (high_order_sweep_fills s A pfn (pfn + count) Hnone
              (S (Z.to_nat order1)) s2 order1 pfn2 count2 Hsw2 Ho1 eq_refl
              Hlo2 Hp2 ltac:(lia) ltac:(lia) Hhi Hal2)
    as [(s3 & Hhigh & Hsw3)|(_ & Hnc)]; [|destruct (Hnc Hclean)].
  exists s3. split; [exact Hhigh|].
  replace (inserted_end pfn count) with (pfn2 + count2 mod 2 ^ order1);
    [exact Hsw3|].
  unfold inserted_end.
  assert (H16 : 0 < 2 ^ LastOrder) by (apply pow2_pos; olia).
  destruct (Z_lt_le_dec count1 (2 ^ order1)) as [Hsmall|Hbig].
  - (* the low-order sweep ran out of pages *)
    assert (m = 0) by nia. subst m.
    rewrite Z.mul_0_l, Z.add_0_r in Hpfn2. rewrite Z.sub_0_r in Hcount2.
    subst pfn2 count2. rewrite Z.mod_small by lia. rewrite Hsum1.
    destruct (Z.eqb_spec ((pfn + count) mod 2 ^ LastOrder) 0) as [Hz|Hnz];
      [|reflexivity].
    destruct (Z.leb_spec (pfn + 2 ^ LastOrder) (pfn + count)) as [Hfull|Hnot];
      [|reflexivity].
    exfalso.
    assert (Hd : (2 ^ order1 | pfn + count)).
    { apply Z.divide_trans with (2 ^ LastOrder); [apply pow2_divide; lia|].
      apply Z.mod_divide; [lia|exact Hz]. }
    assert (Hd1 : (2 ^ order1 | count1)).
    { replace count1 with (pfn + count - pfn1) by lia.
      apply Z.divide_sub_r; assumption. }
    destruct Hd1 as [k Hk]. assert (k = 0) by nia. lia.
  - (* the sweep reached [LastOrder] with a block or more to go *)
    destruct Hexit as [Hsmall|Ho]; [lia|]. subst order1.
    assert (Hal3 : (2 ^ LastOrder | pfn2)) by exact Hal2.
    assert (Hmod : (pfn + count) mod 2 ^ LastOrder = count2 mod 2 ^ LastOrder).
    { rewrite <- Hsum2. now apply mod_aligned_add. }
    rewrite Hmod.
    destruct (Z.eq_dec count2 (2 ^ LastOrder)) as [Hfull|Hpart].
    + rewrite Hfull, Z_mod_same_full. cbn [Z.eqb andb].
      replace (pfn + 2 ^ LastOrder <=? pfn + count) with true by lia. lia.
    + rewrite Z.mod_small by lia.
      replace (count2 =? 0) with false by lia. cbn [andb]. lia.
Qed.

(** X15.  Take a state whose free lists are well formed (sorted, aligned,
    disjoint, no two listed buddies) and in which the first word
    ([next_free]) of every page that is not the first page of a listed
    block is null.  [insert_free_pages] with a range of which no page is
    free, and with [pfn + count] below [2^64 - 1], then returns: no
    assertion fails.  The state it leaves is of the same kind (well-formed
    lists, null first words).  The pages of the range become free, and no
    other page does, with one exception: when the range ends on a multiple
    of [2^LastOrder] and holds [2^LastOrder] pages or more, its last
    [2^LastOrder] pages are left out and stay as they were.  The condition
    on the first words is needed: with a link left in a page that is not
    free, a merge can be begun with a buddy that is not listed, and the
    call halts. *)
Theorem insert_free_pages_frees_the_range
    (s : state) (pfn count : Z)
    (Hwf : well_formed s) (Hnull : links_null s)
    (Hpfn : 0 <= pfn) (Hcount : 0 <= count)
    (Hfits : pfn + count < 2 ^ 64 - 1)
    (Hnew : forall q, pfn <= q < pfn + count -> ~ page_is_free s q) :
  exists s',
    insert_free_pages s pfn count = Ret s' /\
    well_formed s' /\ links_null s' /\
    (forall q, page_is_free s' q <->
               page_is_free s q \/ pfn <= q < inserted_end pfn count).
Proof.
  destruct Hwf as (A & Hrep & HA & Hnfb).
  assert (Hclean : clean s A) by now apply (clean_links_null s A Hrep).
  assert (Hnone : forall q, pfn <= q < pfn + count -> ~ free_page A q).
  { intros q Hq H. apply (Hnew q Hq). now apply (page_is_free_rep s A q Hrep). }
  destruct (insert_free_pages_fills s A pfn count Hrep HA Hnfb Hclean Hpfn
              Hcount Hfits Hnone)
    as (s' & Hins & (A' & Hrep' & HA' & Hnfb' & Hcov & Hclean')).
  exists s'. split; [exact Hins|]. split; [exists A'; auto|].
  split; [apply (clean_links_null s' A' Hrep'); exact (Hclean' Hclean)|].
  intros q. rewrite (page_is_free_rep s' A' q Hrep').
  rewrite (page_is_free_rep s A q Hrep). apply Hcov.
Qed.

(** ** Edge cases and round trips of the list operations *)

Lemma sample_rep : rep sample sample_lists.
Proof.
  intros n Hn. unfold free_list_is, sample_lists. cbn.
  destruct (n =? 3); cbn; auto.
Qed.

Lemma sample_good : good sample_lists.
Proof.
  constructor.
  - intros n _. unfold sample_lists. destruct (n =? 3); repeat constructor.
  - intros n p Hn. unfold sample_lists.
    destruct (Z.eqb_spec n 3) as [->|]; [|intros []].
    intros [<-|[]]. split; [lia|]. exists 1. reflexivity.
  - intros n m p q Hn Hm. unfold sample_lists.
    destruct (Z.eqb_spec n 3) as [->|]; [|intros []].
    destruct (Z.eqb_spec m 3) as [->|]; [|intros _ []].
    intros [<-|[]] [<-|[]]. lia.
Qed.

Lemma sample_apart_0 : apart sample_lists 3 0.
Proof.
  intros m q Hm. unfold sample_lists.
  destruct (Z.eqb_spec m 3) as [->|]; [|intros []].
  intros [<-|[]]. right. reflexivity.
Qed.

(** No list, and memory in which every link is null. *)
Definition no_lists : lists := fun _ => [].

Lemma blank_rep : rep blank no_lists.
Proof. intros n Hn. reflexivity. Qed.

Lemma no_lists_good : good no_lists.
Proof.
  constructor.
  - intros n _. constructor.
  - intros n p _ [].
  - intros n m p q _ _ [].
Qed.

Lemma blank_invariants : global_invariants blank.
Proof.
  exists no_lists. split; [exact blank_rep|]. split; [exact no_lists_good|].
  split; [intros n p _ []|intros q _; reflexivity].
Qed.

(** No list, but the first word of page 2 holds the address of page 3. *)
Definition stale : state := set_next_free blank 2 (Some 3).

Lemma stale_rep : rep stale no_lists.
Proof. intros n Hn. reflexivity. Qed.

(** [get_slot] on a block that is on the list already: the walk stops in
    front of it and the assertion fails. *)
Lemma get_slot_present (s : state) (A : lists) (n p : Z) :
  rep s A -> good A -> in_order n -> In p (A n) ->
  get_slot s n p = Stop Assertion.
Proof.
  intros Hrep HA Hn Hin.
  destruct (walk_while (fun q => q <? p) s (A n) (Head n) (Hrep n Hn)
              (good_sorted A HA n Hn)
              (fun x Hx => proj1 (good_aligned A HA n x Hn Hx)))
    as (l1 & l2 & Hl & Hall & Hhd & Hrun & Hrest).
  rewrite get_slot_unfold.
  replace (in_range n) with true by (symmetry; now apply in_range_iff).
  replace (block_aligned n p) with true
    by (symmetry; apply block_aligned_iff;
        [apply Hn|exact (proj2 (good_aligned A HA n p Hn Hin))]).
  cbn [assert bind]. rewrite Hrun. cbn [bind].
  rewrite (lseg_head _ _ _ _ Hrest).
  assert (Hp1 : ~ In p l1).
  { intros H. rewrite forallb_forall in Hall. specialize (Hall p H). lia. }
  rewrite Hl in Hin. apply in_app_or in Hin.
  destruct Hin as [Hin|Hin]; [contradiction|].
  destruct l2 as [|y l2]; [destruct Hin|].
  pose proof (good_sorted A HA n Hn) as Hs. rewrite Hl in Hs.
  apply sorted_app_inv in Hs. destruct Hs as (_ & Hs2 & _).
  inversion Hs2 as [|? ? _ Hall2]; subst.
  assert (y = p).
  { destruct Hin as [E|Hin]; [exact E|].
    rewrite Forall_forall in Hall2. specialize (Hall2 p Hin). lia. }
  subst y. cbn. rewrite Z.eqb_refl. reflexivity.
Qed.

(** [insert_free_block] writes two words only: the slot in front of the
    block, which is a list head or the link of a block of that list, and
    the link of the block itself. *)
Lemma insert_free_block_frame (s s' : state) (A : lists) (n p q : Z) :
  rep s A -> good A -> in_order n -> (2 ^ n | p) -> unlisted A p ->
  insert_free_block s n p = Ret s' ->
  q <> p -> ~ In q (A n) -> next_free s' q = next_free s q.
Proof.
  intros Hrep HA Hn Hal Hun Hins Hqp Hq.
  destruct (get_slot_spec s A n p Hrep HA Hn Hal (Hun n Hn))
    as (l1 & l2 & Hl & _ & Hget & _).
  unfold insert_free_block in Hins. rewrite Hget in Hins. cbn [bind] in Hins.
  injection Hins as <-.
  set (sl := last_slot (Head n) l1).
  assert (Hsl : sl = Head n \/ exists y, In y l1 /\ sl = Link y)
    by apply last_slot_link.
  change (next_free (store (set_next_free s p (load s sl)) sl (Some p)) q)
    with (load (store (set_next_free s p (load s sl)) sl (Some p)) (Link q)).
  rewrite load_store_other.
  - cbn. destruct (Z.eqb_spec q p); [contradiction|reflexivity].
  - destruct Hsl as [->|(y & Hy & ->)]; [discriminate|]. intros [= ->].
    apply Hq. rewrite Hl. apply in_or_app. now left.
Qed.

Lemma walk_lseg (nf : Z -> option Z) (l : list Z) :
  forall (n : nat) (h : option Z),
    lseg nf h l None -> (List.length l <= n)%nat -> walk n nf h = l.
Proof.
  induction l as [|x l IH]; intros n h Hl Hn.
  - cbn in Hl. subst h. destruct n; reflexivity.
  - destruct Hl as (-> & Hl). destruct n as [|n]; [cbn in Hn; lia|].
    cbn [walk]. f_equal. apply IH; [exact Hl|cbn in Hn; lia].
Qed.

(** X16.  The arithmetic of blocks, for an order from 0 to [LastOrder] and a PFN
    of 64 bits: [pages_per_block] is [2^order]; the mask test of
    [block_aligned] holds exactly for the multiples of [2^order]; and the
    buddy of an aligned block is aligned, lies [2^order] pages above or
    below it, has the block as its own buddy, and the lower of the two
    starts a block of the next order. *)
Theorem buddy_arithmetic (n p : Z)
    (Hn : 0 <= n <= LastOrder) (Hp : 0 <= p < 2 ^ 64) :
  pages_per_block n = 2 ^ n /\
  (block_aligned n p = true <-> (2 ^ n | p)) /\
  ((2 ^ n | p) ->
   let b := get_buddy n p in
   get_buddy n b = p /\ (2 ^ n | b) /\ 0 <= b < 2 ^ 64 /\
   (b = p + 2 ^ n \/ b = p - 2 ^ n) /\
   (2 ^ (n + 1) | Z.min p b)).
Proof.
  split; [apply pages_per_block_pow, Hn|].
  split; [apply block_aligned_iff, Hn|].
  intros Hal b. pose proof (pow2_pos n (proj1 Hn)) as Hpos.
  pose proof (pow2_succ n (proj1 Hn)) as Hsucc.
  split; [apply get_buddy_involutive|].
  split; [apply get_buddy_aligned; [apply Hn|exact Hal]|].
  destruct (get_buddy_cases n p (proj1 Hn) Hal) as [(Hd & Hb)|(Hd & Hb)];
    fold b in Hb; rewrite Hb.
  - pose proof (block_end_bound (n + 1) p ltac:(olia) Hd (proj2 Hp)).
    split; [lia|]. split; [now left|].
    now rewrite Z.min_l by lia.
  - destruct Hd as [k Hk]. assert (0 <= k) by nia.
    split; [nia|]. split; [now right|].
    rewrite Z.min_r by lia. exists k. exact Hk.
Qed.

Lemma buddy_arithmetic_witness :
  pages_per_block 2 = 2 ^ 2 /\
  (block_aligned 2 12 = true <-> (2 ^ 2 | 12)) /\
  ((2 ^ 2 | 12) ->
   let b := get_buddy 2 12 in
   get_buddy 2 b = 12 /\ (2 ^ 2 | b) /\ 0 <= b < 2 ^ 64 /\
   (b = 12 + 2 ^ 2 \/ b = 12 - 2 ^ 2) /\
   (2 ^ (2 + 1) | Z.min 12 b)).
Proof.
  assert (Hn : 0 <= 2 <= LastOrder) by (split; discriminate).
  assert (Hp : 0 <= 12 < 2 ^ 64) by (split; [discriminate|reflexivity]).
  exact (buddy_arithmetic 2 12 Hn Hp).
Defined.

(** X17.  [insert_free_block] on lists that are in order, with a block that is
    aligned and overlaps no listed block: the block is put on the list of
    its order, which stays strictly ascending, and no other list changes.
    [remove_free_block] then takes it off again: every list is as it was
    before the two calls. *)
Theorem insert_then_remove_free_block
    (s : state) (A : lists) (n p : Z)
    (Hrep : rep s A) (HA : good A) (Hn : 0 <= n <= LastOrder)
    (Hp : 0 <= p < 2 ^ 64) (Hal : (2 ^ n | p)) (Hap : apart A n p) :
  exists s1 s2 l,
    insert_free_block s n p = Ret s1 /\
    free_list_is s1 n l /\ StronglySorted Z.lt l /\
    (forall x, In x l <-> x = p \/ In x (A n)) /\
    (forall m, 0 <= m <= LastOrder -> m <> n -> free_list_is s1 m (A m)) /\
    remove_free_block s1 n p = Ret s2 /\
    (forall m, 0 <= m <= LastOrder -> free_list_is s2 m (A m)).
Proof.
  assert (Hn0 : in_order n) by exact Hn.
  pose proof (apart_unlisted A n p (proj1 Hn) Hap) as Hun.
  destruct (insert_free_block_spec s A n p Hrep HA Hn0 Hal Hun)
    as (s1 & Hins & Hrep1 & _).
  pose proof (good_ins A n p HA Hn0 Hp Hal Hap) as HA1.
  set (A1 := upd A n (ins p (A n))) in *.
  assert (Hin : In p (A1 n)).
  { unfold A1. rewrite upd_same. apply In_ins. now left. }
  destruct (remove_free_block_spec s1 A1 n p Hrep1 HA1 Hn0 Hin)
    as (s2 & Hrm & Hrep2 & _).
  exists s1, s2, (ins p (A n)).
  split; [exact Hins|]. split.
  { pose proof (Hrep1 n Hn0) as H. unfold A1 in H. now rewrite upd_same in H. }
  split.
  { pose proof (good_sorted A1 HA1 n Hn0) as H. unfold A1 in H.
    now rewrite upd_same in H. }
  split; [intros x; apply In_ins|]. split.
  { intros m Hm Hmn. pose proof (Hrep1 m Hm) as H. unfold A1 in H.
    now rewrite upd_other in H. }
  split; [exact Hrm|].
  intros m Hm. pose proof (Hrep2 m Hm) as H.
  destruct (Z.eq_dec m n) as [->|Hmn].
  - unfold A1 in H. rewrite !upd_same in H.
    now rewrite del_ins in H by exact (Hun n Hn0).
  - unfold A1 in H. now rewrite !upd_other in H by exact Hmn.
Qed.

Lemma insert_then_remove_free_block_witness :
  exists s1 s2 l,
    insert_free_block sample 3 0 = Ret s1 /\
    free_list_is s1 3 l /\ StronglySorted Z.lt l /\
    (forall x, In x l <-> x = 0 \/ In x (sample_lists 3)) /\
    (forall m, 0 <= m <= LastOrder -> m <> 3 ->
               free_list_is s1 m (sample_lists m)) /\
    remove_free_block s1 3 0 = Ret s2 /\
    (forall m, 0 <= m <= LastOrder -> free_list_is s2 m (sample_lists m)).
Proof.
  assert (Hn : 0 <= 3 <= LastOrder) by (split; discriminate).
  assert (Hp : 0 <= 0 < 2 ^ 64) by (split; [discriminate|reflexivity]).
  assert (Hal : (2 ^ 3 | 0)) by (exists 0; reflexivity).
  exact (insert_then_remove_free_block sample sample_lists 3 0
           sample_rep sample_good Hn Hp Hal sample_apart_0).
Defined.

(** X18.  A block that is on the free list of its order cannot be freed again:
    the walk of [get_slot] stops in front of it and the assertion
    [*slot != target] halts the kernel, in [free_pages] as in
    [insert_free_block]. *)
Theorem double_free_halts
    (s : state) (A : lists) (n p : Z)
    (Hrep : rep s A) (HA : good A) (Hn : 0 <= n <= LastOrder)
    (Hlisted : In p (A n)) :
  insert_free_block s n p = Stop Assertion /\
  free_pages s p n = Stop Assertion.
Proof.
  assert (Hn0 : in_order n) by exact Hn.
  assert (Hins : insert_free_block s n p = Stop Assertion).
  { unfold insert_free_block.
    now rewrite (get_slot_present s A n p Hrep HA Hn0 Hlisted). }
  split; [exact Hins|].
  unfold free_pages.
  replace (in_range n) with true by (symmetry; now apply in_range_iff).
  cbn [assert bind]. now rewrite Hins.
Qed.

Lemma double_free_halts_witness :
  insert_free_block sample 3 8 = Stop Assertion /\
  free_pages sample 8 3 = Stop Assertion.
Proof.
  assert (Hn : 0 <= 3 <= LastOrder) by (split; discriminate).
  assert (Hl : In 8 (sample_lists 3)) by (left; reflexivity).
  exact (double_free_halts sample sample_lists 3 8 sample_rep sample_good
           Hn Hl).
Defined.

(** X19.  A block that does not start at a multiple of [2^order] is turned down
    by every list operation, whatever the state: the alignment assertion of
    [get_slot] or of [get_candidate_slot] halts the kernel. *)
Theorem misaligned_block_halts
    (s : state) (n p : Z)
    (Hn : 0 <= n <= LastOrder) (Hmis : ~ (2 ^ n | p)) :
  free_pages s p n = Stop Assertion /\
  insert_free_block s n p = Stop Assertion /\
  remove_free_block s n p = Stop Assertion /\
  remove_buddies s n p = Stop Assertion.
Proof.
  assert (Hb : block_aligned n p = false).
  { destruct (block_aligned n p) eqn:E; [|reflexivity].
    apply block_aligned_iff in E; [contradiction|apply Hn]. }
  assert (Hr : in_range n = true) by now apply in_range_iff.
  unfold free_pages, insert_free_block, remove_free_block, remove_buddies,
    get_slot, get_candidate_slot.
  rewrite Hr, Hb. cbn [assert bind]. auto.
Qed.

Lemma misaligned_block_halts_witness :
  free_pages blank 3 1 = Stop Assertion /\
  insert_free_block blank 1 3 = Stop Assertion /\
  remove_free_block blank 1 3 = Stop Assertion /\
  remove_buddies blank 1 3 = Stop Assertion.
Proof.
  assert (Hn : 0 <= 1 <= LastOrder) by (split; discriminate).
  assert (Hmis : ~ (2 ^ 1 | 3)) by (intros [k Hk]; lia).
  exact (misaligned_block_halts blank 1 3 Hn Hmis).
Defined.

(** X20.  Taking a block off a list it is not on halts the kernel, in
    [remove_free_block] as in [remove_buddies]: [get_candidate_slot] walks
    to the end of the list and its assertion fails. *)
Theorem remove_unlisted_block_halts
    (s : state) (A : lists) (n p : Z)
    (Hrep : rep s A) (HA : good A) (Hn : 0 <= n <= LastOrder)
    (Hmissing : ~ In p (A n)) :
  remove_free_block s n p = Stop Assertion /\
  remove_buddies s n p = Stop Assertion.
Proof.
  unfold remove_free_block, remove_buddies.
  rewrite (get_candidate_slot_missing s A n p Hrep HA Hn Hmissing).
  split; reflexivity.
Qed.

Lemma remove_unlisted_block_halts_witness :
  remove_free_block sample 3 16 = Stop Assertion /\
  remove_buddies sample 3 16 = Stop Assertion.
Proof.
  assert (Hn : 0 <= 3 <= LastOrder) by (split; discriminate).
  assert (Hm : ~ In 16 (sample_lists 3)) by (cbn; lia).
  exact (remove_unlisted_block_halts sample sample_lists 3 16 sample_rep
           sample_good Hn Hm).
Defined.

Lemma buddy_of_block_start (j B : Z) :
  0 <= j -> (2 ^ (j + 1) | B) -> get_buddy j B = B + 2 ^ j.
Proof.
  intros Hj Hd. pose proof (pow2_pos j Hj) as Hpos.
  destruct (get_buddy_cases j B Hj (divide_pow2_succ j B Hj Hd))
    as [(_ & E)|((c & Hc) & _)]; [exact E|].
  exfalso. destruct Hd as [d Hd]. rewrite pow2_succ in Hc, Hd by exact Hj.
  assert (Hz : 2 ^ j * (2 * (d - c) - 1) = 0) by lia.
  apply Z.mul_eq_0 in Hz. lia.
Qed.

(** X21.  [split_block] on the first block of the list of order [k], the list
    below being empty, puts its two halves on the list of order [k - 1];
    [merge_buddies] on the lower half then finds the upper half by its
    pointer test and puts the block back: every list is as it was before
    the split. *)
Theorem merge_undoes_split
    (s : state) (A : lists) (k B : Z) (rest : list Z)
    (Hrep : rep s A) (HA : good A) (Hk : 0 < k <= LastOrder)
    (Hhead : A k = B :: rest) (Hbelow : A (k - 1) = []) :
  exists s1 s2,
    split_block s k B = Ret s1 /\
    free_list_is s1 (k - 1) [B; B + 2 ^ (k - 1)] /\
    free_list_is s1 k rest /\
    merge_buddies s1 (k - 1) B = Ret (Some B, s2) /\
    (forall m, 0 <= m <= LastOrder -> free_list_is s2 m (A m)).
Proof.
  assert (Hk0 : in_order k) by (unfold in_order; lia).
  assert (Hj0 : in_order (k - 1)) by (unfold in_order; lia).
  destruct (split_block_spec s A k B rest Hrep HA Hk Hhead Hbelow)
    as (s1 & Hsplit & Hrep1 & _).
  pose proof (good_split A k B rest HA Hk Hhead Hbelow) as HA1.
  assert (Hlow : split_lists A k (k - 1) = [B; B + 2 ^ (k - 1)]).
  { unfold split_lists. rewrite Hhead. apply upd_same. }
  assert (Hup : split_lists A k k = rest).
  { unfold split_lists. rewrite Hhead. rewrite upd_other by lia.
    apply upd_same. }
  assert (HB : In B (A k)) by (rewrite Hhead; now left).
  pose proof (good_aligned A HA k B Hk0 HB) as (_ & HBa).
  assert (Hbuddy : get_buddy (k - 1) B = B + 2 ^ (k - 1)).
  { apply buddy_of_block_start; [lia|].
    now replace (k - 1 + 1) with k by lia. }
  pose proof (pow2_pos (k - 1) ltac:(lia)) as Hpos.
  assert (Hin : In B (split_lists A k (k - 1))) by (rewrite Hlow; now left).
  pose proof (merge_buddies_spec s1 (split_lists A k) (k - 1) B Hrep1 HA1
                ltac:(lia) Hin) as Hm.
  cbv zeta in Hm. rewrite Hbuddy in Hm.
  replace (B <? B + 2 ^ (k - 1)) with true in Hm by lia.
  destruct Hm as [(_ & _ & s2 & Hmerge & Hrep2 & _)|(Hout & _)].
  2:{ exfalso. apply Hout. rewrite Hlow. right. now left. }
  exists s1, s2. split; [exact Hsplit|].
  split; [rewrite <- Hlow; exact (Hrep1 (k - 1) Hj0)|].
  split; [rewrite <- Hup; exact (Hrep1 k Hk0)|].
  split; [exact Hmerge|].
  intros m Hm. pose proof (Hrep2 m Hm) as H.
  unfold merged in H. replace (k - 1 + 1) with k in H by lia.
  rewrite Hlow, Hup in H.
  destruct (Z.eq_dec m k) as [->|Hmk].
  - rewrite upd_same in H. pose proof (good_sorted A HA k Hk0) as Hs.
    rewrite Hhead in Hs. rewrite (ins_head B rest Hs) in H.
    now rewrite Hhead.
  - rewrite upd_other in H by exact Hmk.
    destruct (Z.eq_dec m (k - 1)) as [->|Hmj].
    + rewrite upd_same, !del_head in H. now rewrite Hbelow.
    + rewrite upd_other in H by exact Hmj.
      now rewrite split_lists_other in H by lia.
Qed.

Lemma merge_undoes_split_witness :
  exists s1 s2,
    split_block sample 3 8 = Ret s1 /\
    free_list_is s1 (3 - 1) [8; 8 + 2 ^ (3 - 1)] /\
    free_list_is s1 3 [] /\
    merge_buddies s1 (3 - 1) 8 = Ret (Some 8, s2) /\
    (forall m, 0 <= m <= LastOrder -> free_list_is s2 m (sample_lists m)).
Proof.
  assert (Hk : 0 < 3 <= LastOrder) by (split; [reflexivity|discriminate]).
  exact (merge_undoes_split sample sample_lists 3 8 [] sample_rep sample_good
           Hk eq_refl eq_refl).
Defined.

(** X22.  The split chain.  On lists that are in order, let [k] be the first
    order at or above the requested one whose list is not empty, and [B]
    the first block of that list.  Then [allocate_pages] returns [B], the
    lowest block of that order.  Afterwards the list of order [k] has lost
    [B], every order [j] from the requested one up to [k - 1] holds one
    block, the upper half [B + 2^j], and the other lists are as they
    were. *)
Theorem allocate_pages_split_chain
    (s : state) (A : lists) (order k B : Z) (rest : list Z)
    (flags : page_allocation_flags)
    (Hrep : rep s A) (HA : good A)
    (Horder : 0 <= order) (Hk : order <= k <= LastOrder)
    (Hempty : forall j, order <= j < k -> A j = [])
    (Hhead : A k = B :: rest) :
  exists s',
    allocate_pages s order flags = Ret (Some B, s') /\
    (forall j, order <= j < k -> free_list_is s' j [B + 2 ^ j]) /\
    free_list_is s' k rest /\
    (forall m, 0 <= m <= LastOrder -> m < order \/ k < m ->
               free_list_is s' m (A m)).
Proof.
  assert (Ho : in_order order) by (unfold in_order; lia).
  assert (Hk0 : in_order k) by (unfold in_order; lia).
  destruct (allocate_pages_spec s A order flags Hrep HA Ho)
    as (s' & Halloc & Hrep' & _).
  exists s'.
  destruct (Z.eq_dec k order) as [->|Hne].
  - (* the list of the order asked for is not empty *)
    unfold alloc_lists in Halloc, Hrep'. rewrite Hhead in Halloc, Hrep'.
    cbn [fst snd] in *.
    split; [exact Halloc|]. split; [intros j Hj; lia|]. split.
    + pose proof (Hrep' order Ho) as H. now rewrite upd_same in H.
    + intros m Hm Hside. pose proof (Hrep' m Hm) as H.
      now rewrite upd_other in H by lia.
  - pose proof (scan_lists_spec (Z.to_nat (LastOrder - order)) A (order + 1)
                  ltac:(f_equal; lia) ltac:(olia)) as Hscan.
    cbn zeta in Hscan. destruct Hscan as (Hr1 & Hr2 & Hr3).
    unfold alloc_lists in Halloc, Hrep'.
    rewrite (Hempty order ltac:(lia)) in Halloc, Hrep'.
    remember (scan_lists (Z.to_nat (LastOrder - order)) A (order + 1)) as r
      eqn:Er.
    clear Er. assert (r = k).
    { destruct (Z_lt_le_dec r k) as [Hlt|Hge].
      - exfalso. apply Hr3; [lia|]. apply Hempty. lia.
      - destruct (Z.eq_dec r k) as [E|Hrk]; [exact E|].
        rewrite Hr2 in Hhead by lia. discriminate. }
    subst r. replace (k >? LastOrder) with false in Halloc, Hrep' by lia.
    destruct (split_down_lists_shape (Z.to_nat (k - order)) A k order B rest
                Horder ltac:(lia) eq_refl Hhead Hempty)
      as (S1 & S2 & S3 & S4).
    replace (order <? k) with true in S1 by lia.
    set (A1 := split_down_lists _ _ _ _) in *.
    rewrite S1 in Halloc, Hrep'. cbn [fst snd] in *.
    split; [exact Halloc|]. split; [|split].
    + intros j Hj. pose proof (Hrep' j ltac:(unfold in_order; lia)) as H.
      destruct (Z.eq_dec j order) as [->|Hjo].
      * now rewrite upd_same in H.
      * rewrite upd_other in H by exact Hjo. now rewrite S2 in H by lia.
    + pose proof (Hrep' k Hk0) as H. rewrite upd_other in H by lia.
      now rewrite S3 in H by lia.
    + intros m Hm Hside. pose proof (Hrep' m Hm) as H.
      rewrite upd_other in H by lia. now rewrite S4 in H by lia.
Qed.

Lemma sample_lists_below (j : Z) : 1 <= j < 3 -> sample_lists j = [].
Proof.
  intros Hj. unfold sample_lists.
  destruct (Z.eqb_spec j 3); [lia|reflexivity].
Qed.

Lemma allocate_pages_split_chain_witness :
  exists s',
    allocate_pages sample 1 zero = Ret (Some 8, s') /\
    (forall j, 1 <= j < 3 -> free_list_is s' j [8 + 2 ^ j]) /\
    free_list_is s' 3 [] /\
    (forall m, 0 <= m <= LastOrder -> m < 1 \/ 3 < m ->
               free_list_is s' m (sample_lists m)).
Proof.
  assert (Ho : 0 <= 1) by discriminate.
  assert (Hk : 1 <= 3 <= LastOrder) by (split; discriminate).
  exact (allocate_pages_split_chain sample sample_lists 1 3 8 [] zero
           sample_rep sample_good Ho Hk sample_lists_below eq_refl).
Defined.

(** X23.  The walk of [dump] along the list of each order meets exactly the
    blocks of that list, lowest first, and then the null link that ends
    it: as many steps as the list is long are enough. *)
Theorem dump_lists_the_free_blocks
    (s : state) (A : lists) (fuel : nat)
    (Hrep : rep s A)
    (Hfuel : forall n, 0 <= n <= LastOrder ->
                       (List.length (A n) <= fuel)%nat) :
  dump_lists fuel s = map A orders /\
  dump_lists (S fuel) s = dump_lists fuel s.
Proof.
  assert (Hord : forall n, In n orders -> 0 <= n <= LastOrder).
  { intros n Hn. unfold orders in Hn. apply in_map_iff in Hn.
    destruct Hn as (i & <- & Hi). apply in_seq in Hi. olia. }
  assert (Hwalk : forall f, (forall n, 0 <= n <= LastOrder ->
                                (List.length (A n) <= f)%nat) ->
                            dump_lists f s = map A orders).
  { intros f Hf. unfold dump_lists. apply map_ext_in. intros n Hn.
    unfold blocks.
    exact (walk_lseg (next_free s) (A n) f _ (Hrep n (Hord n Hn))
             (Hf n (Hord n Hn))). }
  split; [exact (Hwalk fuel Hfuel)|].
  rewrite (Hwalk fuel Hfuel). apply Hwalk.
  intros n Hn. specialize (Hfuel n Hn). lia.
Qed.

Lemma sample_lists_short (n : Z) :
  0 <= n <= LastOrder -> (List.length (sample_lists n) <= 1)%nat.
Proof.
  intros _. unfold sample_lists. destruct (n =? 3); cbn; lia.
Qed.

Lemma dump_lists_the_free_blocks_witness :
  dump_lists 1 sample = map sample_lists orders /\
  dump_lists 2 sample = dump_lists 1 sample.
Proof.
  exact (dump_lists_the_free_blocks sample sample_lists 1 sample_rep
           sample_lists_short).
Defined.

(** X24.  The merge test trusts the first word of the lower buddy even when that
    page is not free.  Let the block [p] of order [n < LastOrder] be the
    upper half of its pair, the lower half [p - 2^n] not be listed, and the
    first word of that page hold the address of [p] all the same.  Then
    [free_pages] inserts [p], takes the pair for free, and halts the kernel
    in [remove_buddies], on the assertion of [get_candidate_slot]. *)
Theorem free_pages_halts_on_stale_link
    (s : state) (A : lists) (n p : Z)
    (Hrep : rep s A) (HA : good A) (Hn : 0 <= n < LastOrder)
    (Hp : 0 <= p < 2 ^ 64) (Hal : (2 ^ n | p)) (Hap : apart A n p)
    (Hupper : (2 ^ (n + 1) | p - 2 ^ n))
    (Hlower : forall m, 0 <= m <= LastOrder -> ~ In (p - 2 ^ n) (A m))
    (Hstale : next_free s (p - 2 ^ n) = Some p) :
  free_pages s p n = Stop Assertion.
Proof.
  assert (Hn0 : in_order n) by (unfold in_order; lia).
  pose proof (pow2_pos n (proj1 Hn)) as Hpos.
  pose proof (apart_unlisted A n p (proj1 Hn) Hap) as Hun.
  destruct (insert_free_block_spec s A n p Hrep HA Hn0 Hal Hun)
    as (s1 & Hins & Hrep1 & _).
  pose proof (good_ins A n p HA Hn0 Hp Hal Hap) as HA1.
  set (A1 := upd A n (ins p (A n))) in *.
  assert (Hin : In p (A1 n)).
  { unfold A1. rewrite upd_same. apply In_ins. now left. }
  assert (Hbuddy : get_buddy n p = p - 2 ^ n).
  { pose proof (buddy_of_block_start n (p - 2 ^ n) (proj1 Hn) Hupper) as H.
    replace (p - 2 ^ n + 2 ^ n) with p in H by ring.
    rewrite <- H at 1. apply get_buddy_involutive. }
  assert (Hlink : next_free s1 (p - 2 ^ n) = Some p).
  { rewrite <- Hstale.
    apply (insert_free_block_frame s s1 A n p _ Hrep HA Hn0 Hal Hun Hins);
      [lia|exact (Hlower n Hn0)]. }
  pose proof (merge_buddies_spec s1 A1 n p Hrep1 HA1 Hn Hin) as Hm.
  cbv zeta in Hm. rewrite Hbuddy in Hm.
  replace (p <? p - 2 ^ n) with false in Hm by lia.
  unfold free_pages.
  replace (in_range n) with true by (symmetry; now apply in_range_iff).
  cbn [assert bind]. rewrite Hins. cbn [bind].
  unfold iterative_merge.
  destruct (Z.to_nat (LastOrder - n)) as [|fuel] eqn:Hfuel; [lia|].
  cbn [iterative_merge_loop]. replace (n <? LastOrder) with true by lia.
  destruct Hm as [(Hlisted & _)|(_ & [(Hno & _)|(_ & Hstop & _)])].
  - exfalso. unfold A1 in Hlisted. rewrite upd_same in Hlisted.
    apply In_ins in Hlisted. destruct Hlisted as [E|Hl]; [lia|].
    exact (Hlower n Hn0 Hl).
  - contradiction.
  - rewrite Hstop. reflexivity.
Qed.

Lemma free_pages_halts_on_stale_link_witness :
  free_pages stale 3 0 = Stop Assertion.
Proof.
  assert (Hn : 0 <= 0 < LastOrder) by (split; [discriminate|reflexivity]).
  assert (Hp : 0 <= 3 < 2 ^ 64) by (split; [discriminate|reflexivity]).
  assert (Hal : (2 ^ 0 | 3)) by (exists 3; reflexivity).
  assert (Hap : apart no_lists 0 3) by (intros m q _ []).
  assert (Hupper : (2 ^ (0 + 1) | 3 - 2 ^ 0)) by (exists 1; reflexivity).
  assert (Hlower : forall m, 0 <= m <= LastOrder ->
                             ~ In (3 - 2 ^ 0) (no_lists m))
    by (intros m _ []).
  exact (free_pages_halts_on_stale_link stale no_lists 0 3 stale_rep
           no_lists_good Hn Hp Hal Hap Hupper Hlower eq_refl).
Defined.

Lemma blank_no_page_free (q : Z) :
  0 <= q < 0 + 2 ^ 17 -> ~ page_is_free blank q.
Proof.
  intros _ (n & p & _ & H & _). exact (blank_nothing_listed n p H).
Qed.

Lemma insert_free_pages_frees_the_range_witness :
  exists s',
    insert_free_pages blank 0 (2 ^ 17) = Ret s' /\
    well_formed s' /\ links_null s' /\
    (forall q, page_is_free s' q <->
               page_is_free blank q \/ 0 <= q < inserted_end 0 (2 ^ 17)).
Proof.
  assert (Hpfn : 0 <= 0) by discriminate.
  assert (Hcount : 0 <= 2 ^ 17) by discriminate.
  assert (Hfits : 0 + 2 ^ 17 < 2 ^ 64 - 1) by reflexivity.
  exact (insert_free_pages_frees_the_range blank 0 (2 ^ 17)
           (proj1 (proj1 (global_invariants_split blank) blank_invariants))
           (proj2 (proj1 (global_invariants_split blank) blank_invariants))
           Hpfn Hcount Hfits blank_no_page_free).
Defined.

(** ** The blocks that are handed out *)

Lemma NoDup_remove_block (x : Z * Z) (G : owned) :
  NoDup G -> NoDup (remove block_eq_dec x G).
Proof.
  induction 1 as [|y G Hy Hnd IH]; cbn; [constructor|].
  destruct (block_eq_dec x y); [exact IH|].
  constructor; [|exact IH]. intros H. apply in_remove in H. tauto.
Qed.

Lemma handed_out_once_step (c c' : state * owned) (x : call) :
  step c x c' -> between_calls c -> NoDup (snd c) -> NoDup (snd c').
Proof.
  intros Hstep (A & Hrep & HA & Hnfb & HG & _) Hnd.
  destruct Hstep as [s s' G pfn count Hp Hc Hfree Hown Hins
                    |s s' G order p flags Halloc
                    |s s' G order flags Halloc
                    |s s' G p order Hin Hfree]; cbn [fst snd] in *.
  - exact Hnd.
  - constructor; [|exact Hnd]. intros Hin.
    assert (Ho : in_order order).
    { unfold allocate_pages in Halloc. unfold in_order.
      destruct ((order <? 0) || (order >? LastOrder)) eqn:E; [discriminate|].
      lia. }
    destruct (allocate_pages_spec s A order flags Hrep HA Ho)
      as (s1 & Halloc' & _).
    rewrite Halloc in Halloc'. injection Halloc' as Hfst _.
    assert (Hal : alloc_lists A order = (Some p, snd (alloc_lists A order))).
    { rewrite Hfst. apply surjective_pairing. }
    destruct (alloc_lists_keeps A _ order p HA Ho Hal)
      as (_ & _ & _ & _ & _ & Hkeep).
    destruct (HG p order Hin) as (_ & _ & _ & Hap).
    pose proof (pow2_pos order (proj1 Ho)).
    destruct (proj2 (Hkeep _ _ Hap)); lia.
  - exact Hnd.
  - now apply NoDup_remove_block.
Qed.

Lemma handed_out_once_run (c c' : state * owned) (calls : list call) :
  run c calls c' -> between_calls c -> NoDup (snd c) ->
  between_calls c' /\ NoDup (snd c').
Proof.
  induction 1 as [c|c1 c2 c3 x calls Hstep _ IH]; [auto|].
  intros Hb Hnd. apply IH.
  - exact (between_calls_step c1 c2 x Hstep Hb).
  - exact (handed_out_once_step c1 c2 x Hstep Hb Hnd).
Qed.

(** X25.  No page is handed out twice.  Take any sequence of calls that
    return, made on a freshly constructed allocator by callers who insert
    only pages that are neither free nor handed out and free only blocks
    that were handed out at that order.  Then the blocks handed out and not
    yet freed are all different, each is aligned to its order, no two of
    them share a page, and none of their pages is on a free list. *)
Theorem no_page_is_handed_out_twice
    (nf : Z -> option Z) (bd : Z -> Z -> Z) (calls : list call)
    (s : state) (G : owned)
    (Hrun : run (fresh nf bd, []) calls (s, G)) :
  NoDup G /\
  (forall p n, In (p, n) G ->
     0 <= n <= LastOrder /\ 0 <= p < 2 ^ 64 /\ (2 ^ n | p)) /\
  (forall p n p' n', In (p, n) G -> In (p', n') G -> (p, n) <> (p', n') ->
     p + 2 ^ n <= p' \/ p' + 2 ^ n' <= p) /\
  (forall p n q, In (p, n) G -> p <= q < p + 2 ^ n -> ~ page_is_free s q).
Proof.
  destruct (handed_out_once_run _ _ _ Hrun (between_calls_fresh nf bd)
              (NoDup_nil _))
    as ((A & Hrep & HA & _ & HG & HGG) & Hnd).
  cbn [fst snd] in *.
  split; [exact Hnd|]. split; [|split; [exact HGG|]].
  - intros p n Hin. destruct (HG p n Hin) as (Hn & Hp & Hal & _). auto.
  - intros p n q Hin Hq Hfree.
    destruct (HG p n Hin) as (Hn & _ & _ & Hap).
    pose proof (pow2_pos n (proj1 Hn)) as Hpos.
    apply (page_is_free_rep s A q Hrep) in Hfree.
    exact (proj1 (avoids_free_page A p (p + 2 ^ n) ltac:(lia)) Hap q Hq Hfree).
Qed.

(** Eight pages are inserted at PFN 0 and two single pages are allocated. *)
Definition demo4 : state := after_allocate (allocate_pages demo2 0 none) blank.

Lemma demo_run_two :
  run (blank, []) [Insert 0 8; Allocate 0 none; Allocate 0 none]
      (demo4, [(1, 0); (0, 0)]).
Proof.
  apply run_cons with (c2 := (demo1, [])).
  { apply step_insert; try lia.
    - intros _ n q _ H. destruct (blank_nothing_listed n q H).
    - intros _ q n [].
    - vm_compute. reflexivity. }
  apply run_cons with (c2 := (demo2, [(0, 0)])).
  { apply step_allocate. vm_compute. reflexivity. }
  apply run_cons with (c2 := (demo4, [(1, 0); (0, 0)])).
  { apply step_allocate. vm_compute. reflexivity. }
  apply run_nil.
Qed.

Lemma no_page_is_handed_out_twice_witness :
  NoDup [(1, 0); (0, 0)] /\
  (forall p n, In (p, n) [(1, 0); (0, 0)] ->
     0 <= n <= LastOrder /\ 0 <= p < 2 ^ 64 /\ (2 ^ n | p)) /\
  (forall p n p' n', In (p, n) [(1, 0); (0, 0)] ->
     In (p', n') [(1, 0); (0, 0)] -> (p, n) <> (p', n') ->
     p + 2 ^ n <= p' \/ p' + 2 ^ n' <= p) /\
  (forall p n q, In (p, n) [(1, 0); (0, 0)] -> p <= q < p + 2 ^ n ->
                 ~ page_is_free demo4 q).
Proof.
  exact (no_page_is_handed_out_twice (fun _ => None) (fun _ _ => 0)
           [Insert 0 8; Allocate 0 none; Allocate 0 none] demo4
           [(1, 0); (0, 0)] demo_run_two).
Defined.

End Buddy.
